(** * Efficient RANSAC shape detection: the engine of [Shape_detection_3.h]

    A shallow embedding of the class [Shape_detection_3] (constructor,
    [detect], [getBestCandidate], [improveBound], [StopProbability] and the
    access functions) together with the properties of its driver.

    Conventions of the embedding.
    - [int], [unsigned int] and [size_t] values are integers of [Z]; every
      count of the engine is bounded by the number of input points, so no
      32-bit operation of the driver wraps for inputs of fewer than [2^31]
      points.  Positions in a [std::vector] are reached through
      [Z.to_nat] and stdpp's list lookup and insert.
    - A finite value of the number type [FT] is an exact rational of [Q]:
      rounding, overflow and underflow of the floating-point operations are
      not modelled.  [StopProbability] divides by a product that can be
      zero, so its result is a value of [FT], which has the signed zeros,
      the infinities and the not-a-number of IEEE 754 as well.
    - [std::mt19937 m_rng] is the sequence of values its successive calls
      return, with the position of the next call.
    - [Octree.h] and [Shape_base.h] are not part of the sources at hand; the
      operations of theirs that the driver calls are introduced inside
      [Section Driver], either as parameters or from the specification. *)

From Stdlib Require Import ZArith QArith Qminmax Qabs Qpower Sorted Lia.
From stdpp Require Import base list.

Local Open Scope Z_scope.

(** ** The generator *)

Record mt19937 := Mt19937 {
  rng_draws : nat -> Z;
  rng_pos : nat
}.

(** One call [m_rng()]: the value drawn and the generator after it. *)
Definition mt_next (g : mt19937) : Z * mt19937 :=
  (rng_draws g (rng_pos g), Mt19937 (rng_draws g) (S (rng_pos g))).

(** ** Direct octrees

    Only what the driver reads of a direct octree: the slice
    [begin, end) of the point array it was built on and its offset. *)

Record Direct_octree := mkDirect {
  oct_begin : Z;
  oct_end : Z;
  oct_offset : Z
}.

Definition oct_size (o : Direct_octree) : Z := oct_end o - oct_begin o.

(** ** Construction: the subset ladder (lines 161-226) *)

(** [m_num_subsets = max((int) floor(log(double(N))/log(2.)) - 9, 2)];
    the floor of the binary logarithm is [Z.log2] for [N >= 1]. *)
Definition num_subsets (N : Z) : Z := Z.max (Z.log2 N - 9) 2.

(** The loop of lines 195-200, from [i] on, [n] more rounds. *)
Fixpoint pick_indices (remainingPoints : Z) (n : nat) (i : Z) (g : mt19937)
  : list Z * mt19937 :=
  match n with
  | O => ([], g)
  | S n' =>
      let '(v, g1) := mt_next g in
      let index := v mod 2 in
      let index := index + Z.shiftl i 1 in
      let index :=
        if remainingPoints <=? index then remainingPoints - 1 else index in
      let '(rest, g2) := pick_indices remainingPoints n' (i + 1) g1 in
      (index :: rest, g2)
  end.

(** One round of the loop of lines 203-208:
    [tmp = *last; *last = first[idx]; first[idx] = tmp]. *)
Definition swap_with_last {A} (pts : list A) (idx last : nat) : list A :=
  match pts !! last, pts !! idx with
  | Some tmp, Some x => <[idx := tmp]> (<[last := x]> pts)
  | _, _ => pts
  end.

(** The loop of lines 203-208; [idxs] lists [indices[subsetSize-1]] down to
    [indices[0]].  Returns the array and the final [last]. *)
Fixpoint move_to_end {A} (pts : list A) (idxs : list Z) (last : Z)
  : list A * Z :=
  match idxs with
  | [] => (pts, last)
  | idx :: rest =>
      move_to_end (swap_with_last pts (Z.to_nat idx) (Z.to_nat last))
        rest (last - 1)
  end.

Record Ladder (A : Type) := mkLadder {
  l_points : list A;                         (* the range [first, beyond) *)
  l_last : Z;                                (* position of [last] *)
  l_remainingPoints : Z;
  l_octrees : list (option Direct_octree);   (* m_direct_octrees *)
  l_sizes : list Z;                          (* m_availableOctreeSizes *)
  l_rng : mt19937
}.
Arguments mkLadder {A}.
Arguments l_points {A}.
Arguments l_last {A}.
Arguments l_remainingPoints {A}.
Arguments l_octrees {A}.
Arguments l_sizes {A}.
Arguments l_rng {A}.

(** The body of the loop of lines 190-220 for subset [s]. *)
Definition subset_step {A} (s : Z) (st : Ladder A) : Ladder A :=
  let remainingPoints := l_remainingPoints st in
  let subsetSize := remainingPoints in
  if negb (s =? 0) then
    let subsetSize := Z.shiftr subsetSize 1 in
    let '(indices, g) :=
      pick_indices remainingPoints (Z.to_nat subsetSize) 0 (l_rng st) in
    let '(pts, last) := move_to_end (l_points st) (rev indices) (l_last st) in
    let o := mkDirect (last + 1) (last + subsetSize + 1)
                      (remainingPoints - subsetSize) in
    mkLadder pts last (remainingPoints - subsetSize)
      (<[Z.to_nat s := Some o]> (l_octrees st))
      (<[Z.to_nat s := subsetSize]> (l_sizes st)) g
  else
    let o := mkDirect 0 subsetSize 0 in
    mkLadder (l_points st) (l_last st) (remainingPoints - subsetSize)
      (<[0%nat := Some o]> (l_octrees st))
      (<[Z.to_nat s := subsetSize]> (l_sizes st)) (l_rng st).

(** [for (int s = m_num_subsets - 1; s >= 0; --s)], with [n = s + 1]. *)
Fixpoint subset_loop {A} (n : nat) (st : Ladder A) : Ladder A :=
  match n with
  | O => st
  | S s => subset_loop s (subset_step (Z.of_nat s) st)
  end.

(** ** Parameters (lines 110-116) *)

Record Parameters := mkParameters {
  probability : Q;
  min_points : Z;
  epsilon : Q;
  normal_threshold : Q;
  cluster_epsilon : Q
}.

(** ** Floating-point values

    The values of a floating-point [FT]: not a number, the two infinities,
    the two zeros, and the finite values other than zero, kept as exact
    rationals.  The flag of an infinity or a zero is its sign bit. *)
Inductive FT : Type :=
| FT_nan
| FT_inf (negative : bool)
| FT_zero (negative : bool)
| FT_fin (q : Q).

(** The conversion of a number to [FT]; a zero result is [+0]. *)
Definition FT_of_Q (q : Q) : FT :=
  if Qeq_bool q 0 then FT_zero false else FT_fin q.

Definition FT_of_Z (z : Z) : FT := FT_of_Q (inject_Z z).

(** The sign bit. *)
Definition FT_negative (x : FT) : bool :=
  match x with
  | FT_nan => false
  | FT_inf s | FT_zero s => s
  | FT_fin q => Qnum q <? 0
  end.

(** The number a finite value stands for. *)
Definition FT_Q (x : FT) : Q :=
  match x with
  | FT_fin q => q
  | _ => 0%Q
  end.

(** [x * y] *)
Definition FT_mul (x y : FT) : FT :=
  let s := xorb (FT_negative x) (FT_negative y) in
  match x, y with
  | FT_nan, _ | _, FT_nan => FT_nan
  | FT_inf _, FT_zero _ | FT_zero _, FT_inf _ => FT_nan
  | FT_inf _, _ | _, FT_inf _ => FT_inf s
  | FT_zero _, _ | _, FT_zero _ => FT_zero s
  | FT_fin a, FT_fin b => FT_of_Q (a * b)
  end.

(** [x / y]: a finite value over a zero is an infinity, a zero over a zero
    and an infinity over an infinity are not a number. *)
Definition FT_div (x y : FT) : FT :=
  let s := xorb (FT_negative x) (FT_negative y) in
  match x, y with
  | FT_nan, _ | _, FT_nan => FT_nan
  | FT_inf _, FT_inf _ | FT_zero _, FT_zero _ => FT_nan
  | FT_inf _, _ => FT_inf s
  | _, FT_inf _ => FT_zero s
  | FT_zero _, _ => FT_zero s
  | _, FT_zero _ => FT_inf s
  | FT_fin a, FT_fin b => FT_of_Q (a / b)
  end.

(** [x - y]; an exact difference of zero is [+0]. *)
Definition FT_sub (x y : FT) : FT :=
  match x, y with
  | FT_nan, _ | _, FT_nan => FT_nan
  | FT_inf s, FT_inf t => if Bool.eqb s t then FT_nan else FT_inf s
  | FT_inf s, _ => FT_inf s
  | _, FT_inf t => FT_inf (negb t)
  | FT_zero s, FT_zero t => FT_zero (s && negb t)
  | FT_zero _, FT_fin b => FT_fin (- b)
  | FT_fin a, FT_zero _ => FT_fin a
  | FT_fin a, FT_fin b => FT_of_Q (a - b)
  end.

(** [std::pow(x, y)] for an exponent [y] that holds the integer [n]:
    [pow(x, 0)] is 1 for every [x], also for not a number; a power of a zero
    or of an infinity is a zero or an infinity, negative for a negative
    base and an odd exponent. *)
Definition FT_pow (x : FT) (n : Z) : FT :=
  if n =? 0 then FT_fin 1
  else
    match x with
    | FT_nan => FT_nan
    | FT_inf s =>
        if n <? 0 then FT_zero (s && Z.odd n) else FT_inf (s && Z.odd n)
    | FT_zero s =>
        if n <? 0 then FT_inf (s && Z.odd n) else FT_zero (s && Z.odd n)
    | FT_fin q => FT_fin (Qpower q n)
    end.

(** The order of two values; [None] when one of them is not a number. *)
Definition FT_compare (x y : FT) : option comparison :=
  match x, y with
  | FT_nan, _ | _, FT_nan => None
  | FT_inf s, FT_inf t =>
      Some (if s then (if t then Eq else Lt) else (if t then Gt else Eq))
  | FT_inf s, _ => Some (if s then Lt else Gt)
  | _, FT_inf t => Some (if t then Gt else Lt)
  | _, _ => Some (Qcompare (FT_Q x) (FT_Q y))
  end.

(** [x < y] and [x <= y]: false when one of the two is not a number. *)
Definition FT_ltb (x y : FT) : bool :=
  match FT_compare x y with
  | Some Lt => true
  | _ => false
  end.

Definition FT_leb (x y : FT) : bool :=
  match FT_compare x y with
  | Some Lt | Some Eq => true
  | _ => false
  end.

(** [std::min(a, b)] is [(b < a) ? b : a]. *)
Definition std_min (a b : FT) : FT := if FT_ltb b a then b else a.

(** ** The overlook probability (lines 617-619)

    [min(pow(1.f - _sizeC / (_np * _l * 3), _dC), 1.)].  The driver always
    passes the integer [nbNewCandidates] for [_dC], the exponent of
    [FT_pow]. *)
Definition StopProbability (_sizeC _np : FT) (_dC : Z) (_l : FT) : FT :=
  std_min
    (FT_pow
       (FT_sub (FT_fin 1)
          (FT_div _sizeC (FT_mul (FT_mul _np _l) (FT_fin 3))))
       _dC)
    (FT_fin 1).

(** ** The filtered view of unassigned points (lines 120-129, 500-520) *)

(** The conversion of an [int] to [size_t] in [x < m_shapeIndex.size()]. *)
Definition to_size_t (x : Z) : Z := x mod 2 ^ 64.

Definition Filter_unassigned_points (m_shapeIndex : list Z) (x : Z) : bool :=
  if to_size_t x <? Z.of_nat (length m_shapeIndex) then
    match m_shapeIndex !! Z.to_nat x with
    | Some v => v =? -1
    | None => true
    end
  else true.

(** [boost::filter_iterator::satisfy_predicate]:
    [while (base != end && !pred( *base)) ++base]; at most [n] rounds. *)
Fixpoint satisfy_predicate (n : nat) (pred : Z -> bool) (base end_ : Z) : Z :=
  match n with
  | O => base
  | S n' =>
      if base =? end_ then base
      else if pred base then base
      else satisfy_predicate n' pred (base + 1) end_
  end.

(** A filter iterator over [counting_iterator<int>]: its base position. *)
Definition make_filter_iterator (pred : Z -> bool) (x end_ : Z) : Z :=
  satisfy_predicate (Z.to_nat (end_ - x)) pred x end_.

(** The indices met from a filter iterator at [base] up to [end_]:
    dereference, then [++] (step the base and skip to the next match). *)
Fixpoint filter_range (n : nat) (pred : Z -> bool) (base end_ : Z) : list Z :=
  match n with
  | O => []
  | S n' =>
      if base =? end_ then []
      else base :: filter_range n' pred
                     (make_filter_iterator pred (base + 1) end_) end_
  end.

(** Reading [v[i]] in a [std::vector<int>]; [0] stands for the undefined
    value of a read out of range. *)
Definition vec_at (v : list Z) (i : Z) : Z := default 0 (v !! Z.to_nat i).

Section Driver.

(** [Input]: the value type of [Input_iterator] (a point with its normal);
    [Factory]: a registered shape factory; [Fit]: the parameters of a fitted
    primitive; [Indexed_octree]: the global octree. *)
Context {Input Factory Fit Indexed_octree : Type}.

(** ** Candidates

    Modelled from the spec: a candidate of [Shape_base.h], with the members
    the driver reads and writes ([m_indices], [m_score], [m_nb_subset_used])
    and what its accessors [min_bound()], [max_bound()] and
    [expected_value()] return. *)

Record Shape := mkShape {
  m_fit : Fit;
  m_indices : list Z;
  m_score : Z;
  m_nb_subset_used : Z;
  min_bound : Q;
  max_bound : Q;
  expected_value : Q
}.

Definition set_indices (c : Shape) (l : list Z) : Shape :=
  mkShape (m_fit c) l (m_score c) (m_nb_subset_used c)
          (min_bound c) (max_bound c) (expected_value c).

Definition set_score (c : Shape) (v : Z) : Shape :=
  mkShape (m_fit c) (m_indices c) v (m_nb_subset_used c)
          (min_bound c) (max_bound c) (expected_value c).

Definition set_nb_subset_used (c : Shape) (v : Z) : Shape :=
  mkShape (m_fit c) (m_indices c) (m_score c) v
          (min_bound c) (max_bound c) (expected_value c).

Definition set_bounds (c : Shape) (b : Q * Q * Q) : Shape :=
  mkShape (m_fit c) (m_indices c) (m_score c) (m_nb_subset_used c)
          (fst (fst b)) (snd (fst b)) (snd b).

(** [assigned_points()], [score()] *)
Definition assigned_points (c : Shape) : list Z := m_indices c.
Definition score (c : Shape) : Z := m_score c.

(** ** What the driver calls in [Shape_base.h] and [Octree.h]

    The operations of the shape kinds and of the octrees that the driver
    relies on, as an interface. *)
Class Collaborators := {
  (** [create()] followed by [compute(indices, ...)] and [is_valid()]: the
      fit of a minimal sample, if there is a valid one. *)
  compute : Factory -> list Z -> list Input -> Q -> Q -> option Fit;
  (** The shape kind's point predicates. *)
  signed_distance : Fit -> Input -> Q;
  normal_deviation : Fit -> Input -> Q;
  (** The bound engine: from [|matched|], the number [S] of points inspected
      and the number [P] of available points, the triple
      [(min_bound, max_bound, expected_value)]. *)
  bound_engine : Z -> Z -> Z -> Q * Q * Q;
  (** The indices of the largest connected component of a set of matched
      points, for a cluster epsilon. *)
  largest_component : Fit -> Q -> list Input -> list Z -> list Z;
  (** The global (indexed) octree: built from the point array; it reports
      its depth and draws samples from a cell, which may change the state of
      its own sampling. *)
  createTree : list Input -> Indexed_octree;
  maxLevel : Indexed_octree -> Z;
  drawSamplesFromCellContainingPoint :
    Indexed_octree -> list Input -> Z -> Z -> list Z -> list Z -> Z ->
    bool * list Z * Indexed_octree;
  (** [m_root] of a direct octree after [createTree()]. *)
  has_root : Direct_octree -> bool;
  (** [std::sort] with [Compare_by_max_bound]: the same candidates, in
      ascending order of [max_bound()], so that the best candidate is the
      last element; the order among candidates of equal [max_bound()] is
      the implementation's. *)
  sort_by_max_bound : list Shape -> list Shape;
  sort_by_max_bound_perm : forall l, sort_by_max_bound l ≡ₚ l;
  sort_by_max_bound_sorted :
    forall l, Sorted (fun a b => (max_bound a <= max_bound b)%Q)
                (sort_by_max_bound l)
}.

Context `{collab : !Collaborators}.

(** Modelled from the spec: [compute_bound(S, P)] of [Shape_base.h] stores
    what the bound engine gives for the candidate's matched points. *)
Definition compute_bound (c : Shape) (sizeS sizeP : Z) : Shape :=
  set_bounds c (bound_engine (Z.of_nat (length (m_indices c))) sizeS sizeP).

(** Whether the point stored at position [pos] matches the fit and is
    unassigned under index [i]. *)
Definition matches (f : Fit) (pts : list Input) (shapeIndex : list Z)
    (eps tau : Q) (pos i : Z) : bool :=
  match pts !! Z.to_nat pos, shapeIndex !! Z.to_nat i with
  | Some p, Some a =>
      (0 <=? i) && (a =? -1)
      && Qle_bool (Qabs (signed_distance f p)) eps
      && Qle_bool (normal_deviation f p) tau
  | _, _ => false
  end.

(** Modelled from the spec: [Octree::score] of [Octree.h] on the indexed
    octree tests each unassigned point against the candidate's distance
    and normal deviation, adds the matches to the candidate's indices and
    returns their number. *)
Definition global_score (pts : list Input) (c : Shape) (shapeIndex : list Z)
    (eps tau : Q) : Shape * Z :=
  let matched :=
    filter (fun i => matches (m_fit c) pts shapeIndex eps tau i i = true)
           (seqZ 0 (Z.of_nat (length pts))) in
  (set_indices c (m_indices c ++ matched), Z.of_nat (length matched)).

(** Modelled from the spec: [Octree::score] of [Octree.h] on a direct
    octree does the same on its slice; the point at [begin + k] has index
    [offset + k]. *)
Definition direct_score (o : Direct_octree) (pts : list Input) (c : Shape)
    (shapeIndex : list Z) (eps tau : Q) : Shape * Z :=
  let matched :=
    filter (fun i => matches (m_fit c) pts shapeIndex eps tau
                       (oct_begin o + (i - oct_offset o)) i = true)
           (seqZ (oct_offset o) (oct_size o)) in
  (set_indices c (m_indices c ++ matched), Z.of_nat (length matched)).

(** Modelled from the spec: [connected_component] of [Shape_base.h] keeps
    of the matched indices those of the largest connected component. *)
Definition connected_component (c : Shape) (cluster_eps : Q)
    (pts : list Input) : Shape :=
  set_indices c (largest_component (m_fit c) cluster_eps pts (m_indices c)).

(** Modelled from the spec: [update_points] of [Shape_base.h] drops the
    indices that are now assigned; the score is the number of those left. *)
Definition update_points (c : Shape) (shapeIndex : list Z) : Shape :=
  let kept := filter (fun i => vec_at shapeIndex i = -1) (m_indices c) in
  set_score (set_indices c kept) (Z.of_nat (length kept)).

(** The candidate a factory yields from a fit. *)
Definition new_shape (f : Fit) : Shape := mkShape f [] 0 0 0%Q 0%Q 0%Q.

(** ** The engine (lines 625-646) *)

Record Engine := mkEngine {
  m_options : option Parameters;       (* [None]: not assigned yet *)
  m_rng : mt19937;
  m_direct_octrees : list (option Direct_octree);
  m_global_octree : Indexed_octree;
  m_availableOctreeSizes : list Z;
  m_num_subsets : Z;
  m_shapeIndex : list Z;
  m_numAvailablePoints : Z;
  m_extractedShapes : list Shape;
  m_shapeFactories : list Factory;
  m_input : list Input       (* [m_inputIterator_first, m_inputIterator_beyond) *)
}.

Definition set_options (e : Engine) (o : Parameters) : Engine :=
  mkEngine (Some o) (m_rng e) (m_direct_octrees e) (m_global_octree e)
    (m_availableOctreeSizes e) (m_num_subsets e) (m_shapeIndex e)
    (m_numAvailablePoints e) (m_extractedShapes e) (m_shapeFactories e)
    (m_input e).

Definition set_rng (e : Engine) (g : mt19937) : Engine :=
  mkEngine (m_options e) g (m_direct_octrees e) (m_global_octree e)
    (m_availableOctreeSizes e) (m_num_subsets e) (m_shapeIndex e)
    (m_numAvailablePoints e) (m_extractedShapes e) (m_shapeFactories e)
    (m_input e).

Definition set_global_octree (e : Engine) (t : Indexed_octree) : Engine :=
  mkEngine (m_options e) (m_rng e) (m_direct_octrees e) t
    (m_availableOctreeSizes e) (m_num_subsets e) (m_shapeIndex e)
    (m_numAvailablePoints e) (m_extractedShapes e) (m_shapeFactories e)
    (m_input e).

Definition set_availableOctreeSizes (e : Engine) (v : list Z) : Engine :=
  mkEngine (m_options e) (m_rng e) (m_direct_octrees e) (m_global_octree e)
    v (m_num_subsets e) (m_shapeIndex e)
    (m_numAvailablePoints e) (m_extractedShapes e) (m_shapeFactories e)
    (m_input e).

Definition set_shapeIndex (e : Engine) (v : list Z) : Engine :=
  mkEngine (m_options e) (m_rng e) (m_direct_octrees e) (m_global_octree e)
    (m_availableOctreeSizes e) (m_num_subsets e) v
    (m_numAvailablePoints e) (m_extractedShapes e) (m_shapeFactories e)
    (m_input e).

Definition set_numAvailablePoints (e : Engine) (v : Z) : Engine :=
  mkEngine (m_options e) (m_rng e) (m_direct_octrees e) (m_global_octree e)
    (m_availableOctreeSizes e) (m_num_subsets e) (m_shapeIndex e)
    v (m_extractedShapes e) (m_shapeFactories e) (m_input e).

Definition set_extractedShapes (e : Engine) (v : list Shape) : Engine :=
  mkEngine (m_options e) (m_rng e) (m_direct_octrees e) (m_global_octree e)
    (m_availableOctreeSizes e) (m_num_subsets e) (m_shapeIndex e)
    (m_numAvailablePoints e) v (m_shapeFactories e) (m_input e).

Definition set_shapeFactories (e : Engine) (v : list Factory) : Engine :=
  mkEngine (m_options e) (m_rng e) (m_direct_octrees e) (m_global_octree e)
    (m_availableOctreeSizes e) (m_num_subsets e) (m_shapeIndex e)
    (m_numAvailablePoints e) (m_extractedShapes e) v (m_input e).

(** The constructor (lines 161-226).  [g] is the generator as seeded by
    [std::random_device()()] in the member initialiser: the constructor has
    no seed among its arguments. *)
Definition Shape_detection_3 (input : list Input) (g : mt19937) : Engine :=
  let N := Z.of_nat (length input) in
  let K := num_subsets N in
  let st0 := mkLadder input (N - 1) N
               (replicate (Z.to_nat K) None) (replicate (Z.to_nat K) 0) g in
  let st := subset_loop (Z.to_nat K) st0 in
  mkEngine None (l_rng st) (l_octrees st) (createTree (l_points st))
    (l_sizes st) K [] N [] [] (l_points st).

(** [add_shape_factory] (lines 254-257) *)
Definition add_shape_factory (e : Engine) (factory : Factory) : Engine :=
  set_shapeFactories e (m_shapeFactories e ++ [factory]).

(** ** Access (lines 478-520) *)

Definition number_of_shapes (e : Engine) : Z :=
  Z.of_nat (length (m_extractedShapes e)).

Definition number_of_unassigned_points (e : Engine) : Z :=
  m_numAvailablePoints e.

Definition unassigned_points_begin (e : Engine) : Z :=
  make_filter_iterator (Filter_unassigned_points (m_shapeIndex e))
    0 (Z.of_nat (length (m_shapeIndex e))).

(** [.end()] of the filter iterator gives its end position, from which the
    returned iterator is made. *)
Definition unassigned_points_end (e : Engine) : Z :=
  Z.of_nat (length (m_shapeIndex e)).

(** The indices met from [unassigned_points_begin()] up to
    [unassigned_points_end()]. *)
Definition unassigned_points (e : Engine) : list Z :=
  filter_range (length (m_shapeIndex e))
    (Filter_unassigned_points (m_shapeIndex e))
    (unassigned_points_begin e) (unassigned_points_end e).

(** ** [improveBound] (lines 575-615) *)

(** [for (i = 0; i < m_nb_subset_used; i++) numPointsEvaluated +=
    m_availableOctreeSizes[i]] *)
Definition sum_sizes_below (sizes : list Z) (used : Z) : Z :=
  foldl (fun acc i => acc + vec_at sizes i) 0 (seqZ 0 used).

(** The [do ... while] of lines 598-606; [n] bounds the rounds after the
    first by the subsets left. *)
Fixpoint improve_loop (n : nat) (e : Engine) (opts : Parameters)
    (candidate : Shape) (numPointsEvaluated newSampledPoints : Z)
    (min_pts : Z) : Shape * Z :=
  let used := m_nb_subset_used candidate in
  let '(c1, newScore) :=
    match m_direct_octrees e !! Z.to_nat used with
    | Some (Some o) =>
        direct_score o (m_input e) candidate (m_shapeIndex e)
          (epsilon opts) (normal_threshold opts)
    | _ => (candidate, 0)
    end in
  let c2 := set_score c1 (m_score c1 + newScore) in
  let numPointsEvaluated :=
    numPointsEvaluated + vec_at (m_availableOctreeSizes e) used in
  let newSampledPoints :=
    newSampledPoints + vec_at (m_availableOctreeSizes e) used in
  let c3 := set_nb_subset_used c2 (used + 1) in
  if (newSampledPoints <? min_pts) && (used + 1 <? m_num_subsets e) then
    match n with
    | O => (c3, numPointsEvaluated)
    | S n' =>
        improve_loop n' e opts c3 numPointsEvaluated newSampledPoints min_pts
    end
  else (c3, numPointsEvaluated).

Definition improveBound (e : Engine) (opts : Parameters) (candidate : Shape)
    (_SizeP max_subset min_pts : Z) : bool * Shape :=
  if max_subset <=? m_nb_subset_used candidate then (false, candidate)
  else if m_num_subsets e <=? m_nb_subset_used candidate then
    (false, candidate)
  else
    let candidate :=
      set_nb_subset_used candidate
        (if m_num_subsets e <=? m_nb_subset_used candidate
         then m_num_subsets e - 1 else m_nb_subset_used candidate) in
    let numPointsEvaluated :=
      sum_sizes_below (m_availableOctreeSizes e)
        (m_nb_subset_used candidate) in
    let '(c, numPointsEvaluated) :=
      improve_loop
        (Z.to_nat (m_num_subsets e - m_nb_subset_used candidate))
        e opts candidate numPointsEvaluated 0 min_pts in
    let c := set_score c (Z.of_nat (length (m_indices c))) in
    (true, compute_bound c numPointsEvaluated _SizeP).

(** ** [getBestCandidate] (lines 528-569) *)

(** The [for] loop of lines 548-561, from [position_stop] down.  Returns
    the candidates, the position at which the loop was left, [improved].
    [None]: an empty or too short vector was indexed. *)
Fixpoint refine_overlapping (n : nat) (e : Engine) (opts : Parameters)
    (_SizeP : Z) (candidates : list Shape)
    (position_stop index_worse_candidate : Z) (improved : bool)
  : option (list Shape * Z * bool) :=
  match n with
  | O => Some (candidates, position_stop, improved)
  | S n' =>
      if position_stop <? index_worse_candidate then
        Some (candidates, position_stop, improved)
      else
        back ← last candidates;
        cur ← candidates !! Z.to_nat position_stop;
        if negb (Qle_bool (min_bound back) (max_bound cur)) then
          Some (candidates, position_stop, improved)
        else if Qle_bool (max_bound cur) (inject_Z (min_points opts)) then
          Some (candidates, position_stop, improved)
        else
          let '(b, cur') :=
            improveBound e opts cur _SizeP (m_num_subsets e)
              (min_points opts) in
          let candidates := <[Z.to_nat position_stop := cur']> candidates in
          let improved := improved || b in
          if negb (Qle_bool (min_bound back) (max_bound cur')) then
            Some (candidates, position_stop, improved)
          else
            refine_overlapping n' e opts _SizeP candidates
              (position_stop - 1) index_worse_candidate improved
  end.

(** The [while] loop of lines 535-564.  [index_worse_candidate] is an
    [int] compared with a [size_t]. *)
Fixpoint best_loop (fuel : nat) (e : Engine) (opts : Parameters)
    (_SizeP : Z) (candidates : list Shape) (index_worse_candidate : Z)
    (improved : bool) : option (list Shape) :=
  let size := Z.of_nat (length candidates) in
  if (to_size_t index_worse_candidate <? to_size_t (size - 1)) && improved
  then
    match fuel with
    | O => None
    | S fuel' =>
        let k := Z.to_nat index_worse_candidate in
        let candidates :=
          take k candidates ++ sort_by_max_bound (drop k candidates) in
        back ← last candidates;
        let '(_, back') :=
          improveBound e opts back _SizeP (m_num_subsets e)
            (min_points opts) in
        let candidates :=
          <[Nat.pred (length candidates) := back']> candidates in
        '(candidates, position_stop, improved) ←
          refine_overlapping
            (Z.to_nat (size - 1 - index_worse_candidate))
            e opts _SizeP candidates (size - 2)
            index_worse_candidate false;
        best_loop fuel' e opts _SizeP candidates position_stop improved
    end
  else Some candidates.

(** Returns the candidates as reordered and refined; the best one is the
    last. *)
Definition getBestCandidate (fuel : nat) (e : Engine) (opts : Parameters)
    (candidates : list Shape) (_SizeP : Z) : option (list Shape) :=
  if Z.of_nat (length candidates) =? 1 then Some candidates
  else best_loop fuel e opts _SizeP candidates 0 true.

(** ** [detect] (lines 266-466) *)

(** The locals of [detect] that live across iterations of the main loop. *)
Record Locals := mkLocals {
  candidates : list Shape;
  bestExp : Q;
  numInvalid : Z;
  nbNewCandidates : Z;
  nbFailedCandidates : Z;
  forceExit : bool
}.

Definition requiredSamples : Z := 4.

(** [m_numAvailablePoints - numInvalid] *)
Definition available (e : Engine) (loc : Locals) : Z :=
  m_numAvailablePoints e - numInvalid loc.

(** [StopProbability(c, m_numAvailablePoints - numInvalid, nbNewCandidates,
    m_global_octree->maxLevel())] *)
Definition overlook (e : Engine) (loc : Locals) (c : Q) : FT :=
  StopProbability (FT_of_Q c) (FT_of_Z (available e loc))
    (nbNewCandidates loc) (FT_of_Z (maxLevel (m_global_octree e))).

(** [selectRandomOctreeLevel] (lines 524-526) *)
Definition selectRandomOctreeLevel (e : Engine) : Z * mt19937 :=
  let '(v, g) := mt_next (m_rng e) in
  (v mod (maxLevel (m_global_octree e) + 1), g).

(** Lines 303-305:
    [do firstSample = m_rng() % m_numAvailablePoints;
     while (m_shapeIndex[firstSample] != -1)]. *)
Fixpoint draw_first_sample (fuel : nat) (e : Engine) : option (Z * Engine) :=
  match fuel with
  | O => None
  | S fuel' =>
      let '(v, g) := mt_next (m_rng e) in
      let firstSample := v mod m_numAvailablePoints e in
      let e := set_rng e g in
      if negb (vec_at (m_shapeIndex e) firstSample =? -1) then
        draw_first_sample fuel' e
      else Some (firstSample, e)
  end.

(** Lines 302-308: draw until a sample of [requiredSamples] points has been
    taken from the cell of an unassigned point. *)
Fixpoint draw_sample (fuel : nat) (e : Engine) (indices : list Z)
  : option (list Z * Engine) :=
  match fuel with
  | O => None
  | S fuel' =>
      '(firstSample, e) ← draw_first_sample fuel' e;
      let '(level, g) := selectRandomOctreeLevel e in
      let e := set_rng e g in
      let '(done, indices, t) :=
        drawSamplesFromCellContainingPoint (m_global_octree e) (m_input e)
          firstSample level indices (m_shapeIndex e) requiredSamples in
      let e := set_global_octree e t in
      if negb (vec_at (m_shapeIndex e) firstSample =? -1) || negb done then
        draw_sample fuel' e indices
      else Some (indices, e)
  end.

(** The loop over the factories, lines 313-334. *)
Fixpoint add_candidates (fs : list Factory) (e : Engine) (opts : Parameters)
    (indices : list Z) (loc : Locals) : Locals :=
  match fs with
  | [] => loc
  | f :: fs' =>
      let loc' :=
        match compute f indices (m_input e) (epsilon opts)
                (normal_threshold opts) with
        | Some fit =>
            let '(_, p) :=
              improveBound e opts (new_shape fit) (available e loc) 1 500 in
            if Qle_bool (inject_Z (min_points opts)) (max_bound p) then
              mkLocals (candidates loc ++ [p])
                (if negb (Qle_bool (expected_value p) (bestExp loc))
                 then expected_value p else bestExp loc)
                (numInvalid loc) (nbNewCandidates loc)
                (nbFailedCandidates loc) (forceExit loc)
            else
              mkLocals (candidates loc) (bestExp loc) (numInvalid loc)
                (nbNewCandidates loc) (nbFailedCandidates loc + 1)
                (forceExit loc)
        | None =>
            mkLocals (candidates loc) (bestExp loc) (numInvalid loc)
              (nbNewCandidates loc) (nbFailedCandidates loc + 1)
              (forceExit loc)
        end in
      add_candidates fs' e opts indices loc'
  end.

(** One round of the candidate generation, lines 298-339. *)
Definition generate_round (fuel : nat) (e : Engine) (opts : Parameters)
    (loc : Locals) : option (Engine * Locals) :=
  '(indices, e) ← draw_sample fuel e [];
  let loc :=
    mkLocals (candidates loc) (bestExp loc) (numInvalid loc)
      (nbNewCandidates loc + 1) (nbFailedCandidates loc) (forceExit loc) in
  let loc := add_candidates (m_shapeFactories e) e opts indices loc in
  let loc :=
    if 10000 <=? nbFailedCandidates loc then
      mkLocals (candidates loc) (bestExp loc) (numInvalid loc)
        (nbNewCandidates loc) (nbFailedCandidates loc) true
    else loc in
  Some (e, loc).

(** The condition of the generation loop, lines 341-343. *)
Definition generate_again (e : Engine) (opts : Parameters) (loc : Locals)
  : bool :=
  negb (forceExit loc)
  && FT_ltb (FT_of_Q (probability opts)) (overlook e loc (bestExp loc))
  && FT_ltb (FT_of_Q (probability opts))
       (overlook e loc (inject_Z (min_points opts))).

(** [do { ... } while (...)] of lines 298-343. *)
Fixpoint generate_candidates (fuel : nat) (e : Engine) (opts : Parameters)
    (loc : Locals) : option (Engine * Locals) :=
  match fuel with
  | O => None
  | S fuel' =>
      '(e, loc) ← generate_round fuel' e opts loc;
      if generate_again e opts loc then
        generate_candidates fuel' e opts loc
      else Some (e, loc)
  end.

(** Lines 398-409: the subset counters of the octrees owning [idx]. *)
Definition adjust_sizes (e : Engine) (sizes : list Z) (idx : Z) : list Z :=
  foldl
    (fun sizes j =>
       match m_direct_octrees e !! Z.to_nat j with
       | Some (Some o) =>
           if has_root o && (oct_offset o <=? idx)
              && (idx - oct_offset o <? oct_size o)
           then <[Z.to_nat j := vec_at sizes j - 1]> sizes
           else sizes
       | _ => sizes
       end)
    sizes (seqZ 0 (m_num_subsets e)).

(** Lines 389-414: the points of the committed candidate are given its
    index in [m_extractedShapes]; [id] is [m_extractedShapes.size() - 1]. *)
Fixpoint mark_assigned (pts : list Z) (id : Z) (e : Engine) (numInv : Z)
  : Engine * Z :=
  match pts with
  | [] => (e, numInv)
  | idx :: rest =>
      let e := set_shapeIndex e (<[Z.to_nat idx := id]> (m_shapeIndex e)) in
      let e :=
        set_availableOctreeSizes e
          (adjust_sizes e (m_availableOctreeSizes e) idx) in
      mark_assigned rest id e (numInv + 1)
  end.

(** Lines 423-427: the running sums of the subset counters. *)
Fixpoint running_sums (acc : Z) (sizes : list Z) : list Z :=
  match sizes with
  | [] => []
  | x :: rest => (acc + x) :: running_sums (acc + x) rest
  end.

Definition subsetSizes (e : Engine) : list Z :=
  running_sums 0 (take (Z.to_nat (m_num_subsets e))
                       (m_availableOctreeSizes e)).

(** The body of the loop of lines 432-442 on one entry of the pool. *)
Definition update_candidate (e : Engine) (opts : Parameters) (avail : Z)
    (c : option Shape) : option Shape :=
  match c with
  | None => None
  | Some c =>
      let c := update_points c (m_shapeIndex e) in
      if score c <? min_points opts then None
      else Some (compute_bound c
                   (vec_at (subsetSizes e) (m_nb_subset_used c - 1)) avail)
  end.

(** Lines 432-442: every entry but the last. *)
Definition update_pool (e : Engine) (opts : Parameters) (avail : Z)
    (cands : list (option Shape)) : list (option Shape) :=
  let n := Nat.pred (length cands) in
  map (update_candidate e opts avail) (take n cands) ++ drop n cands.

Definition is_null (cands : list (option Shape)) (i : Z) : bool :=
  match cands !! Z.to_nat i with
  | Some (Some _) => false
  | _ => true
  end.

(** [while (candidates[start] && start < end) start++] *)
Fixpoint skip_filled (n : nat) (cands : list (option Shape))
    (start end_ : Z) : Z :=
  match n with
  | O => start
  | S n' =>
      if negb (is_null cands start) && (start <? end_)
      then skip_filled n' cands (start + 1) end_
      else start
  end.

(** [while (!candidates[end] && start < end) end--] *)
Fixpoint skip_null (n : nat) (cands : list (option Shape))
    (start end_ : Z) : Z :=
  match n with
  | O => end_
  | S n' =>
      if is_null cands end_ && (start <? end_)
      then skip_null n' cands start (end_ - 1)
      else end_
  end.

(** Lines 444-454; returns the vector and the final [end]. *)
Fixpoint compact (n : nat) (cands : list (option Shape)) (start end_ : Z)
  : list (option Shape) * Z :=
  match n with
  | O => (cands, end_)
  | S n' =>
      if start <? end_ then
        let start := skip_filled (Z.to_nat (end_ - start)) cands start end_ in
        let end_ := skip_null (Z.to_nat (end_ - start)) cands start end_ in
        if is_null cands start && negb (is_null cands end_)
           && (start <? end_) then
          let cands :=
            <[Z.to_nat start := default None (cands !! Z.to_nat end_)]>
              cands in
          let cands := <[Z.to_nat end_ := None]> cands in
          compact n' cands (start + 1) (end_ - 1)
        else compact n' cands start end_
      else (cands, end_)
  end.

(** Lines 444-456: [candidates.resize(end)] after the compaction. *)
Definition compact_pool (cands : list (option Shape)) : list (option Shape) :=
  let '(cands, end_) :=
    compact (length cands) cands 0 (Z.of_nat (length cands) - 1) in
  take (Z.to_nat end_) cands.

(** The entries of the pool, as candidates again. *)
Definition pool_entries (cands : list (option Shape)) : list Shape :=
  omap id cands.

Definition set_candidates (loc : Locals) (l : list Shape) : Locals :=
  mkLocals l (bestExp loc) (numInvalid loc) (nbNewCandidates loc)
    (nbFailedCandidates loc) (forceExit loc).

Definition set_bestExp (loc : Locals) (v : Q) : Locals :=
  mkLocals (candidates loc) v (numInvalid loc) (nbNewCandidates loc)
    (nbFailedCandidates loc) (forceExit loc).

(** Lines 380-420: the best candidate becomes an extracted shape.  Returns
    the engine, the locals and the pool with the null entry left behind. *)
Definition commit (e : Engine) (loc : Locals) (best : Shape)
    (cands : list (option Shape))
  : Engine * Locals * list (option Shape) :=
  let cands := <[Nat.pred (length cands) := None]> cands in
  let e := set_extractedShapes e (m_extractedShapes e ++ [best]) in
  let id := Z.of_nat (length (m_extractedShapes e)) - 1 in
  let '(e, numInv) :=
    mark_assigned (assigned_points best) id e (numInvalid loc) in
  (e,
   mkLocals (candidates loc) 0 numInv (nbNewCandidates loc - 1) 0
     (forceExit loc),
   cands).

(** Lines 376-457, on the rescored and filtered best candidate, which is
    the last entry of the pool. *)
Definition decide_commit (e : Engine) (opts : Parameters) (loc : Locals)
    (best : Shape) : Engine * Locals :=
  if FT_leb (overlook e loc (expected_value best))
       (FT_of_Q (probability opts)) then
    let cands := Some <$> candidates loc in
    let '(e, loc, cands) :=
      if min_points opts <=? Z.of_nat (length (assigned_points best))
      then commit e loc best cands
      else (e, loc, cands) in
    let cands := update_pool e opts (available e loc) cands in
    (e, set_candidates loc (pool_entries (compact_pool cands)))
  else (e, loc).

(** Lines 371-373: the final verification of the best candidate. *)
Definition verify_best (e : Engine) (opts : Parameters) (best : Shape)
  : Shape :=
  let best := set_indices best [] in
  let '(best, sc) :=
    global_score (m_input e) best (m_shapeIndex e)
      (3 * epsilon opts) (normal_threshold opts) in
  let best := set_score best sc in
  connected_component best (cluster_epsilon opts) (m_input e).

(** One iteration of the main loop, lines 294-457.  The flag tells whether
    the loop was left by [break]. *)
Definition iteration (fuel : nat) (e : Engine) (opts : Parameters)
    (loc : Locals) : option (bool * Engine * Locals) :=
  let loc := set_bestExp loc 0 in
  '(e, loc) ← generate_candidates fuel e opts loc;
  if forceExit loc then Some (true, e, loc)
  else if bool_decide (candidates loc = []) then Some (false, e, loc)
  else
    cands ← getBestCandidate fuel e opts (candidates loc) (available e loc);
    best ← last cands;
    let best := verify_best e opts best in
    let loc :=
      set_candidates loc (<[Nat.pred (length cands) := best]> cands) in
    let '(e, loc) := decide_commit e opts loc best in
    Some (false, e, loc).

(** The condition of the main loop, lines 460-461. *)
Definition detect_again (e : Engine) (opts : Parameters) (loc : Locals)
  : bool :=
  FT_ltb (FT_of_Q (probability opts))
    (overlook e loc (inject_Z (min_points opts)))
  && Qle_bool (inject_Z (min_points opts)) (inject_Z (available e loc)).

(** [do { ... } while (...)] of lines 293-461. *)
Fixpoint main_loop (fuel : nat) (e : Engine) (opts : Parameters)
    (loc : Locals) : option (Engine * Locals) :=
  match fuel with
  | O => None
  | S fuel' =>
      '(brk, e, loc) ← iteration fuel' e opts loc;
      if brk : bool then Some (e, loc)
      else if detect_again e opts loc then main_loop fuel' e opts loc
      else Some (e, loc)
  end.

Definition detect (fuel : nat) (e : Engine) (options : Parameters)
  : option Engine :=
  if Z.of_nat (length (m_shapeFactories e)) =? 0 then Some e
  else
    let e := set_options e options in
    let e :=
      set_shapeIndex e
        (resize (Z.to_nat (m_numAvailablePoints e)) (-1) (m_shapeIndex e)) in
    '(e, loc) ← main_loop fuel e options (mkLocals [] 0 0 0 0 false);
    Some (set_numAvailablePoints e (m_numAvailablePoints e - numInvalid loc)).

End Driver.

(** ** Notions used to state the properties *)

(** The slice of the point array a direct octree was built on. *)
Definition subset_points {A} (pts : list A) (o : Direct_octree) : list A :=
  take (Z.to_nat (oct_size o)) (drop (Z.to_nat (oct_begin o)) pts).

(** The octrees own consecutive slices that lead from [lo] up to [hi], each
    with the position of its first point as offset. *)
Fixpoint tiling (lo : Z) (os : list Direct_octree) (hi : Z) : Prop :=
  match os with
  | [] => lo = hi
  | o :: rest =>
      oct_begin o = lo /\ oct_offset o = lo /\ lo <= oct_end o
      /\ tiling (oct_end o) rest hi
  end.

(** Two values of [FT] are the same value, whichever fraction stands for a
    finite one. *)
Definition FT_eq (x y : FT) : Prop :=
  match x, y with
  | FT_nan, FT_nan => True
  | FT_inf s, FT_inf t | FT_zero s, FT_zero t => s = t
  | FT_fin a, FT_fin b => (a == b)%Q
  | _, _ => False
  end.

Definition FT_lt (x y : FT) : Prop := FT_ltb x y = true.
Definition FT_le (x y : FT) : Prop := FT_leb x y = true.


Section Notions.

Context {Input Factory Fit Indexed_octree : Type}.
Context `{collab : !@Collaborators Input Factory Fit Indexed_octree}.

(** The members of the engine other than the generator and the global
    octree, which are the only ones that candidate generation writes. *)
Definition members (e : @Engine Input Factory Fit Indexed_octree) :=
  (m_options e, m_direct_octrees e, m_availableOctreeSizes e, m_num_subsets e,
   m_shapeIndex e, m_numAvailablePoints e, m_extractedShapes e,
   m_shapeFactories e, m_input e).

(** The members of the engine that committing a shape does not write. *)
Definition fixed_members (e : @Engine Input Factory Fit Indexed_octree) :=
  (m_options e, m_rng e, m_direct_octrees e, m_global_octree e,
   m_num_subsets e, m_numAvailablePoints e, m_shapeFactories e, m_input e).

(** Every point claimed by an extracted shape is assigned to that shape, at
    the shape's position in the list, and lies within the tolerances of the
    final verification. *)
Definition claims_ok (opts : Parameters)
    (e : @Engine Input Factory Fit Indexed_octree) : Prop :=
  forall (k : nat) S i,
    m_extractedShapes e !! k = Some S -> i ∈ assigned_points S ->
    0 <= i
    /\ m_shapeIndex e !! Z.to_nat i = Some (Z.of_nat k)
    /\ exists p, m_input e !! Z.to_nat i = Some p
         /\ (Qabs (signed_distance (m_fit S) p) <= 3 * epsilon opts)%Q
         /\ (normal_deviation (m_fit S) p <= normal_threshold opts)%Q.


(** The number of positions of an assignment map that hold -1. *)
Definition unassigned_count (shapeIndex : list Z) : Z :=
  Z.of_nat (length (filter (fun x => vec_at shapeIndex x = -1)
                      (seqZ 0 (Z.of_nat (length shapeIndex))))).

(** The states of the main loop of [detect]: [run opts s s'] when [s'] is
    reached from [s] by iterations of the loop. *)
Inductive run (opts : Parameters)
  : @Engine Input Factory Fit Indexed_octree * @Locals Fit ->
    @Engine Input Factory Fit Indexed_octree * @Locals Fit -> Prop :=
| run_refl s : run opts s s
| run_step s fuel brk e' loc' s'' :
    iteration fuel s.1 opts s.2 = Some (brk, e', loc') ->
    run opts (e', loc') s'' ->
    run opts s s''.

(** The state in which [detect] enters its main loop (lines 271-290). *)
Definition detect_entry (e : @Engine Input Factory Fit Indexed_octree)
    (options : Parameters)
  : @Engine Input Factory Fit Indexed_octree * @Locals Fit :=
  (set_shapeIndex (set_options e options)
     (resize (Z.to_nat (m_numAvailablePoints e)) (-1) (m_shapeIndex e)),
   mkLocals [] 0 0 0 0 false).

End Notions.

(** ** Notions used to state further properties *)

(** The number of positions of [lo, lo + len) at which an assignment map
    holds -1. *)
Definition free_in (si : list Z) (lo len : Z) : Z :=
  Z.of_nat (length (filter (fun x => vec_at si x = -1) (seqZ lo len))).

Section Measures.

Context {Input Factory Fit Indexed_octree : Type}.

Implicit Types (e : @Engine Input Factory Fit Indexed_octree).
Implicit Types (loc : @Locals Fit).

(** The members that neither sampling nor committing writes. *)
Definition frame e :=
  (m_options e, m_direct_octrees e, m_num_subsets e, m_numAvailablePoints e,
   m_shapeFactories e, m_input e).

(** The total number of points that shapes claim. *)
Definition claimed (l : list (@Shape Fit)) : Z :=
  Z.of_nat (length (concat (assigned_points <$> l))).

(** The values of an assignment map are -1 or positions of extracted
    shapes. *)
Definition map_in_range e : Prop :=
  Forall (fun v => v = -1 \/ 0 <= v < Z.of_nat (length (m_extractedShapes e)))
    (m_shapeIndex e).

(** Every position of the assignment map that holds a shape index is
    claimed by the shape at that index. *)
Definition covered e : Prop :=
  forall (j : nat) v, m_shapeIndex e !! j = Some v -> v <> -1 ->
    0 <= v
    /\ exists S, m_extractedShapes e !! Z.to_nat v = Some S
         /\ Z.of_nat j ∈ assigned_points S.

(** Every counter is the number of unassigned points of its subset. *)
Definition counters_ok e (os : list Direct_octree) : Prop :=
  forall (j : nat) o, os !! j = Some o ->
    m_availableOctreeSizes e !! j
    = Some (free_in (m_shapeIndex e) (oct_offset o) (oct_size o)).

(** The octrees tile the points, the assignment map has an entry for each
    point, and the counters count the unassigned points of the subsets. *)
Definition subsets_ok e (os : list Direct_octree) : Prop :=
  m_direct_octrees e = Some <$> os
  /\ m_num_subsets e = Z.of_nat (length os)
  /\ tiling 0 os (m_numAvailablePoints e)
  /\ Z.of_nat (length (m_shapeIndex e)) = m_numAvailablePoints e
  /\ counters_ok e os.

(** Between the two cursors of the compaction: the entries before [start]
    are filled, the entries after [end] are null. *)
Definition compact_inv (cands : list (option (@Shape Fit)))
    (start end_ : Z) : Prop :=
  0 <= start <= end_ + 1 /\ end_ < Z.of_nat (length cands)
  /\ (forall i, 0 <= i < start -> is_null cands i = false)
  /\ (forall i, end_ < i < Z.of_nat (length cands) -> is_null cands i = true).

(** The subsets that a candidate has not used yet. *)
Definition slack (K : Z) (c : @Shape Fit) : nat :=
  Z.to_nat (K - m_nb_subset_used c).

(** Their total over a vector of candidates. *)
Definition total_slack (K : Z) (l : list (@Shape Fit)) : nat :=
  sum_list (slack K <$> l).

(** A candidate of the pool has used at least one subset and no more than
    there are. *)
Definition used_in_range (K : Z) (c : @Shape Fit) : Prop :=
  1 <= m_nb_subset_used c <= K.

(** The locals of [detect] between two iterations of the main loop. *)
Definition locals_ok e loc : Prop :=
  0 < m_num_subsets e
  /\ Z.of_nat (length (m_availableOctreeSizes e)) = m_num_subsets e
  /\ 0 <= nbNewCandidates loc
  /\ Forall (used_in_range (m_num_subsets e)) (candidates loc).

End Measures.

(** ** A small instance

    Points on a line, given by a rational coordinate; a fitted shape is a
    height, and a point matches it when it lies within the tolerance.  The
    kind [Level] fits the height of the first sampled point, the kind [Never]
    fits nothing.  The octree has one level below the root and always hands
    out the seed point as its sample; the bound engine scales the matched
    count to the available points; the sort is a stable insertion sort. *)

Module Toy.

Inductive Kind := Level | Never.

Definition toy_compute (k : Kind) (indices : list Z) (pts : list Q)
    (eps tau : Q) : option Q :=
  match k, indices with
  | Level, i :: _ => pts !! Z.to_nat i
  | _, _ => None
  end.

Definition toy_bound (matched S P : Z) : Q * Q * Q :=
  let v := (inject_Z matched * inject_Z P / inject_Z S)%Q in (v, v, v).

Definition toy_draw (t : unit) (pts : list Q) (firstSample level : Z)
    (indices shapeIndex : list Z) (required : Z) : bool * list Z * unit :=
  (true, [firstSample], tt).

(** The sort of the instance: a stable insertion sort. *)
Fixpoint insert_by_max_bound (c : @Shape Q) (l : list (@Shape Q))
  : list (@Shape Q) :=
  match l with
  | [] => [c]
  | d :: l' =>
      if Qle_bool (max_bound c) (max_bound d) then c :: l
      else d :: insert_by_max_bound c l'
  end.

Definition insertion_sort (l : list (@Shape Q)) : list (@Shape Q) :=
  foldr insert_by_max_bound [] l.

Lemma insert_by_max_bound_perm c l : insert_by_max_bound c l ≡ₚ c :: l.
Proof.
  induction l as [|d l IH]; simpl; [done|].
  destruct (Qle_bool _ _); [done|]. rewrite IH. apply perm_swap.
Qed.

Lemma insertion_sort_perm l : insertion_sort l ≡ₚ l.
Proof.
  unfold insertion_sort. induction l as [|c l IH]; simpl; [done|].
  rewrite insert_by_max_bound_perm. by rewrite IH.
Qed.

Lemma insert_by_max_bound_sorted c l :
  Sorted (fun a b : @Shape Q => (max_bound a <= max_bound b)%Q) l ->
  Sorted (fun a b : @Shape Q => (max_bound a <= max_bound b)%Q)
    (insert_by_max_bound c l).
Proof.
  induction l as [|d l IH]; intros Hs; simpl.
  - by repeat constructor.
  - destruct (Qle_bool (max_bound c) (max_bound d)) eqn:Hq.
    + constructor; [done|]. constructor. by apply Qle_bool_iff.
    + assert (Hdc : (max_bound d <= max_bound c)%Q).
      { apply Qlt_le_weak, Qnot_le_lt. intros H.
        apply Qle_bool_iff in H. congruence. }
      inversion Hs as [|? ? Hs' Hhd]; subst.
      constructor; [by apply IH|].
      destruct l as [|d' l']; simpl; [by constructor|].
      destruct (Qle_bool (max_bound c) (max_bound d')); constructor; [done|].
      by inversion Hhd.
Qed.

Lemma insertion_sort_sorted l :
  Sorted (fun a b : @Shape Q => (max_bound a <= max_bound b)%Q)
    (insertion_sort l).
Proof.
  unfold insertion_sort. induction l as [|c l IH]; simpl; [constructor|].
  by apply insert_by_max_bound_sorted.
Qed.

#[global] Instance collaborators : @Collaborators Q Kind Q unit := {
  compute := toy_compute;
  signed_distance := fun h p => (p - h)%Q;
  normal_deviation := fun _ _ => 0%Q;
  bound_engine := toy_bound;
  largest_component := fun _ _ _ l => l;
  createTree := fun _ => tt;
  maxLevel := fun _ => 1;
  drawSamplesFromCellContainingPoint := toy_draw;
  has_root := fun _ => true;
  sort_by_max_bound := insertion_sort;
  sort_by_max_bound_perm := insertion_sort_perm;
  sort_by_max_bound_sorted := insertion_sort_sorted
}.

(** A generator that returns 0, 1, 2, ... *)
Definition counting_rng : mt19937 := Mt19937 Z.of_nat 0.

(** Four points at height 0 and three at height 5. *)
Definition cloud : list Q := [0; 0; 5; 0; 5; 0; 5]%Q.

Definition options : Parameters := mkParameters (2 # 3) 2 (1 # 10) 1 1.

Definition engine (kinds : list Kind) (g : mt19937) : Engine :=
  foldl add_shape_factory (Shape_detection_3 cloud g) kinds.

(** A run that finds both levels. *)
Definition detected (g : mt19937) : Engine :=
  default (engine [Level] g) (detect 20 (engine [Level] g) options).

(** A run that cannot find anything: a hundred factories that never fit,
    and a probability small enough for a hundred rounds of generation. *)
Definition strict_options : Parameters :=
  mkParameters (1 # 100000) 2 (1 # 10) 1 1.

Definition stalled_entry : Engine * Locals :=
  detect_entry (engine (replicate 100 Never) counting_rng) strict_options.

Definition stalled : Engine * Locals :=
  default stalled_entry
    (main_loop 200 stalled_entry.1 strict_options stalled_entry.2).

(** The engine as [detect] enters its main loop, and a candidate fitted at a
    height and scored on the subsets. *)
Definition entry : Engine * Locals :=
  detect_entry (engine [Level] counting_rng) options.

Definition candidate (h : Q) : Shape :=
  (improveBound entry.1 options (new_shape h) 7 1 500).2.

(** The first iteration of the run that finds both levels: the state after
    candidate generation, the pool after selection and the candidate
    selected. *)
Definition generated : Engine * Locals :=
  default entry (generate_candidates 20 entry.1 options (set_bestExp entry.2 0)).



(** One point at height 5 and four at height 0: a run that leaves one point
    unassigned, at a position behind assigned ones. *)
Definition lopsided : list Q := [5; 0; 0; 0; 0]%Q.

Definition lopsided_engine : Engine :=
  foldl add_shape_factory (Shape_detection_3 lopsided counting_rng)
    [Level].

Definition once : Engine :=
  default lopsided_engine (detect 40 lopsided_engine options).

(** A generator that returns 0, 3, 6, ..., and the state after the first
    iteration of the main loop with it: one level is extracted, a candidate
    for the other one is in the pool. *)
Definition tripling_rng : mt19937 := Mt19937 (fun n => Z.of_nat n * 3) 0.

Definition tripling_entry : Engine * Locals :=
  detect_entry (engine [Level] tripling_rng) options.

Definition after_first : Engine * Locals :=
  match iteration 20 tripling_entry.1 options tripling_entry.2 with
  | Some (_, e, loc) => (e, loc)
  | None => tripling_entry
  end.

(** The first sample of that run. *)
Definition first : Z * Engine :=
  default (0, entry.1) (draw_first_sample 5 entry.1).


(** The same run for shapes of any size: [min_points = 0]. *)
Definition any_size_options : Parameters :=
  mkParameters (2 # 3) 0 (1 # 10) 1 1.

Definition any_size_entry : Engine * Locals :=
  detect_entry (engine [Level] counting_rng) any_size_options.

Definition any_size_finished : Engine * Locals :=
  default any_size_entry
    (main_loop 40 any_size_entry.1 any_size_options any_size_entry.2).







End Toy.

(** * Properties *)

(** ** The subset ladder *)

Lemma pick_indices_length R n i g :
  length (pick_indices R n i g).1 = n.
Proof.
  revert i g. induction n as [|n IH]; intros i g; simpl; [done|].
  specialize (IH (i + 1) (Mt19937 (rng_draws g) (S (rng_pos g)))).
  destruct (pick_indices R n (i + 1) _) as [rest g2]. simpl in *. lia.
Qed.

(** Every picked position is one of [2i], [2i+1] below [remainingPoints]. *)
Lemma pick_indices_range R n i g :
  0 <= i -> 2 * (i + Z.of_nat n) <= R ->
  Forall (fun x => 0 <= x < R) (pick_indices R n i g).1.
Proof.
  revert i g. induction n as [|n IH]; intros i g Hi HR; simpl; [constructor|].
  specialize (IH (i + 1) (Mt19937 (rng_draws g) (S (rng_pos g)))).
  destruct (pick_indices R n (i + 1) _) as [rest g2]. simpl in *.
  constructor; [|apply IH; lia].
  rewrite Z.shiftl_mul_pow2 by lia. change (2 ^ 1) with 2.
  pose proof (Z.mod_pos_bound (rng_draws g (rng_pos g)) 2 ltac:(lia)).
  destruct (Z.leb_spec R (rng_draws g (rng_pos g) `mod` 2 + i * 2)); lia.
Qed.

Lemma swap_with_last_length {A} (pts : list A) i j :
  length (swap_with_last pts i j) = length pts.
Proof.
  unfold swap_with_last.
  destruct (pts !! j), (pts !! i); rewrite ?length_insert; done.
Qed.

Lemma swap_with_last_perm {A} (pts : list A) i j :
  swap_with_last pts i j ≡ₚ pts.
Proof.
  unfold swap_with_last.
  destruct (pts !! j) as [tmp|] eqn:Hj; [|done].
  destruct (pts !! i) as [x|] eqn:Hi; [|done].
  by apply Permutation_insert_swap.
Qed.

Lemma move_to_end_spec {A} (pts : list A) idxs last :
  let r := move_to_end pts idxs last in
  r.1 ≡ₚ pts /\ length r.1 = length pts
  /\ r.2 = last - Z.of_nat (length idxs).
Proof.
  revert pts last. induction idxs as [|idx rest IH]; intros pts last; simpl.
  - repeat split; [done | lia].
  - destruct (IH (swap_with_last pts (Z.to_nat idx) (Z.to_nat last))
                (last - 1)) as (Hp & Hl & Hlast).
    repeat split.
    + rewrite Hp. apply swap_with_last_perm.
    + rewrite Hl. apply swap_with_last_length.
    + rewrite Hlast. lia.
Qed.

Lemma drop_insert_here {A} (l : list A) s x :
  (s < length l)%nat -> drop s (<[s := x]> l) = x :: drop (S s) l.
Proof.
  intros Hs. rewrite drop_insert_ge by lia. rewrite Nat.sub_diag.
  destruct (lookup_lt_is_Some_2 l s Hs) as [y Hy].
  by rewrite (drop_S l y s Hy).
Qed.

Lemma tiling_bounds lo os hi : tiling lo os hi -> lo <= hi.
Proof.
  revert lo. induction os as [|o os IH]; intros lo; simpl; [lia|].
  intros (_ & _ & Hle & Ht). specialize (IH _ Ht). lia.
Qed.

(** Slices that tile [lo, hi) make up, in order, the array from [lo] on. *)
Lemma tiling_concat {A} (pts : list A) lo os :
  0 <= lo -> tiling lo os (Z.of_nat (length pts)) ->
  concat (subset_points pts <$> os) = drop (Z.to_nat lo) pts.
Proof.
  revert lo. induction os as [|o os IH]; intros lo Hlo; cbn [tiling].
  - intros ->. rewrite Nat2Z.id. by rewrite drop_all.
  - intros (Hb & _ & Hle & Ht).
    pose proof (tiling_bounds _ _ _ Ht) as Hhi.
    rewrite fmap_cons. cbn [concat].
    rewrite (IH (oct_end o)) by (done || lia).
    unfold subset_points, oct_size. rewrite Hb.
    replace (Z.to_nat (oct_end o))
      with (Z.to_nat lo + Z.to_nat (oct_end o - lo))%nat by lia.
    rewrite <- drop_drop. apply take_drop.
Qed.

(** What one round of the subset generation does for a subset [s > 0]. *)
Lemma subset_step_pick {A} s (st : Ladder A) :
  s <> 0 -> 0 <= l_remainingPoints st ->
  let R := l_remainingPoints st in
  let size := R `div` 2 in
  let st' := subset_step s st in
  l_points st' ≡ₚ l_points st
  /\ length (l_points st') = length (l_points st)
  /\ l_last st' = l_last st - size
  /\ l_remainingPoints st' = R - size
  /\ l_octrees st' =
       <[Z.to_nat s :=
           Some (mkDirect (l_last st - size + 1) (l_last st + 1) (R - size))]>
         (l_octrees st)
  /\ l_sizes st' = <[Z.to_nat s := size]> (l_sizes st).
Proof.
  intros Hs HR R size. unfold subset_step. fold R.
  destruct (Z.eqb_spec s 0) as [|_]; [done|]. cbn [negb].
  rewrite Z.shiftr_div_pow2 by lia. change (2 ^ 1) with 2. fold size.
  pose proof (pick_indices_length R (Z.to_nat size) 0 (l_rng st)) as Hlen.
  destruct (pick_indices R (Z.to_nat size) 0 (l_rng st)) as [indices g].
  simpl in Hlen.
  destruct (move_to_end_spec (l_points st) (rev indices) (l_last st))
    as (Hp & Hl & Hlast).
  destruct (move_to_end (l_points st) (rev indices) (l_last st))
    as [pts last].
  simpl in *. rewrite length_rev, Hlen in Hlast.
  assert (0 <= size) by (apply Z.div_pos; lia).
  rewrite Z2Nat.id in Hlast by done. subst last.
  repeat split; try done.
  do 3 f_equal; lia.
Qed.

(** The loop of the constructor builds, from the top subset down to subset 0,
    octrees whose slices tile the whole array, and permutes the points. *)
Lemma subset_loop_tiling {A} n : forall (st : Ladder A) N Kn os,
  0 <= l_remainingPoints st ->
  N = Z.of_nat (length (l_points st)) ->
  l_last st = l_remainingPoints st - 1 ->
  length (l_octrees st) = Kn -> length (l_sizes st) = Kn ->
  (0 < n <= Kn)%nat ->
  drop n (l_octrees st) = Some <$> os ->
  drop n (l_sizes st) = oct_size <$> os ->
  tiling (l_remainingPoints st) os N ->
  exists os',
    l_octrees (subset_loop n st) = Some <$> os'
    /\ l_sizes (subset_loop n st) = oct_size <$> os'
    /\ length os' = Kn
    /\ tiling 0 os' N
    /\ l_points (subset_loop n st) ≡ₚ l_points st.
Proof.
  induction n as [|s IH]; intros st N Kn os HR HN Hlast Hlo Hls Hn Ho Hs Ht;
    [lia|].
  cbn [subset_loop].
  destruct (decide (s = 0%nat)) as [->|Hs0].
  - (* subset 0 takes what remains *)
    cbn [subset_loop]. unfold subset_step. simpl.
    exists (mkDirect 0 (l_remainingPoints st) 0 :: os).
    destruct (l_octrees st) as [|o0 octs]; [simpl in *; lia|].
    destruct (l_sizes st) as [|z0 szs]; [simpl in *; lia|].
    change (octs = Some <$> os) in Ho. change (szs = oct_size <$> os) in Hs.
    subst octs szs.
    cbn [length] in Hlo. rewrite length_fmap in Hlo.
    repeat split; try done.
    rewrite fmap_cons. simpl. f_equal. unfold oct_size. simpl. lia.
  - destruct (subset_step_pick (Z.of_nat s) st ltac:(lia) HR)
      as (Hp & Hl & Hla & Hrem & Hoc & Hsz).
    set (st' := subset_step (Z.of_nat s) st) in *.
    set (size := l_remainingPoints st `div` 2) in *.
    assert (0 <= size <= l_remainingPoints st).
    { subst size. split; [apply Z.div_pos; lia|].
      apply Z.div_le_upper_bound; lia. }
    set (o := mkDirect (l_last st - size + 1) (l_last st + 1)
                (l_remainingPoints st - size)) in *.
    destruct (IH st' N Kn (o :: os)) as (os' & H1 & H2 & H3 & H4 & H5).
    + lia.
    + lia.
    + lia.
    + rewrite Hoc, length_insert. done.
    + rewrite Hsz, length_insert. done.
    + lia.
    + rewrite Hoc, Nat2Z.id, drop_insert_here by lia. by rewrite Ho.
    + rewrite Hsz, Nat2Z.id, drop_insert_here by lia. rewrite Hs.
      rewrite fmap_cons. f_equal. unfold oct_size, o. simpl. lia.
    + rewrite Hrem. cbn [tiling]. unfold o. simpl.
      repeat split; try lia.
      replace (l_last st + 1) with (l_remainingPoints st) by lia. done.
    + exists os'. repeat split; try done. by rewrite H5.
Qed.

(** The size a round records and the points it leaves. *)
Lemma subset_step_sizes {A} s (st : Ladder A) :
  0 <= l_remainingPoints st ->
  let R := l_remainingPoints st in
  let size := if s =? 0 then R else R `div` 2 in
  l_sizes (subset_step s st) = <[Z.to_nat s := size]> (l_sizes st)
  /\ l_remainingPoints (subset_step s st) = R - size.
Proof.
  intros HR R size. subst size.
  destruct (Z.eqb_spec s 0) as [->|Hs].
  - unfold subset_step. simpl. done.
  - destruct (subset_step_pick s st Hs HR) as (_ & _ & _ & H1 & _ & H2).
    done.
Qed.

(** Halving keeps the remaining points within one of [N / 2^j]. *)
Lemma halving_remaining N p R :
  0 < p -> 0 <= R -> N <= p * R < N + p ->
  N <= (2 * p) * (R - R `div` 2) < N + 2 * p.
Proof.
  intros Hp HR HN.
  pose proof (Z.div_mod R 2 ltac:(lia)).
  pose proof (Z.mod_pos_bound R 2 ltac:(lia)).
  nia.
Qed.

Lemma halving_size N p R :
  0 < p -> 0 <= R -> N <= p * R < N + p ->
  N - 2 * p < (2 * p) * (R `div` 2) < N + 2 * p.
Proof.
  intros Hp HR HN.
  pose proof (Z.div_mod R 2 ltac:(lia)).
  pose proof (Z.mod_pos_bound R 2 ltac:(lia)).
  nia.
Qed.

(** The sizes the constructor records: subset [s >= 1] is within one point of
    [N / 2^(K-s)] and the sizes do not decrease from subset 1 upwards;
    subset 0 receives the remainder, within one point of [N / 2^(K-1)] and
    not less than subset 1. *)
Lemma subset_loop_sizes {A} n : forall (st : Ladder A) N (j : nat),
  let R := l_remainingPoints st in
  0 <= R -> N <= 2 ^ Z.of_nat j * R < N + 2 ^ Z.of_nat j ->
  (0 < n <= length (l_sizes st))%nat ->
  let szs := l_sizes (subset_loop n st) in
  (forall s, (n <= s)%nat -> szs !! s = l_sizes st !! s)
  /\ (forall s x, (1 <= s < n)%nat -> szs !! s = Some x ->
        N - 2 ^ Z.of_nat (j + n - s) < 2 ^ Z.of_nat (j + n - s) * x
          < N + 2 ^ Z.of_nat (j + n - s)
        /\ 0 <= x <= R `div` 2)
  /\ (forall x0, szs !! 0%nat = Some x0 ->
        N <= 2 ^ Z.of_nat (j + n - 1) * x0 < N + 2 ^ Z.of_nat (j + n - 1)
        /\ 0 <= x0 <= R
        /\ forall x1, szs !! 1%nat = Some x1 -> (1 < n)%nat -> x1 <= x0)
  /\ (forall s x y, (1 <= s)%nat -> (S s < n)%nat ->
        szs !! s = Some x -> szs !! S s = Some y -> x <= y).
Proof.
  induction n as [|n IH]; intros st N j R HR HN Hn szs; [lia|].
  subst szs. cbn [subset_loop].
  destruct (subset_step_sizes (Z.of_nat n) st HR) as [Hsz Hrem].
  fold R in Hsz, Hrem.
  set (st' := subset_step (Z.of_nat n) st) in *. clearbody st'.
  rewrite Nat2Z.id in Hsz.
  assert (Hp : 0 < 2 ^ Z.of_nat j) by (apply Z.pow_pos_nonneg; lia).
  destruct (decide (n = 0%nat)) as [->|Hn0].
  - (* the last round: subset 0 *)
    cbn [subset_loop]. simpl in Hsz, Hrem. rewrite Hsz.
    replace (j + 1 - 1)%nat with j by lia.
    split; [|split; [|split]].
    + intros s Hs. rewrite list_lookup_insert_ne by lia. done.
    + intros s x Hs. lia.
    + intros x0 Hx0. rewrite list_lookup_insert_eq in Hx0 by lia.
      injection Hx0 as <-. split; [done | split; [lia|]]. intros; lia.
    + intros s x y Hs1 Hs2. lia.
  - replace (Z.of_nat n =? 0) with false in Hsz, Hrem
      by (symmetry; apply Z.eqb_neq; lia).
    assert (Hsize : 0 <= R `div` 2 <= R).
    { split; [apply Z.div_pos; lia | apply Z.div_le_upper_bound; lia]. }
    assert (Hpow : 2 ^ Z.of_nat (S j) = 2 * 2 ^ Z.of_nat j).
    { rewrite Nat2Z.inj_succ, Z.pow_succ_r by lia. done. }
    destruct (IH st' N (S j)) as (F & B & Z0 & M).
    + lia.
    + rewrite Hrem, Hpow. apply halving_remaining; done.
    + rewrite Hsz, length_insert. lia.
    + assert (Hhere : l_sizes (subset_loop n st') !! n = Some (R `div` 2)).
      { rewrite F by lia. rewrite Hsz, list_lookup_insert_eq by lia. done. }
      assert (Hquarter : (R - R `div` 2) `div` 2 <= R `div` 2).
      { apply Z.div_le_mono; lia. }
      split; [|split; [|split]].
      * intros s Hs. rewrite F by lia.
        rewrite Hsz, list_lookup_insert_ne by lia. done.
      * intros s x Hs Hx. destruct (decide (s = n)) as [->|Hne].
        -- rewrite Hhere in Hx. injection Hx as <-.
           replace (j + S n - n)%nat with (S j) by lia. rewrite Hpow.
           split; [apply halving_size; done | lia].
        -- replace (j + S n - s)%nat with (S j + n - s)%nat by lia.
           destruct (B s x) as [Hb1 Hb2]; [lia | done |].
           rewrite Hrem in Hb2. split; [done | lia].
      * intros x0 Hx0. destruct (Z0 x0 Hx0) as (Hb1 & Hb & Hord).
        replace (j + S n - 1)%nat with (S j + n - 1)%nat by lia.
        rewrite Hrem in Hb.
        split; [done | split; [lia|]].
        intros x1 Hx1 _.
        destruct (decide (n = 1%nat)) as [->|Hn1].
        -- rewrite Hhere in Hx1. injection Hx1 as <-.
           (* subset 0 is what the last halving left *)
           cbn [subset_loop] in Hx0. change (Z.of_nat 0) with 0 in Hx0.
           destruct (subset_step_sizes 0 st') as [Hsz0 _]; [lia|].
           change (0 =? 0) with true in Hsz0. cbv iota in Hsz0.
           change (Z.to_nat 0) with 0%nat in Hsz0. rewrite Hsz0 in Hx0.
           rewrite list_lookup_insert_eq in Hx0
             by (rewrite Hsz, length_insert; lia).
           injection Hx0 as <-. rewrite Hrem.
           pose proof (Z.div_mod R 2 ltac:(lia)).
           pose proof (Z.mod_pos_bound R 2 ltac:(lia)). lia.
        -- apply Hord; [done | lia].
      * intros s x y Hs1 Hs2 Hx Hy.
        destruct (decide (S s = n)) as [<-|Hne].
        -- rewrite Hhere in Hy. injection Hy as <-.
           destruct (B s x) as [_ Hb]; [lia | done |].
           rewrite Hrem in Hb. lia.
        -- apply (M s x y); (done || lia).
Qed.

Section Properties.

Context {Input Factory Fit Indexed_octree : Type}.
Context `{collab : !@Collaborators Input Factory Fit Indexed_octree}.

Implicit Types (e : @Engine Input Factory Fit Indexed_octree).
Implicit Types (c best : @Shape Fit) (loc : @Locals Fit).
Implicit Types (opts : Parameters) (input : list Input).

(** C7 (as amended).  Construction on [N >= 1] points makes exactly
    [K = max(2, floor(log2 N) - 9)] direct octrees on consecutive, hence
    pairwise disjoint, slices of the permuted point array, which together
    are the whole array; subset [s >= 1] holds [N / 2^(K-s)] points up to
    one point and these sizes do not decrease with [s]; subset 0 holds the
    remainder, [N / 2^(K-1)] points up to one point, and is at least as large
    as subset 1. *)
Theorem subset_ladder input g :
  input <> [] ->
  let e := Shape_detection_3 input g in
  let N := Z.of_nat (length input) in
  let K := Z.max 2 (Z.log2 N - 9) in
  m_num_subsets e = K
  /\ m_input e ≡ₚ input
  /\ exists os,
       m_direct_octrees e = Some <$> os
       /\ Z.of_nat (length os) = K
       /\ m_availableOctreeSizes e = oct_size <$> os
       /\ tiling 0 os N
       /\ concat (subset_points (m_input e) <$> os) = m_input e
       /\ (forall s o, (1 <= s)%nat -> os !! s = Some o ->
             N - 2 ^ (K - Z.of_nat s) < 2 ^ (K - Z.of_nat s) * oct_size o
               < N + 2 ^ (K - Z.of_nat s))
       /\ (forall s o o', (1 <= s)%nat ->
             os !! s = Some o -> os !! S s = Some o' ->
             oct_size o <= oct_size o')
       /\ (forall o0, os !! 0%nat = Some o0 ->
             N <= 2 ^ (K - 1) * oct_size o0 < N + 2 ^ (K - 1)
             /\ forall o1, os !! 1%nat = Some o1 ->
                  oct_size o1 <= oct_size o0).
Proof.
  intros Hne e N K.
  assert (HK : num_subsets N = K) by (unfold num_subsets, K; lia).
  assert (HK2 : 2 <= K) by lia.
  assert (HN : 0 < N) by (subst N; destruct input; simpl; [done | lia]).
  set (st0 := mkLadder input (N - 1) N (replicate (Z.to_nat K) None)
                (replicate (Z.to_nat K) 0) g).
  assert (He : e = mkEngine None (l_rng (subset_loop (Z.to_nat K) st0))
                 (l_octrees (subset_loop (Z.to_nat K) st0))
                 (createTree (l_points (subset_loop (Z.to_nat K) st0)))
                 (l_sizes (subset_loop (Z.to_nat K) st0)) K [] N [] []
                 (l_points (subset_loop (Z.to_nat K) st0))).
  { unfold e, Shape_detection_3. fold N. rewrite HK. done. }
  clearbody e. subst e.
  destruct (subset_loop_tiling (Z.to_nat K) st0 N (Z.to_nat K) [])
    as (os & Ho & Hs & Hlen & Ht & Hp); simpl;
    rewrite ?length_replicate, ?drop_replicate, ?Nat.sub_diag; try (done || lia).
  destruct (subset_loop_sizes (Z.to_nat K) st0 N 0%nat)
    as (_ & B & Z0 & M); simpl;
    rewrite ?length_replicate; try lia.
  cbn [m_num_subsets m_input m_direct_octrees m_availableOctreeSizes].
  split; [done|]. split; [done|].
  exists os. rewrite Ho, Hs.
  assert (Hlook : forall s o, os !! s = Some o ->
            (oct_size <$> os) !! s = Some (oct_size o) /\ Z.of_nat s < K).
  { intros s o Hso. rewrite list_lookup_fmap, Hso. split; [done|].
    apply lookup_lt_Some in Hso. lia. }
  rewrite Hs in B, Z0, M.
  split; [done|]. split; [lia|]. split; [done|]. split; [done|].
  split.
  { rewrite (tiling_concat _ 0 os) by (rewrite ?(Permutation_length Hp); done).
    done. }
  split; [|split].
  - intros s o Hs1 Hso. destruct (Hlook s o Hso) as [Hl Hlt].
    destruct (B s (oct_size o)) as [Hb _]; [lia | done |].
    replace (Z.of_nat (0 + Z.to_nat K - s)) with (K - Z.of_nat s) in Hb by lia.
    done.
  - intros s o o' Hs1 Hso Hso'.
    destruct (Hlook s o Hso) as [Hl _].
    destruct (Hlook (S s) o' Hso') as [Hl' Hlt].
    apply (M s); (done || lia).
  - intros o0 Ho0. destruct (Hlook 0%nat o0 Ho0) as [Hl _].
    destruct (Z0 _ Hl) as (Hb & _ & Hord).
    replace (Z.of_nat (0 + Z.to_nat K - 1)) with (K - 1) in Hb by lia.
    split; [done|]. intros o1 Ho1.
    destruct (Hlook 1%nat o1 Ho1) as [Hl1 _]. apply Hord; [done | lia].
Qed.

(** ** The overlook probability *)

Lemma FT_of_Q_nonzero (q : Q) : ~ (q == 0)%Q -> FT_of_Q q = FT_fin q.
Proof.
  intros Hq. unfold FT_of_Q. destruct (Qeq_bool q 0) eqn:H; [|done].
  by apply Qeq_bool_iff in H.
Qed.

Lemma FT_of_Q_zero (q : Q) : (q == 0)%Q -> FT_of_Q q = FT_zero false.
Proof.
  intros Hq. unfold FT_of_Q. apply Qeq_bool_iff in Hq. by rewrite Hq.
Qed.

Lemma FT_Q_of_Q (q : Q) : (FT_Q (FT_of_Q q) == q)%Q.
Proof.
  unfold FT_of_Q. destruct (Qeq_bool q 0) eqn:H; simpl; [|reflexivity].
  apply Qeq_bool_iff in H. by rewrite H.
Qed.

Lemma FT_compare_of_Q (a b : Q) :
  FT_compare (FT_of_Q a) (FT_of_Q b) = Some (a ?= b)%Q.
Proof.
  assert (H : FT_compare (FT_of_Q a) (FT_of_Q b)
              = Some (FT_Q (FT_of_Q a) ?= FT_Q (FT_of_Q b))%Q).
  { unfold FT_of_Q. by destruct (Qeq_bool a 0), (Qeq_bool b 0). }
  rewrite H. f_equal. apply Qcompare_comp; apply FT_Q_of_Q.
Qed.

(** On numbers the comparisons of [FT] are those of the rationals. *)
Lemma FT_leb_of_Q (a b : Q) : FT_leb (FT_of_Q a) (FT_of_Q b) = Qle_bool a b.
Proof.
  unfold FT_leb. rewrite FT_compare_of_Q.
  destruct (Qcompare_spec a b) as [H|H|H].
  - symmetry. apply Qle_bool_iff. rewrite H. apply Qle_refl.
  - symmetry. apply Qle_bool_iff. by apply Qlt_le_weak.
  - destruct (Qle_bool a b) eqn:Hq; [|done].
    apply Qle_bool_iff in Hq. exfalso. by apply (Qlt_not_le b a).
Qed.

Lemma FT_ltb_of_Q (a b : Q) :
  FT_ltb (FT_of_Q a) (FT_of_Q b) = negb (Qle_bool b a).
Proof.
  unfold FT_ltb. rewrite FT_compare_of_Q.
  destruct (Qcompare_spec a b) as [H|H|H].
  - symmetry. apply negb_false_iff, Qle_bool_iff. rewrite H. apply Qle_refl.
  - symmetry. apply negb_true_iff.
    destruct (Qle_bool b a) eqn:Hq; [|done].
    apply Qle_bool_iff in Hq. exfalso. by apply (Qlt_not_le a b).
  - symmetry. apply negb_false_iff, Qle_bool_iff. by apply Qlt_le_weak.
Qed.

Lemma FT_eq_of_Q (a b : Q) : (a == b)%Q -> FT_eq (FT_of_Q a) (FT_of_Q b).
Proof.
  intros Hab. unfold FT_of_Q.
  destruct (Qeq_bool a 0) eqn:Ha, (Qeq_bool b 0) eqn:Hb; simpl; try done.
  - apply Qeq_bool_iff in Ha. rewrite Hab in Ha.
    apply Qeq_bool_iff in Ha. congruence.
  - apply Qeq_bool_iff in Hb. rewrite <- Hab in Hb.
    apply Qeq_bool_iff in Hb. congruence.
Qed.

Lemma Qpower_zero_pos (q : Q) (d : Z) : (q == 0)%Q -> 0 < d -> (q ^ d == 0)%Q.
Proof.
  intros Hq Hd. rewrite Hq. apply Qpower_0. lia.
Qed.

(** With a product [P L] other than zero every operation of
    [StopProbability] is on finite values: the result is the number that
    the operations give over the rationals. *)
Lemma StopProbability_finite (c P : Q) (d : Z) (L : Q) :
  ~ (P * L == 0)%Q -> 0 <= d ->
  exists q,
    StopProbability (FT_of_Q c) (FT_of_Q P) d (FT_of_Q L) = FT_of_Q q
    /\ (q == Qmin ((1 - c / (P * L * 3)) ^ d) 1)%Q.
Proof.
  intros HPL Hd.
  assert (HP : ~ (P == 0)%Q)
    by (intros H; apply HPL; rewrite H; apply Qmult_0_l).
  assert (HL : ~ (L == 0)%Q)
    by (intros H; apply HPL; rewrite H; apply Qmult_0_r).
  assert (HD : ~ (P * L * 3 == 0)%Q).
  { intros H. apply Qmult_integral in H as [H|H]; [done | discriminate]. }
  unfold StopProbability.
  rewrite (FT_of_Q_nonzero P HP), (FT_of_Q_nonzero L HL).
  cbn [FT_mul]. rewrite (FT_of_Q_nonzero _ HPL).
  cbn [FT_mul]. rewrite (FT_of_Q_nonzero _ HD).
  set (D := (P * L * 3)%Q) in *.
  (* the base of the power *)
  assert (Hbase : exists b,
            FT_sub (FT_fin 1) (FT_div (FT_of_Q c) (FT_fin D)) = FT_of_Q b
            /\ (b == 1 - c / D)%Q).
  { destruct (Qeq_dec c 0) as [Hc|Hc].
    - rewrite (FT_of_Q_zero c Hc). exists 1%Q. split; [done|].
      rewrite Hc. unfold Qdiv. rewrite Qmult_0_l. reflexivity.
    - rewrite (FT_of_Q_nonzero c Hc). cbn [FT_div].
      assert (Hq : ~ (c / D == 0)%Q).
      { intros H. unfold Qdiv in H. apply Qmult_integral in H as [H|H];
          [done|]. apply HD. rewrite <- (Qinv_involutive D), H. reflexivity. }
      rewrite (FT_of_Q_nonzero _ Hq). cbn [FT_sub].
      exists (1 - c / D)%Q. split; reflexivity. }
  destruct Hbase as (b & -> & Hb).
  (* the power *)
  assert (Hpow : exists r,
            FT_pow (FT_of_Q b) d = FT_of_Q r /\ (r == b ^ d)%Q).
  { unfold FT_pow. destruct (Z.eqb_spec d 0) as [->|Hd0].
    - exists 1%Q. split; reflexivity.
    - destruct (Z.ltb_spec d 0) as [|_]; [lia|].
      destruct (Qeq_dec b 0) as [Hb0|Hb0].
      + rewrite (FT_of_Q_zero b Hb0). exists 0%Q. split; [done|].
        symmetry. apply Qpower_zero_pos; [done | lia].
      + rewrite (FT_of_Q_nonzero b Hb0). exists (b ^ d)%Q.
        split; [|reflexivity]. symmetry. apply FT_of_Q_nonzero.
        by apply Qpower_not_0. }
  destruct Hpow as (r & -> & Hr).
  unfold std_min. change (FT_fin 1) with (FT_of_Q 1).
  rewrite FT_ltb_of_Q.
  assert (Hrb : (r == (1 - c / D) ^ d)%Q) by (by rewrite Hr, Hb).
  destruct (Qle_bool r 1) eqn:Hle; simpl.
  - apply Qle_bool_iff in Hle. exists r. split; [done|].
    rewrite <- Hrb. symmetry. by apply Q.min_l.
  - exists 1%Q. split; [done|]. rewrite <- Hrb. symmetry. apply Q.min_r.
    apply Qlt_le_weak, Qnot_le_lt. intros H. apply Qle_bool_iff in H.
    congruence.
Qed.




(** ** Detection without shape kinds *)

(** C8.  With no registered factory [detect] returns at once, whatever the
    fuel, and gives back the engine as it was: no shape is extracted and no
    member is modified. *)
Theorem detect_without_kinds fuel e opts :
  m_shapeFactories e = [] ->
  detect fuel e opts = Some e
  /\ detect 0 e opts = Some e.
Proof.
  intros Hf. unfold detect. rewrite Hf. simpl. done.
Qed.

(** ** The view of unassigned points before detection *)

Lemma add_shape_factories_members e kinds :
  let e' := foldl add_shape_factory e kinds in
  m_shapeIndex e' = m_shapeIndex e
  /\ m_numAvailablePoints e' = m_numAvailablePoints e
  /\ m_extractedShapes e' = m_extractedShapes e
  /\ m_input e' = m_input e.
Proof.
  revert e. induction kinds as [|k kinds IH]; intros e; simpl; [done|].
  destruct (IH (add_shape_factory e k)) as (-> & -> & -> & ->). done.
Qed.

(** C10.  On an engine constructed on [N > 0] points, with any factories
    registered, and before [detect]: [unassigned_points_begin()] equals
    [unassigned_points_end()], so the view is empty, while
    [number_of_unassigned_points()] is [N]; the two do not agree. *)
Theorem unassigned_view_before_detect input g (kinds : list Factory) :
  input <> [] ->
  let e := foldl add_shape_factory (Shape_detection_3 input g) kinds in
  unassigned_points_begin e = unassigned_points_end e
  /\ unassigned_points e = []
  /\ number_of_unassigned_points e = Z.of_nat (length input)
  /\ number_of_unassigned_points e <> Z.of_nat (length (unassigned_points e)).
Proof.
  intros Hne e.
  destruct (add_shape_factories_members (Shape_detection_3 input g) kinds)
    as (Hsi & Hnum & _ & _).
  fold e in Hsi, Hnum. simpl in Hsi, Hnum.
  unfold unassigned_points, unassigned_points_begin, unassigned_points_end,
    number_of_unassigned_points.
  rewrite Hsi, Hnum. simpl.
  repeat split; try done.
  destruct input; [done | simpl; lia].
Qed.

(** ** Candidate generation leaves the results alone *)

Lemma draw_first_sample_members fuel e firstSample e' :
  draw_first_sample fuel e = Some (firstSample, e') -> members e' = members e.
Proof.
  revert e. induction fuel as [|fuel IH]; intros e; simpl; [done|].
  destruct (negb _); [|by intros [= _ <-]].
  intros Hd. by rewrite (IH _ Hd).
Qed.

Lemma draw_sample_members fuel e indices indices' e' :
  draw_sample fuel e indices = Some (indices', e') -> members e' = members e.
Proof.
  revert e indices. induction fuel as [|fuel IH]; intros e indices; simpl;
    [done|].
  destruct (draw_first_sample fuel e) as [[firstSample e1]|] eqn:Hd; [|done].
  simpl. apply draw_first_sample_members in Hd.
  destruct (selectRandomOctreeLevel e1) as [level g].
  destruct (drawSamplesFromCellContainingPoint _ _ _ _ _ _ _)
    as [[done_ ind] t].
  destruct (_ || _).
  - intros Hr. rewrite (IH _ _ Hr). by rewrite <- Hd.
  - intros [= _ <-]. by rewrite <- Hd.
Qed.

Lemma generate_round_members fuel e opts loc e' loc' :
  generate_round fuel e opts loc = Some (e', loc') -> members e' = members e.
Proof.
  unfold generate_round.
  destruct (draw_sample fuel e []) as [[indices e1]|] eqn:Hd; [|done].
  simpl. intros [= <- _]. by apply draw_sample_members in Hd.
Qed.

Lemma generate_candidates_members fuel e opts loc e' loc' :
  generate_candidates fuel e opts loc = Some (e', loc') ->
  members e' = members e.
Proof.
  revert e loc. induction fuel as [|fuel IH]; intros e loc; simpl; [done|].
  destruct (generate_round fuel e opts loc) as [[e1 loc1]|] eqn:Hg; [|done].
  simpl. apply generate_round_members in Hg.
  destruct (generate_again e1 opts loc1).
  - intros Hr. rewrite (IH _ _ Hr). done.
  - by intros [= <- _].
Qed.

(** ** Marking the points of a committed shape *)

Lemma mark_assigned_frame pts : forall id e numInv,
  let r := mark_assigned pts id e numInv in
  fixed_members r.1 = fixed_members e
  /\ m_extractedShapes r.1 = m_extractedShapes e
  /\ length (m_shapeIndex r.1) = length (m_shapeIndex e)
  /\ r.2 = numInv + Z.of_nat (length pts).
Proof.
  induction pts as [|idx rest IH]; intros id e numInv; simpl.
  - repeat split; lia.
  - edestruct IH as (H1 & H2 & H3 & H4).
    rewrite H1, H2, H3, H4. simpl. rewrite length_insert.
    repeat split; lia.
Qed.

Lemma mark_assigned_other pts : forall id e numInv (j : nat),
  (forall idx, idx ∈ pts -> Z.to_nat idx <> j) ->
  m_shapeIndex (mark_assigned pts id e numInv).1 !! j = m_shapeIndex e !! j.
Proof.
  induction pts as [|idx rest IH]; intros id e numInv j Hj; simpl; [done|].
  rewrite IH by (intros; apply Hj, elem_of_cons; by right). simpl.
  apply list_lookup_insert_ne. apply Hj, elem_of_cons. by left.
Qed.

Lemma mark_assigned_keeps pts : forall id e numInv (j : nat),
  m_shapeIndex e !! j = Some id ->
  m_shapeIndex (mark_assigned pts id e numInv).1 !! j = Some id.
Proof.
  induction pts as [|idx rest IH]; intros id e numInv j Hj; simpl; [done|].
  apply IH. simpl.
  destruct (decide (Z.to_nat idx = j)) as [->|Hne].
  - apply list_lookup_insert_eq. by apply lookup_lt_Some in Hj.
  - by rewrite list_lookup_insert_ne.
Qed.

Lemma mark_assigned_hit pts : forall id e numInv idx,
  idx ∈ pts -> (Z.to_nat idx < length (m_shapeIndex e))%nat ->
  m_shapeIndex (mark_assigned pts id e numInv).1 !! Z.to_nat idx = Some id.
Proof.
  induction pts as [|a rest IH]; intros id e numInv idx Hin Hlt; simpl.
  - by apply elem_of_nil in Hin.
  - apply elem_of_cons in Hin as [->|Hin].
    + apply mark_assigned_keeps. simpl. by apply list_lookup_insert_eq.
    + apply IH; [done|]. simpl. by rewrite length_insert.
Qed.

(** What [commit] does: the shape is appended, its points get its index,
    the other entries of the assignment map stay, the counters move. *)
Lemma commit_spec e loc best cands e' loc' cands' :
  commit e loc best cands = (e', loc', cands') ->
  let id := Z.of_nat (length (m_extractedShapes e)) in
  m_extractedShapes e' = m_extractedShapes e ++ [best]
  /\ fixed_members e' = fixed_members e
  /\ length (m_shapeIndex e') = length (m_shapeIndex e)
  /\ (forall idx, idx ∈ assigned_points best ->
        (Z.to_nat idx < length (m_shapeIndex e))%nat ->
        m_shapeIndex e' !! Z.to_nat idx = Some id)
  /\ (forall j : nat, (forall idx, idx ∈ assigned_points best ->
                                   Z.to_nat idx <> j) ->
        m_shapeIndex e' !! j = m_shapeIndex e !! j)
  /\ numInvalid loc' = numInvalid loc + Z.of_nat (length (assigned_points best))
  /\ nbNewCandidates loc' = nbNewCandidates loc - 1
  /\ nbFailedCandidates loc' = 0
  /\ forceExit loc' = forceExit loc
  /\ candidates loc' = candidates loc
  /\ cands' = <[Nat.pred (length cands) := None]> cands.
Proof.
  intros Hc id. unfold commit in Hc.
  set (e1 := set_extractedShapes e (m_extractedShapes e ++ [best])) in *.
  set (id1 := Z.of_nat (length (m_extractedShapes e1)) - 1) in *.
  assert (Hid : id1 = id).
  { unfold id1, id, e1. simpl. rewrite length_app. simpl. lia. }
  destruct (mark_assigned_frame (assigned_points best) id1 e1
              (numInvalid loc)) as (F1 & F2 & F3 & F4).
  pose proof (mark_assigned_hit (assigned_points best) id1 e1
                (numInvalid loc)) as Hhit.
  pose proof (mark_assigned_other (assigned_points best) id1 e1
                (numInvalid loc)) as Hother.
  destruct (mark_assigned (assigned_points best) id1 e1 (numInvalid loc))
    as [e2 numInv].
  injection Hc as <- <- <-. simpl in *. rewrite Hid in *.
  repeat split; try done.
Qed.

(** ** The pool after a decision *)

Lemma elem_of_insert_inv {A} (l : list A) i x y :
  x ∈ <[i := y]> l -> x = y \/ x ∈ l.
Proof.
  intros Hx. apply list_elem_of_lookup in Hx as [j Hj].
  destruct (decide (i = j)) as [->|Hne].
  - destruct (decide (j < length l)%nat).
    + rewrite list_lookup_insert_eq in Hj by done. left. congruence.
    + rewrite list_insert_ge in Hj by lia. right.
      by apply list_elem_of_lookup_2 in Hj.
  - rewrite list_lookup_insert_ne in Hj by done. right.
    by apply list_elem_of_lookup_2 in Hj.
Qed.

(** The compaction only moves entries: whatever it keeps was in the pool. *)
Lemma compact_entries n : forall (cands : list (option (@Shape Fit)))
    start end_ x,
  Some x ∈ (compact n cands start end_).1 -> Some x ∈ cands.
Proof.
  induction n as [|n IH]; intros cands start end_ x; simpl; [done|].
  destruct (start <? end_); [|done].
  set (start' := skip_filled _ cands start end_).
  set (end' := skip_null _ cands start' end_).
  destruct (_ && _).
  - intros Hx. apply IH in Hx.
    apply elem_of_insert_inv in Hx as [Hx|Hx]; [done|].
    apply elem_of_insert_inv in Hx as [Hx|Hx]; [|done].
    destruct (cands !! Z.to_nat end') as [v|] eqn:Hv; simpl in Hx; [|done].
    subst v. by apply list_elem_of_lookup_2 in Hv.
  - apply IH.
Qed.

Lemma pool_entries_compact (cands : list (option (@Shape Fit))) x :
  x ∈ pool_entries (compact_pool cands) -> Some x ∈ cands.
Proof.
  unfold pool_entries, compact_pool. intros Hx.
  apply list_elem_of_omap in Hx as (o & Ho & Hox). simpl in Hox. subst o.
  pose proof (compact_entries (length cands) cands 0
                (Z.of_nat (length cands) - 1) x) as Hc.
  destruct (compact _ cands 0 _) as [cands' end_]. simpl in *.
  apply Hc. apply elem_of_take in Ho as (i & Hi & _).
  by apply list_elem_of_lookup_2 in Hi.
Qed.



(** ** The commit decision *)


(** ** The points of the extracted shapes *)

(** The connected-component filter keeps matched indices only. *)
Hypothesis component_subset :
  forall (f : Fit) (k : Q) (pts : list Input) (l : list Z) i,
    i ∈ largest_component f k pts l -> i ∈ l.

Lemma matches_true (f : Fit) (pts : list Input) shapeIndex eps tau pos i :
  matches f pts shapeIndex eps tau pos i = true ->
  0 <= i
  /\ shapeIndex !! Z.to_nat i = Some (-1)
  /\ exists p, pts !! Z.to_nat pos = Some p
       /\ (Qabs (signed_distance f p) <= eps)%Q
       /\ (normal_deviation f p <= tau)%Q.
Proof.
  unfold matches.
  destruct (pts !! Z.to_nat pos) as [p|]; [|done].
  destruct (shapeIndex !! Z.to_nat i) as [a|]; [|done].
  rewrite !andb_true_iff.
  intros [[[Hi Ha] Hd] Hn].
  apply Z.leb_le in Hi. apply Z.eqb_eq in Ha. subst a.
  apply Qle_bool_iff in Hd, Hn. eauto 10.
Qed.

(** The claim of the verified best candidate: the largest component of the
    unassigned points that match within [3 epsilon] and [normal_threshold]
    on the global octree. *)
Lemma verify_best_points e opts best :
  assigned_points (verify_best e opts best)
  = largest_component (m_fit best) (cluster_epsilon opts) (m_input e)
      (filter (fun i => matches (m_fit best) (m_input e) (m_shapeIndex e)
                          (3 * epsilon opts) (normal_threshold opts) i i
                        = true)
              (seqZ 0 (Z.of_nat (length (m_input e)))))
  /\ m_fit (verify_best e opts best) = m_fit best.
Proof. done. Qed.

Lemma verify_best_claim e opts best i :
  i ∈ assigned_points (verify_best e opts best) ->
  matches (m_fit (verify_best e opts best)) (m_input e) (m_shapeIndex e)
    (3 * epsilon opts) (normal_threshold opts) i i = true.
Proof.
  destruct (verify_best_points e opts best) as [-> ->].
  intros Hi. apply component_subset in Hi.
  by apply list_elem_of_filter in Hi as [Hm _].
Qed.

(** A decision keeps the claims right and never rewrites an assigned entry. *)
Lemma decide_commit_claims e opts loc best e' loc' :
  claims_ok opts e ->
  (forall i, i ∈ assigned_points best ->
     matches (m_fit best) (m_input e) (m_shapeIndex e)
       (3 * epsilon opts) (normal_threshold opts) i i = true) ->
  decide_commit e opts loc best = (e', loc') ->
  claims_ok opts e'
  /\ (forall (j : nat) v, m_shapeIndex e !! j = Some v -> v <> -1 ->
        m_shapeIndex e' !! j = Some v)
  /\ fixed_members e' = fixed_members e
  /\ length (m_shapeIndex e') = length (m_shapeIndex e).
Proof.
  intros Hok Hbest Hd. unfold decide_commit in Hd.
  destruct (FT_leb _ _); [|by injection Hd as <- <-].
  destruct (_ <=? _); [|by injection Hd as <- <-].
  destruct (commit e loc best (Some <$> candidates loc))
    as [[e1 loc1] cands1] eqn:Hc.
  injection Hd as <- <-.
  destruct (commit_spec _ _ _ _ _ _ _ Hc)
    as (Hex & Hfix & Hlen & Hhit & Hother & _).
  assert (Hin : m_input e1 = m_input e)
    by (unfold fixed_members in Hfix; congruence).
  assert (Hfree : forall idx, idx ∈ assigned_points best ->
            m_shapeIndex e !! Z.to_nat idx = Some (-1)).
  { intros idx Hidx. by apply Hbest, matches_true in Hidx as (_ & ? & _). }
  assert (Hmono : forall (j : nat) v, m_shapeIndex e !! j = Some v ->
            v <> -1 -> m_shapeIndex e1 !! j = Some v).
  { intros j v Hj Hv. rewrite Hother; [done|].
    intros idx Hidx <-. apply Hfree in Hidx. congruence. }
  split; [|done].
  intros k S i Hk Hi. rewrite Hex in Hk. rewrite Hin.
  apply lookup_app_Some in Hk as [Hk|[Hge Hk]].
  - destruct (Hok k S i Hk Hi) as (H0 & Hsi & Hp).
    split; [done|]. split; [|done]. apply Hmono; [done | lia].
  - apply list_lookup_singleton_Some in Hk as [Hk0 <-].
    assert (k = length (m_extractedShapes e)) as -> by lia.
    destruct (matches_true _ _ _ _ _ _ _ (Hbest i Hi)) as (H0 & Hsi & Hp).
    split; [done|]. split; [|done].
    apply Hhit; [done|]. by apply lookup_lt_Some in Hsi.
Qed.

Lemma claims_ok_members opts e e' :
  members e' = members e -> claims_ok opts e -> claims_ok opts e'.
Proof.
  unfold members, claims_ok. intros [= _ _ _ _ Hsi _ Hex _ Hin] Hok.
  rewrite Hsi, Hex, Hin. done.
Qed.

(** One iteration of the main loop keeps the claims right, never rewrites an
    assigned entry and leaves the point array and the size of the assignment
    map as they are. *)
Lemma iteration_claims fuel e opts loc brk e' loc' :
  iteration fuel e opts loc = Some (brk, e', loc') ->
  claims_ok opts e ->
  claims_ok opts e'
  /\ (forall (j : nat) v, m_shapeIndex e !! j = Some v -> v <> -1 ->
        m_shapeIndex e' !! j = Some v)
  /\ m_input e' = m_input e
  /\ length (m_shapeIndex e') = length (m_shapeIndex e).
Proof.
  unfold iteration. intros Hit Hok.
  destruct (generate_candidates fuel e opts (set_bestExp loc 0))
    as [[e1 loc1]|] eqn:Hg; [|done].
  simpl in Hit. apply generate_candidates_members in Hg.
  assert (Hsame : claims_ok opts e1
            /\ (forall (j : nat) v, m_shapeIndex e !! j = Some v -> v <> -1 ->
                  m_shapeIndex e1 !! j = Some v)
            /\ m_input e1 = m_input e
            /\ length (m_shapeIndex e1) = length (m_shapeIndex e)).
  { split; [by apply (claims_ok_members opts e)|].
    unfold members in Hg. injection Hg as _ _ _ _ Hsi _ _ _ Hin.
    rewrite Hsi, Hin. done. }
  destruct (forceExit loc1); [by injection Hit as _ <- _|].
  destruct (bool_decide _); [by injection Hit as _ <- _|].
  destruct (getBestCandidate fuel e1 opts (candidates loc1) _)
    as [cands|]; [|done].
  simpl in Hit. destruct (last cands) as [best|]; [|done]. simpl in Hit.
  destruct (decide_commit e1 opts _ (verify_best e1 opts best))
    as [e2 loc2] eqn:Hd.
  injection Hit as _ <- _.
  destruct Hsame as (Hok1 & Hmono1 & Hin1 & Hlen1).
  destruct (decide_commit_claims _ _ _ _ _ _ Hok1
              (verify_best_claim e1 opts best) Hd)
    as (Hok2 & Hmono2 & Hfix & Hlen2).
  split; [done|]. split; [|split].
  - intros j v Hj Hv. apply Hmono2; [|done]. by apply Hmono1.
  - unfold fixed_members in Hfix. congruence.
  - congruence.
Qed.

(** The same along any number of iterations. *)
Lemma run_claims opts s s' :
  run opts s s' ->
  claims_ok opts s.1 ->
  claims_ok opts s'.1
  /\ (forall (j : nat) v, m_shapeIndex s.1 !! j = Some v -> v <> -1 ->
        m_shapeIndex s'.1 !! j = Some v)
  /\ m_input s'.1 = m_input s.1
  /\ length (m_shapeIndex s'.1) = length (m_shapeIndex s.1).
Proof.
  induction 1 as [s|s fuel brk e' loc' s'' Hit Hrun IH]; intros Hok; [done|].
  destruct (iteration_claims _ _ _ _ _ _ _ Hit Hok)
    as (Hok1 & Hmono1 & Hin1 & Hlen1).
  destruct (IH Hok1) as (Hok2 & Hmono2 & Hin2 & Hlen2). simpl in *.
  split; [done|]. split; [|split; congruence].
  intros j v Hj Hv. apply Hmono2; [|done]. by apply Hmono1.
Qed.

Lemma run_trans opts s1 s2 s3 :
  run opts s1 s2 -> run opts s2 s3 -> run opts s1 s3.
Proof.
  induction 1 as [|s fuel brk e' loc' s'' Hit Hrun IH]; [done|].
  intros H3. eapply run_step; [exact Hit|]. by apply IH.
Qed.

(** The main loop visits states of [run]. *)
Lemma main_loop_run fuel : forall e opts loc e' loc',
  main_loop fuel e opts loc = Some (e', loc') ->
  run opts (e, loc) (e', loc').
Proof.
  induction fuel as [|fuel IH]; intros e opts loc e' loc'; simpl; [done|].
  destruct (iteration fuel e opts loc) as [[[brk e1] loc1]|] eqn:Hit; [|done].
  simpl. intros Hm.
  eapply run_step; [exact Hit|].
  destruct brk; [injection Hm as <- <-; apply run_refl|].
  destruct (detect_again e1 opts loc1);
    [by apply IH | injection Hm as <- <-; apply run_refl].
Qed.

(** What [detect] returns: the engine untouched when no factory is
    registered, else the last state of the main loop with the available
    count brought down. *)
Lemma detect_run fuel e opts e' :
  detect fuel e opts = Some e' ->
  (m_shapeFactories e = [] /\ e' = e)
  \/ exists e1 loc1,
       run opts (detect_entry e opts) (e1, loc1)
       /\ main_loop fuel (detect_entry e opts).1 opts (detect_entry e opts).2
          = Some (e1, loc1)
       /\ m_shapeFactories e <> []
       /\ e' = set_numAvailablePoints e1
                 (m_numAvailablePoints e1 - numInvalid loc1).
Proof.
  unfold detect.
  destruct (m_shapeFactories e) as [|f fs] eqn:Hf.
  - simpl. intros [= <-]. by left.
  - replace (Z.of_nat (length (f :: fs)) =? 0) with false
      by (symmetry; apply Z.eqb_neq; simpl; lia).
    destruct (main_loop fuel _ opts _) as [[e1 loc1]|] eqn:Hm; [|done].
    simpl. intros [= <-]. right. exists e1, loc1.
    split; [by apply main_loop_run in Hm|]. done.
Qed.

Lemma detect_claims fuel e opts e' :
  m_extractedShapes e = [] ->
  detect fuel e opts = Some e' ->
  claims_ok opts e'.
Proof.
  intros Hex Hd.
  assert (Hstart : claims_ok opts e).
  { intros k S i Hk. rewrite Hex in Hk. done. }
  apply detect_run in Hd as [[_ ->]|(e1 & loc1 & Hrun & _ & _ & ->)]; [done|].
  apply run_claims in Hrun as (Hok & _).
  - done.
  - intros k S i Hk. simpl in Hk. rewrite Hex in Hk. done.
Qed.

(** C1.  Once [detect] has returned, every point index in the assigned set
    of an extracted shape is mapped by the assignment map to that shape's
    index and lies in the assigned set of no other extracted shape; and
    between any two states of the main loop of [detect], the later after the
    earlier, an entry of the assignment map that holds a shape index holds
    the same index still. *)
Theorem assignment_invariant fuel e opts e' :
  m_extractedShapes e = [] ->
  detect fuel e opts = Some e' ->
  (forall (k : nat) S i,
     m_extractedShapes e' !! k = Some S -> i ∈ assigned_points S ->
     0 <= i
     /\ m_shapeIndex e' !! Z.to_nat i = Some (Z.of_nat k)
     /\ forall (k' : nat) S',
          m_extractedShapes e' !! k' = Some S' -> i ∈ assigned_points S' ->
          k' = k)
  /\ (forall s1 s2,
        run opts (detect_entry e opts) s1 -> run opts s1 s2 ->
        forall (j : nat) v,
          m_shapeIndex s1.1 !! j = Some v -> v <> -1 ->
          m_shapeIndex s2.1 !! j = Some v).
Proof.
  intros Hex Hd. split.
  - pose proof (detect_claims _ _ _ _ Hex Hd) as Hok.
    intros k S i Hk Hi. destruct (Hok k S i Hk Hi) as (H0 & Hsi & _).
    split; [done|]. split; [done|].
    intros k' S' Hk' Hi'. destruct (Hok k' S' i Hk' Hi') as (_ & Hsi' & _).
    rewrite Hsi in Hsi'. injection Hsi' as Heq. lia.
  - intros s1 s2 Hr1 Hr2.
    apply run_claims in Hr1 as (Hok1 & _).
    + by apply run_claims in Hr2 as (_ & Hmono & _).
    + intros k S i Hk. simpl in Hk. rewrite Hex in Hk. done.
Qed.

(** C5.  The final verification scores the best candidate on the global
    octree with the distance tolerance [3 * epsilon] and the normal
    threshold [normal_threshold], and then filters the connected component
    with [cluster_epsilon]; so, once [detect] has returned, every point an
    extracted shape claims is within [3 * epsilon] of the shape and deviates
    from its normal by at most [normal_threshold]. *)
Theorem claimed_points_within_tolerance fuel e opts e' :
  m_extractedShapes e = [] ->
  detect fuel e opts = Some e' ->
  (forall e0 best,
     assigned_points (verify_best e0 opts best)
     = largest_component (m_fit best) (cluster_epsilon opts) (m_input e0)
         (filter (fun i => matches (m_fit best) (m_input e0) (m_shapeIndex e0)
                             (3 * epsilon opts) (normal_threshold opts) i i
                           = true)
                 (seqZ 0 (Z.of_nat (length (m_input e0))))))
  /\ (forall S i,
        S ∈ m_extractedShapes e' -> i ∈ assigned_points S ->
        exists p, m_input e' !! Z.to_nat i = Some p
          /\ (Qabs (signed_distance (m_fit S) p) <= 3 * epsilon opts)%Q
          /\ (normal_deviation (m_fit S) p <= normal_threshold opts)%Q).
Proof.
  intros Hex Hd. split; [intros; apply verify_best_points|].
  pose proof (detect_claims _ _ _ _ Hex Hd) as Hok.
  intros S i HS Hi. apply list_elem_of_lookup in HS as [k Hk].
  by destruct (Hok k S i Hk Hi) as (_ & _ & Hp).
Qed.

(** ** Leaving the main loop *)

Lemma add_candidates_locals (fs : list Factory) : forall e opts indices loc,
  let loc' := add_candidates fs e opts indices loc in
  forceExit loc' = forceExit loc
  /\ numInvalid loc' = numInvalid loc
  /\ nbNewCandidates loc' = nbNewCandidates loc
  /\ nbFailedCandidates loc <= nbFailedCandidates loc'.
Proof.
  induction fs as [|f fs IH]; intros e opts indices loc; simpl.
  - repeat split; lia.
  - match goal with
    | |- context [add_candidates fs e opts indices ?l] =>
        destruct (IH e opts indices l) as (H1 & H2 & H3 & H4);
        assert (forceExit l = forceExit loc /\ numInvalid l = numInvalid loc
                /\ nbNewCandidates l = nbNewCandidates loc
                /\ nbFailedCandidates loc <= nbFailedCandidates l)
          as (G1 & G2 & G3 & G4)
    end.
    { destruct (compute _ _ _ _ _); [|simpl; repeat split; lia].
      destruct (improveBound _ _ _ _ _ _) as [b p].
      destruct (Qle_bool _ _); simpl; repeat split; lia. }
    rewrite H1, H2, H3. repeat split; (done || lia).
Qed.

(** After a round of generation the flag is set exactly when the failures
    have reached 10000, unless it was set before. *)
Lemma generate_round_locals fuel e opts loc e' loc' :
  generate_round fuel e opts loc = Some (e', loc') ->
  numInvalid loc' = numInvalid loc
  /\ nbFailedCandidates loc <= nbFailedCandidates loc'
  /\ forceExit loc'
     = (10000 <=? nbFailedCandidates loc') || forceExit loc.
Proof.
  unfold generate_round.
  destruct (draw_sample fuel e []) as [[indices e1]|]; [|done]. simpl.
  match goal with
  | |- context [add_candidates ?fs e1 opts indices ?l] =>
      destruct (add_candidates_locals fs e1 opts indices l)
        as (H1 & H2 & H3 & H4);
      set (loc1 := add_candidates fs e1 opts indices l) in *
  end.
  simpl in *. intros [= _ <-].
  destruct (Z.leb_spec 10000 (nbFailedCandidates loc1)) as [Hge|Hlt]; simpl.
  - apply Z.leb_le in Hge as Hb. rewrite Hb. repeat split; (done || lia).
  - apply Z.leb_gt in Hlt as Hb. rewrite Hb. repeat split; (done || lia).
Qed.

Lemma generate_candidates_locals fuel : forall e opts loc e' loc',
  generate_candidates fuel e opts loc = Some (e', loc') ->
  forceExit loc = false ->
  numInvalid loc' = numInvalid loc
  /\ nbFailedCandidates loc <= nbFailedCandidates loc'
  /\ forceExit loc' = (10000 <=? nbFailedCandidates loc').
Proof.
  induction fuel as [|fuel IH]; intros e opts loc e' loc'; simpl; [done|].
  destruct (generate_round fuel e opts loc) as [[e1 loc1]|] eqn:Hg; [|done].
  simpl. intros Hr Hf.
  destruct (generate_round_locals _ _ _ _ _ _ Hg) as (H1 & H2 & H3).
  rewrite Hf, orb_false_r in H3.
  destruct (generate_again e1 opts loc1) eqn:Hga.
  - unfold generate_again in Hga. rewrite !andb_true_iff in Hga.
    destruct Hga as [[Hfe _] _]. apply negb_true_iff in Hfe.
    destruct (IH _ _ _ _ _ Hr Hfe) as (G1 & G2 & G3).
    repeat split; (congruence || lia).
  - injection Hr as <- <-. done.
Qed.

Lemma decide_commit_locals e opts loc best e' loc' :
  decide_commit e opts loc best = (e', loc') ->
  forceExit loc' = forceExit loc
  /\ (nbFailedCandidates loc' = nbFailedCandidates loc
      \/ nbFailedCandidates loc' = 0).
Proof.
  unfold decide_commit.
  destruct (FT_leb _ _); [|intros [= <- <-]; auto].
  destruct (_ <=? _); [|intros [= <- <-]; auto].
  destruct (commit e loc best _) as [[e1 loc1] cands1] eqn:Hc.
  intros [= <- <-].
  destruct (commit_spec _ _ _ _ _ _ _ Hc)
    as (_ & _ & _ & _ & _ & _ & _ & Hnb & Hfe & _).
  simpl. auto.
Qed.

(** One iteration: it is left by [break] exactly when the failures have
    reached 10000; then nothing but the generator and the global octree has
    changed in the engine, and no point has been taken. *)
Lemma iteration_break fuel e opts loc brk e' loc' :
  forceExit loc = false ->
  iteration fuel e opts loc = Some (brk, e', loc') ->
  forceExit loc' = brk
  /\ (brk = true <-> 10000 <= nbFailedCandidates loc')
  /\ (brk = true ->
      members e' = members e /\ numInvalid loc' = numInvalid loc).
Proof.
  unfold iteration. intros Hf Hit.
  destruct (generate_candidates fuel e opts (set_bestExp loc 0))
    as [[e1 loc1]|] eqn:Hg; [|done].
  simpl in Hit.
  destruct (generate_candidates_locals _ _ _ _ _ _ Hg Hf) as (H1 & H2 & H3).
  apply generate_candidates_members in Hg. simpl in H1, H2.
  destruct (forceExit loc1) eqn:Hfe.
  { injection Hit as <- <- <-. symmetry in H3. apply Z.leb_le in H3.
    repeat split; done. }
  symmetry in H3. apply Z.leb_gt in H3.
  destruct (bool_decide _).
  { injection Hit as <- <- <-.
    split; [done|]. split; [|done]. split; [done|]. intros ?. exfalso. lia. }
  destruct (getBestCandidate fuel e1 opts (candidates loc1) _)
    as [cands|]; [|done].
  simpl in Hit. destruct (last cands) as [best|]; [|done]. simpl in Hit.
  destruct (decide_commit e1 opts _ (verify_best e1 opts best))
    as [e2 loc2] eqn:Hd.
  injection Hit as <- <- <-.
  destruct (decide_commit_locals _ _ _ _ _ _ Hd) as (G1 & G2).
  simpl in G1, G2.
  split; [congruence|]. split; [|done]. split; [done|].
  intros ?. exfalso. lia.
Qed.

Lemma detect_again_false e opts loc :
  detect_again e opts loc = false
  <-> ~ FT_lt (FT_of_Q (probability opts))
          (overlook e loc (inject_Z (min_points opts)))
      \/ available e loc < min_points opts.
Proof.
  unfold detect_again, FT_lt. rewrite andb_false_iff, not_true_iff_false.
  split; (intros [H|H]; [by left | right]).
  - destruct (Z.lt_ge_cases (available e loc) (min_points opts)) as [|Hge];
      [done|].
    rewrite Zle_Qle in Hge. apply Qle_bool_iff in Hge. congruence.
  - destruct (Qle_bool _ _) eqn:Hq; [|done].
    apply Qle_bool_iff in Hq. rewrite <- Zle_Qle in Hq. lia.
Qed.

(** C3 (as amended).  When the main loop of [detect] ends, one of three
    conditions holds: the failed candidates have reached 10000 (the force
    exit), or the overlook probability of a shape of [min_points] points
    over the available points is not above [probability] (it is at most
    [probability], or it is not a number), or fewer than [min_points]
    points are available.  And after any iteration the loop
    ends there when one of the three holds and goes on when none does; the
    iteration is left by [break] exactly in the first case, and then the
    extracted shapes, the assignment map and the count of taken points are
    what they were before it. *)
Theorem main_loop_exit fuel e opts loc e' loc' :
  forceExit loc = false ->
  main_loop fuel e opts loc = Some (e', loc') ->
  let stop := fun e1 loc1 =>
    10000 <= nbFailedCandidates loc1
    \/ ~ FT_lt (FT_of_Q (probability opts))
           (overlook e1 loc1 (inject_Z (min_points opts)))
    \/ available e1 loc1 < min_points opts in
  stop e' loc'
  /\ (forall f e0 loc0 brk e1 loc1,
        forceExit loc0 = false ->
        iteration f e0 opts loc0 = Some (brk, e1, loc1) ->
        (stop e1 loc1 -> main_loop (S f) e0 opts loc0 = Some (e1, loc1))
        /\ (~ stop e1 loc1 ->
            main_loop (S f) e0 opts loc0 = main_loop f e1 opts loc1)
        /\ (10000 <= nbFailedCandidates loc1 <-> brk = true)
        /\ (brk = true ->
            m_extractedShapes e1 = m_extractedShapes e0
            /\ m_shapeIndex e1 = m_shapeIndex e0
            /\ numInvalid loc1 = numInvalid loc0)).
Proof.
  intros Hf Hm stop.
  assert (Hstep : forall f e0 loc0 brk e1 loc1,
            forceExit loc0 = false ->
            iteration f e0 opts loc0 = Some (brk, e1, loc1) ->
            (stop e1 loc1 -> main_loop (S f) e0 opts loc0 = Some (e1, loc1))
            /\ (~ stop e1 loc1 ->
                main_loop (S f) e0 opts loc0 = main_loop f e1 opts loc1
                /\ forceExit loc1 = false)
            /\ (10000 <= nbFailedCandidates loc1 <-> brk = true)
            /\ (brk = true ->
                m_extractedShapes e1 = m_extractedShapes e0
                /\ m_shapeIndex e1 = m_shapeIndex e0
                /\ numInvalid loc1 = numInvalid loc0)).
  { intros f e0 loc0 brk e1 loc1 Hf0 Hit.
    destruct (iteration_break _ _ _ _ _ _ _ Hf0 Hit) as (Hfe & Hbrk & Hkeep).
    cbn [main_loop]. rewrite Hit. simpl.
    split; [|split; [|split]].
    - intros [Hs|Hs].
      + apply Hbrk in Hs. by rewrite Hs.
      + destruct brk; [done|].
        apply detect_again_false in Hs. by rewrite Hs.
    - intros Hns. destruct brk.
      + exfalso. apply Hns. left. by apply Hbrk.
      + split; [|done].
        destruct (detect_again e1 opts loc1) eqn:Hda; [done|].
        exfalso. apply Hns. right. by apply detect_again_false.
    - symmetry. exact Hbrk.
    - intros Hb. destruct (Hkeep Hb) as [Hmem Hni].
      unfold members in Hmem. injection Hmem as _ _ _ _ Hsi _ Hex _ _.
      done. }
  split.
  - revert e loc e' loc' Hf Hm.
    induction fuel as [|fuel IH]; intros e loc e' loc' Hf Hm; [done|].
    cbn [main_loop] in Hm.
    destruct (iteration fuel e opts loc) as [[[brk e1] loc1]|] eqn:Hit;
      [|done].
    simpl in Hm.
    destruct (Hstep _ _ _ _ _ _ Hf Hit) as (_ & Hgo & Hbrk & _).
    destruct brk.
    + injection Hm as <- <-. left. by apply Hbrk.
    + destruct (detect_again e1 opts loc1) eqn:Hda.
      * apply (IH e1 loc1); [|done].
        destruct (iteration_break _ _ _ _ _ _ _ Hf Hit) as (Hfe & _). done.
      * injection Hm as <- <-. right. by apply detect_again_false.
  - intros f e0 loc0 brk e1 loc1 Hf0 Hit.
    destruct (Hstep _ _ _ _ _ _ Hf0 Hit) as (H1 & H2 & H3 & H4).
    split; [done|]. split; [|done]. intros Hns. by apply H2.
Qed.

(** ** The commit decision within an iteration *)



(** ** The view of unassigned points after detection *)

Lemma satisfy_predicate_skip (pred : Z -> bool) end_ (k : nat) : forall base,
  Z.to_nat (end_ - base) = S k -> pred base = false ->
  make_filter_iterator pred base end_
  = make_filter_iterator pred (base + 1) end_.
Proof.
  intros base Hk Hp. unfold make_filter_iterator. rewrite Hk. simpl.
  destruct (Z.eqb_spec base end_) as [->|_]; [lia|]. rewrite Hp.
  f_equal. lia.
Qed.

(** Iterating from a filter iterator made at [base] meets, in order, the
    positions of [base, end) that pass the predicate. *)
Lemma filter_range_spec (pred : Z -> bool) end_ (k : nat) : forall base n,
  Z.to_nat (end_ - base) = k -> base <= end_ -> (k <= n)%nat ->
  filter_range n pred (make_filter_iterator pred base end_) end_
  = filter (fun x => pred x = true) (seqZ base (end_ - base)).
Proof.
  induction k as [|k IH]; intros base n Hk Hle Hn.
  - assert (base = end_) as -> by lia.
    unfold make_filter_iterator. rewrite Z.sub_diag. simpl.
    destruct n; simpl; [done|]. by rewrite Z.eqb_refl.
  - rewrite seqZ_cons by lia.
    replace (Z.pred (end_ - base)) with (end_ - Z.succ base) by lia.
    destruct (pred base) eqn:Hp.
    + rewrite filter_cons_True by done.
      unfold make_filter_iterator at 1. rewrite Hk. simpl.
      destruct (Z.eqb_spec base end_) as [->|Hne]; [lia|]. rewrite Hp.
      destruct n as [|n]; [lia|]. simpl.
      destruct (Z.eqb_spec base end_) as [|_]; [done|].
      f_equal. rewrite <- Z.add_1_r. apply IH; lia.
    + rewrite filter_cons_False by (rewrite Hp; done).
      rewrite (satisfy_predicate_skip pred end_ k) by done.
      rewrite <- Z.add_1_r. apply IH; lia.
Qed.

Lemma filter_ext_in {A} (P1 P2 : A -> Prop) `{!forall x, Decision (P1 x)}
    `{!forall x, Decision (P2 x)} (l : list A) :
  (forall x, x ∈ l -> P1 x <-> P2 x) -> filter P1 l = filter P2 l.
Proof.
  induction l as [|a l IH]; intros Hx; [done|].
  rewrite !filter_cons.
  rewrite IH by (intros x Hin; apply Hx, elem_of_cons; by right).
  pose proof (Hx a ltac:(apply elem_of_cons; by left)) as Ha.
  destruct (decide (P1 a)), (decide (P2 a)); tauto.
Qed.

Lemma filter_all {A} (P : A -> Prop) `{!forall x, Decision (P x)}
    (l : list A) :
  (forall x, x ∈ l -> P x) -> filter P l = l.
Proof.
  induction l as [|a l IH]; intros Hx; [done|].
  rewrite filter_cons_True by (apply Hx, elem_of_cons; by left).
  f_equal. apply IH. intros x Hin. apply Hx, elem_of_cons. by right.
Qed.

(** The view is made of the positions of the assignment map that hold -1. *)
Lemma unassigned_points_spec e :
  unassigned_points e
  = filter (fun x => vec_at (m_shapeIndex e) x = -1)
      (seqZ 0 (Z.of_nat (length (m_shapeIndex e)))).
Proof.
  unfold unassigned_points, unassigned_points_begin, unassigned_points_end.
  set (si := m_shapeIndex e).
  rewrite (filter_range_spec _ _ (length si)) by lia.
  rewrite Z.sub_0_r. apply filter_ext_in.
  intros x Hx. apply elem_of_seqZ in Hx.
  unfold Filter_unassigned_points, to_size_t, vec_at.
  assert (Hmod : x `mod` 2 ^ 64 <= x) by (apply Z.mod_le; lia).
  destruct (Z.ltb_spec (x `mod` 2 ^ 64) (Z.of_nat (length si))); [|lia].
  destruct (si !! Z.to_nat x) as [v|] eqn:Hv; simpl.
  - by rewrite Z.eqb_eq.
  - apply lookup_ge_None in Hv. lia.
Qed.

(** Giving a shape index to a position that held -1 takes one position
    from the unassigned ones. *)
Lemma unassigned_count_insert (si : list Z) idx id :
  0 <= idx -> si !! Z.to_nat idx = Some (-1) -> id <> -1 ->
  unassigned_count (<[Z.to_nat idx := id]> si) = unassigned_count si - 1.
Proof.
  intros H0 Hidx Hid. unfold unassigned_count. rewrite length_insert.
  pose proof (lookup_lt_Some _ _ _ Hidx) as Hlt.
  set (len := Z.of_nat (length si)).
  replace len with (idx + (1 + (len - idx - 1))) by lia.
  rewrite !seqZ_app by lia. rewrite !filter_app, !length_app.
  assert (Hother : forall x, 0 <= x -> x <> idx ->
            vec_at (<[Z.to_nat idx := id]> si) x = vec_at si x).
  { intros x Hx Hne. unfold vec_at.
    rewrite list_lookup_insert_ne by lia. done. }
  rewrite (filter_ext_in (fun x => vec_at (<[Z.to_nat idx := id]> si) x = -1)
             (fun x => vec_at si x = -1) (seqZ 0 idx)).
  2:{ intros x Hx. apply elem_of_seqZ in Hx. rewrite Hother by lia. done. }
  rewrite (filter_ext_in (fun x => vec_at (<[Z.to_nat idx := id]> si) x = -1)
             (fun x => vec_at si x = -1) (seqZ (0 + idx + 1) (len - idx - 1))).
  2:{ intros x Hx. apply elem_of_seqZ in Hx. rewrite Hother by lia. done. }
  change (seqZ (0 + idx) 1) with [0 + idx]. rewrite Z.add_0_l.
  rewrite filter_cons_False, filter_cons_True.
  - simpl. lia.
  - unfold vec_at. by rewrite Hidx.
  - unfold vec_at. rewrite list_lookup_insert_eq by done. done.
Qed.

Lemma mark_assigned_count pts : forall id e numInv,
  NoDup pts -> id <> -1 ->
  (forall idx, idx ∈ pts ->
     0 <= idx /\ m_shapeIndex e !! Z.to_nat idx = Some (-1)) ->
  unassigned_count (m_shapeIndex (mark_assigned pts id e numInv).1)
  = unassigned_count (m_shapeIndex e) - Z.of_nat (length pts).
Proof.
  induction pts as [|a rest IH]; intros id e numInv Hnd Hid Hfree; simpl.
  - lia.
  - apply NoDup_cons in Hnd as [Ha Hnd].
    destruct (Hfree a ltac:(apply elem_of_cons; by left)) as [Ha0 Hai].
    rewrite IH; [|done|done|].
    + simpl. rewrite unassigned_count_insert by done. lia.
    + intros idx Hin.
      destruct (Hfree idx ltac:(apply elem_of_cons; by right)) as [H0 Hi].
      split; [done|]. simpl. rewrite list_lookup_insert_ne; [done|].
      intros Heq. apply Ha. replace a with idx by lia. done.
Qed.

(** The connected-component filter keeps distinct indices distinct. *)
Hypothesis component_NoDup :
  forall (f : Fit) (k : Q) (pts : list Input) (l : list Z),
    NoDup l -> NoDup (largest_component f k pts l).

Lemma verify_best_NoDup e opts b :
  NoDup (assigned_points (verify_best e opts b)).
Proof.
  destruct (verify_best_points e opts b) as [-> _].
  apply component_NoDup, NoDup_filter, NoDup_seqZ.
Qed.

Lemma decide_commit_count e opts loc b e' loc' :
  decide_commit e opts loc (verify_best e opts b) = (e', loc') ->
  available e loc = unassigned_count (m_shapeIndex e) ->
  available e' loc' = unassigned_count (m_shapeIndex e').
Proof.
  unfold decide_commit. set (best := verify_best e opts b).
  destruct (FT_leb _ _); [|by intros [= <- <-]].
  destruct (_ <=? _); [|by intros [= <- <-]].
  unfold commit.
  set (e1 := set_extractedShapes e (m_extractedShapes e ++ [best])).
  set (id := Z.of_nat (length (m_extractedShapes e1)) - 1).
  destruct (mark_assigned_frame (assigned_points best) id e1 (numInvalid loc))
    as (Hfix & _ & _ & Hnum).
  pose proof (mark_assigned_count (assigned_points best) id e1
                (numInvalid loc)) as Hcount.
  destruct (mark_assigned (assigned_points best) id e1 (numInvalid loc))
    as [e2 numInv].
  simpl in *. intros [= <- <-] Hav. unfold available in *. simpl.
  rewrite Hcount.
  - assert (m_numAvailablePoints e2 = m_numAvailablePoints e)
      by (unfold fixed_members in Hfix; simpl in Hfix; congruence).
    lia.
  - apply verify_best_NoDup.
  - unfold id, e1. simpl. rewrite length_app. simpl. lia.
  - intros idx Hidx. apply verify_best_claim, matches_true in Hidx.
    tauto.
Qed.

Lemma generate_candidates_numInvalid fuel : forall e opts loc e' loc',
  generate_candidates fuel e opts loc = Some (e', loc') ->
  numInvalid loc' = numInvalid loc.
Proof.
  induction fuel as [|fuel IH]; intros e opts loc e' loc'; simpl; [done|].
  destruct (generate_round fuel e opts loc) as [[e1 loc1]|] eqn:Hg; [|done].
  simpl. destruct (generate_round_locals _ _ _ _ _ _ Hg) as (H1 & _).
  destruct (generate_again e1 opts loc1).
  - intros Hr. rewrite (IH _ _ _ _ _ Hr). done.
  - by intros [= <- <-].
Qed.

Lemma iteration_count fuel e opts loc brk e' loc' :
  iteration fuel e opts loc = Some (brk, e', loc') ->
  available e loc = unassigned_count (m_shapeIndex e) ->
  available e' loc' = unassigned_count (m_shapeIndex e').
Proof.
  unfold iteration. intros Hit Hav.
  destruct (generate_candidates fuel e opts (set_bestExp loc 0))
    as [[e1 loc1]|] eqn:Hg; [|done].
  simpl in Hit.
  pose proof (generate_candidates_numInvalid _ _ _ _ _ _ Hg) as Hni.
  apply generate_candidates_members in Hg.
  assert (Hav1 : available e1 loc1 = unassigned_count (m_shapeIndex e1)).
  { unfold members in Hg. injection Hg as _ _ _ _ Hsi Hn _ _ _.
    unfold available in *. simpl in Hni. rewrite Hsi, Hn, Hni. done. }
  destruct (forceExit loc1); [by injection Hit as _ <- <-|].
  destruct (bool_decide _); [by injection Hit as _ <- <-|].
  destruct (getBestCandidate fuel e1 opts (candidates loc1) _)
    as [cands|]; [|done].
  simpl in Hit. destruct (last cands) as [b|]; [|done]. simpl in Hit.
  destruct (decide_commit e1 opts _ (verify_best e1 opts b))
    as [e2 loc2] eqn:Hd.
  injection Hit as _ <- <-.
  by apply (decide_commit_count _ _ _ _ _ _ Hd).
Qed.

Lemma run_count opts s s' :
  run opts s s' ->
  available s.1 s.2 = unassigned_count (m_shapeIndex s.1) ->
  available s'.1 s'.2 = unassigned_count (m_shapeIndex s'.1).
Proof.
  induction 1 as [s|s fuel brk e' loc' s'' Hit Hrun IH]; intros Hav; [done|].
  apply IH. by apply (iteration_count _ _ _ _ _ _ _ Hit).
Qed.

(** X15.  After a [detect] that went through its main loop, on an engine
    whose assignment map was still empty: the assignment map has an entry for
    every point, the view is made of the positions that hold -1, and
    [number_of_unassigned_points()] is the number of indices in the view. *)
Lemma unassigned_view_after_detect fuel e opts e' :
  m_shapeIndex e = [] -> m_extractedShapes e = [] ->
  0 <= m_numAvailablePoints e ->
  m_shapeFactories e <> [] ->
  detect fuel e opts = Some e' ->
  Z.of_nat (length (m_shapeIndex e')) = m_numAvailablePoints e
  /\ unassigned_points e'
     = filter (fun x => vec_at (m_shapeIndex e') x = -1)
         (seqZ 0 (m_numAvailablePoints e))
  /\ number_of_unassigned_points e'
     = Z.of_nat (length (unassigned_points e')).
Proof.
  intros Hsi Hex HN Hf Hd.
  apply detect_run in Hd as [[Hnil _]|(e1 & loc1 & Hrun & _ & _ & ->)];
    [done|].
  assert (Hok : claims_ok opts (detect_entry e opts).1).
  { intros k S i Hk. simpl in Hk. rewrite Hex in Hk. done. }
  destruct (run_claims _ _ _ Hrun Hok) as (_ & _ & _ & Hlen).
  simpl in Hlen. rewrite Hsi, resize_nil, length_replicate in Hlen.
  apply run_count in Hrun.
  - simpl in Hrun. rewrite unassigned_points_spec. simpl.
    unfold number_of_unassigned_points. simpl.
    rewrite Hlen, Z2Nat.id by done.
    split; [done|]. split; [done|].
    unfold available in Hrun. rewrite Hrun. unfold unassigned_count.
    rewrite Hlen, Z2Nat.id by done. done.
  - simpl. unfold available. simpl. rewrite Hsi, resize_nil.
    unfold unassigned_count. rewrite length_replicate, Z2Nat.id by done.
    rewrite filter_all.
    + rewrite length_seqZ. lia.
    + intros x Hx. apply elem_of_seqZ in Hx. unfold vec_at.
      rewrite lookup_replicate_2 by lia. done.
Qed.

End Properties.

(** * Further properties of the engine *)

(** ** Numbers *)

Lemma Qpower_succ_nat (b : Q) (n : nat) :
  (b ^ Z.of_nat (S n) == b * b ^ Z.of_nat n)%Q.
Proof.
  rewrite Nat2Z.inj_succ, <- Z.add_1_l.
  rewrite Qpower_plus' by lia. reflexivity.
Qed.

(** Powers with a natural exponent grow with a base that is not negative. *)
Lemma Qpower_base_le (a b : Q) (n : nat) :
  (0 <= a)%Q -> (a <= b)%Q -> (a ^ Z.of_nat n <= b ^ Z.of_nat n)%Q.
Proof.
  intros Ha Hab. induction n as [|n IH]; [apply Qle_refl|].
  rewrite !Qpower_succ_nat.
  apply Qmult_le_compat_nonneg; (split; [|done]);
    [done | by apply Qpower_0_le].
Qed.

(** Powers of a base of [0, 1] shrink as the exponent grows. *)
Lemma Qpower_exp_le (b : Q) (n m : nat) :
  (0 <= b)%Q -> (b <= 1)%Q -> (n <= m)%nat ->
  (b ^ Z.of_nat m <= b ^ Z.of_nat n)%Q.
Proof.
  intros H0 H1 Hnm. induction Hnm as [|m Hnm IH]; [apply Qle_refl|].
  eapply Qle_trans; [|exact IH].
  rewrite Qpower_succ_nat.
  rewrite <- (Qmult_1_l (b ^ Z.of_nat m)) at 2.
  apply Qmult_le_compat_r; [done | by apply Qpower_0_le].
Qed.

(** The base of the power in [StopProbability] lies in [0, 1] for a
    candidate size of [0, 3 P L]. *)
Lemma StopProbability_base (c P L : Q) :
  (0 < P)%Q -> (0 < L)%Q -> (0 <= c)%Q -> (c <= 3 * P * L)%Q ->
  (0 <= 1 - c / (P * L * 3) /\ 1 - c / (P * L * 3) <= 1)%Q.
Proof.
  intros HP HL Hc0 Hc.
  assert (Hden : (0 < P * L * 3)%Q).
  { apply Qmult_lt_0_compat; [by apply Qmult_lt_0_compat | done]. }
  assert (Hq0 : (0 <= c / (P * L * 3))%Q).
  { apply Qle_shift_div_l; [done|]. by rewrite Qmult_0_l. }
  assert (Hq1 : (c / (P * L * 3) <= 1)%Q).
  { apply Qle_shift_div_r; [done|]. rewrite Qmult_1_l.
    assert (Heq : (P * L * 3 == 3 * P * L)%Q) by ring.
    by rewrite Heq. }
  split.
  - apply (proj1 (Qle_minus_iff _ _)). done.
  - rewrite <- (Qplus_0_r 1) at 2. unfold Qminus.
    apply Qplus_le_r. rewrite <- (Qopp_involutive 0) at 1.
    apply Qopp_le_compat. done.
Qed.

(** ** The points of a sampled subset *)

(** The loop of lines 195-200 picks one position of each pair
    [(2k, 2k+1)] by the parity of a fresh value of the generator; the
    bound of line 198 is never reached. *)
Lemma pick_indices_closed R n : forall i g,
  0 <= i -> 2 * (i + Z.of_nat n) <= R ->
  (forall (k : nat) x, (pick_indices R n i g).1 !! k = Some x ->
     x = rng_draws g (rng_pos g + k) `mod` 2 + 2 * (i + Z.of_nat k))
  /\ length (pick_indices R n i g).1 = n
  /\ (pick_indices R n i g).2 = Mt19937 (rng_draws g) (rng_pos g + n).
Proof.
  induction n as [|n IH]; intros i g Hi HR; simpl.
  { split; [done|]. split; [done|]. destruct g. simpl. f_equal. lia. }
  specialize (IH (i + 1) (Mt19937 (rng_draws g) (S (rng_pos g)))).
  destruct (pick_indices R n (i + 1) _) as [rest g2]. simpl in *.
  destruct IH as (H1 & H2 & H3); [lia | lia |].
  rewrite Z.shiftl_mul_pow2 by lia. change (2 ^ 1) with 2.
  pose proof (Z.mod_pos_bound (rng_draws g (rng_pos g)) 2 ltac:(lia)).
  split; [|split; [lia | rewrite H3; f_equal; lia]].
  intros [|k] x Hk; simpl in Hk.
  - injection Hk as <-. rewrite Nat.add_0_r.
    destruct (Z.leb_spec R (rng_draws g (rng_pos g) `mod` 2 + i * 2)); lia.
  - apply H1 in Hk. subst x.
    replace (rng_pos g + S k)%nat with (S (rng_pos g + k)) by lia. lia.
Qed.

(** The loop of lines 203-208 on positions that decrease and lie at or
    below the cursor [last]: the point at each position arrives at the place
    of the cursor, and nothing above the first cursor is touched. *)
Lemma move_to_end_picks {A} (idxs : list Z) : forall (pts : list A) L,
  (forall (t : nat) a, idxs !! t = Some a -> 0 <= a <= L - Z.of_nat t) ->
  (forall (t t' : nat) a a', (t < t')%nat ->
     idxs !! t = Some a -> idxs !! t' = Some a' -> a' < a) ->
  L < Z.of_nat (length pts) ->
  (forall (t : nat) a, idxs !! t = Some a ->
     (move_to_end pts idxs L).1 !! Z.to_nat (L - Z.of_nat t)
     = pts !! Z.to_nat a)
  /\ (forall j : nat, L < Z.of_nat j ->
        (move_to_end pts idxs L).1 !! j = pts !! j).
Proof.
  induction idxs as [|a1 rest IH]; intros pts L Hrange Hdec HL; simpl;
    [done|].
  destruct (Hrange 0%nat a1 eq_refl) as [Ha0 HaL].
  set (pts1 := swap_with_last pts (Z.to_nat a1) (Z.to_nat L)).
  assert (Hlen1 : length pts1 = length pts) by apply swap_with_last_length.
  assert (Hsw : pts1 !! Z.to_nat L = pts !! Z.to_nat a1
                /\ forall j : nat, j <> Z.to_nat a1 -> j <> Z.to_nat L ->
                     pts1 !! j = pts !! j).
  { unfold pts1, swap_with_last.
    destruct (lookup_lt_is_Some_2 pts (Z.to_nat L)) as [tmp Htmp]; [lia|].
    destruct (lookup_lt_is_Some_2 pts (Z.to_nat a1)) as [x Hx]; [lia|].
    rewrite Htmp, Hx. split.
    - destruct (decide (Z.to_nat a1 = Z.to_nat L)) as [Heq|Hne].
      + rewrite Heq. rewrite list_lookup_insert_eq
          by (rewrite length_insert; lia). congruence.
      + rewrite list_lookup_insert_ne by done.
        apply list_lookup_insert_eq. lia.
    - intros j H1 H2. by rewrite !list_lookup_insert_ne. }
  destruct Hsw as [HswL Hsw].
  destruct (IH pts1 (L - 1)) as [IH1 IH2].
  - intros t a Ht. specialize (Hrange (S t) a Ht). lia.
  - intros t t' a a' Htt Ht Ht'. apply (Hdec (S t) (S t')); (done || lia).
  - lia.
  - split.
    + intros [|t] a Ht; simpl in Ht.
      * injection Ht as <-. rewrite Z.sub_0_r.
        rewrite (IH2 (Z.to_nat L)) by lia. done.
      * replace (L - Z.of_nat (S t)) with (L - 1 - Z.of_nat t) by lia.
        rewrite (IH1 t a Ht).
        specialize (Hrange (S t) a Ht).
        pose proof (Hdec 0%nat (S t) a1 a ltac:(lia) eq_refl Ht).
        apply Hsw; lia.
    + intros j Hj. rewrite IH2 by lia. apply Hsw; lia.
Qed.

Lemma rev_lookup_Some {A} (l : list A) (t : nat) x :
  rev l !! t = Some x <-> l !! (length l - S t)%nat = Some x /\ (t < length l)%nat.
Proof.
  replace (rev l) with (reverse l) by (unfold reverse; by rewrite rev_alt).
  apply reverse_lookup_Some.
Qed.

(** One round of the subset generation for a subset [s > 0] on [R]
    remaining points: the slice of the subset receives, in order, one point
    of each pair [(2k, 2k+1)] of the remaining points, the generator is
    called once for each, and the points from position [R] on stay. *)
Lemma subset_step_picks {A} s (st : Ladder A) :
  s <> 0 -> 0 <= l_remainingPoints st ->
  l_last st = l_remainingPoints st - 1 ->
  l_remainingPoints st <= Z.of_nat (length (l_points st)) ->
  let R := l_remainingPoints st in
  let size := R `div` 2 in
  let g := l_rng st in
  let st' := subset_step s st in
  (forall k : nat, Z.of_nat k < size ->
     l_points st' !! Z.to_nat (R - size + Z.of_nat k)
     = l_points st
         !! Z.to_nat (2 * Z.of_nat k
                      + rng_draws g (rng_pos g + k) `mod` 2))
  /\ (forall j : nat, R <= Z.of_nat j ->
        l_points st' !! j = l_points st !! j)
  /\ l_rng st' = Mt19937 (rng_draws g) (rng_pos g + Z.to_nat size).
Proof.
  intros Hs HR Hlast Hlen R size g st'. subst st'. unfold subset_step.
  fold R.
  destruct (Z.eqb_spec s 0) as [|_]; [done|]. cbn [negb].
  rewrite Z.shiftr_div_pow2 by lia. change (2 ^ 1) with 2. fold size.
  assert (Hsize : 0 <= size /\ 2 * size <= R).
  { subst size. split; [apply Z.div_pos; lia|].
    apply Z.mul_div_le. lia. }
  destruct (pick_indices_closed R (Z.to_nat size) 0 g) as (P1 & P2 & P3);
    [lia | lia |].
  fold g.
  destruct (pick_indices R (Z.to_nat size) 0 g) as [indices g'].
  cbn [fst snd] in P1, P2, P3.
  destruct (move_to_end_picks (rev indices) (l_points st) (l_last st))
    as [M1 M2].
  - intros t a Ht. apply rev_lookup_Some in Ht as [Ht Hlt].
    apply P1 in Ht.
    pose proof (Z.mod_pos_bound
                  (rng_draws g (rng_pos g + (length indices - S t)))
                  2 ltac:(lia)).
    lia.
  - intros t t' a a' Htt Ht Ht'.
    apply rev_lookup_Some in Ht as [Ht Hlt].
    apply rev_lookup_Some in Ht' as [Ht' Hlt'].
    apply P1 in Ht, Ht'.
    pose proof (Z.mod_pos_bound
                  (rng_draws g (rng_pos g + (length indices - S t)))
                  2 ltac:(lia)).
    pose proof (Z.mod_pos_bound
                  (rng_draws g (rng_pos g + (length indices - S t')))
                  2 ltac:(lia)).
    lia.
  - lia.
  - destruct (move_to_end (l_points st) (rev indices) (l_last st))
      as [pts last].
    cbn [fst snd l_points l_rng] in *.
    split; [|split; [|done]].
    + intros k Hk.
      destruct (lookup_lt_is_Some_2 indices k) as [x Hx]; [lia|].
      pose proof (P1 _ _ Hx) as Hxv.
      assert (Hr : rev indices !! (length indices - S k)%nat = Some x).
      { apply rev_lookup_Some. split; [|lia].
        replace (length indices - S (length indices - S k))%nat with k
          by lia. done. }
      specialize (M1 _ _ Hr).
      replace (l_last st - Z.of_nat (length indices - S k))
        with (R - size + Z.of_nat k) in M1 by lia.
      rewrite M1. f_equal. lia.
    + intros j Hj. apply M2. lia.
Qed.

(** The rounds of the subset generation leave the points from position
    [remainingPoints] on, and the octrees of the subsets built before. *)
Lemma subset_loop_frame {A} n : forall (st : Ladder A),
  0 <= l_remainingPoints st ->
  l_last st = l_remainingPoints st - 1 ->
  l_remainingPoints st <= Z.of_nat (length (l_points st)) ->
  (forall j : nat, l_remainingPoints st <= Z.of_nat j ->
     l_points (subset_loop n st) !! j = l_points st !! j)
  /\ (forall j : nat, (n <= j)%nat ->
        l_octrees (subset_loop n st) !! j = l_octrees st !! j).
Proof.
  induction n as [|n IH]; intros st HR Hlast Hlen; [done|].
  cbn [subset_loop].
  destruct (decide (n = 0%nat)) as [->|Hn0].
  - cbn [subset_loop]. unfold subset_step. simpl. split; [done|].
    intros j Hj. rewrite list_lookup_insert_ne by lia. done.
  - destruct (subset_step_pick (Z.of_nat n) st ltac:(lia) HR)
      as (_ & Hl & Hla & Hrem & Hoc & _).
    destruct (subset_step_picks (Z.of_nat n) st ltac:(lia) HR Hlast Hlen)
      as (_ & Hfr & _).
    assert (0 <= l_remainingPoints st `div` 2 <= l_remainingPoints st).
    { split; [apply Z.div_pos; lia|].
      apply Z.div_le_upper_bound; lia. }
    destruct (IH (subset_step (Z.of_nat n) st)) as [I1 I2]; [lia..|].
    split.
    + intros j Hj. rewrite I1 by lia. by apply Hfr.
    + intros j Hj. rewrite I2 by lia. rewrite Hoc, Nat2Z.id.
      apply list_lookup_insert_ne. lia.
Qed.

Section Coverage.

Context {Input Factory Fit Indexed_octree : Type}.
Context `{collab : !@Collaborators Input Factory Fit Indexed_octree}.

Implicit Types (e : @Engine Input Factory Fit Indexed_octree).
Implicit Types (c best : @Shape Fit) (loc : @Locals Fit).
Implicit Types (opts : Parameters) (input : list Input).

Lemma power_min_monotone (c c' P L : Q) (d d' : Z) :
  (0 < P)%Q -> (0 < L)%Q -> (0 <= c)%Q -> (c <= c')%Q -> (c' <= 3 * P * L)%Q ->
  0 <= d <= d' ->
  let sp := fun (c : Q) (d : Z) => Qmin ((1 - c / (P * L * 3)) ^ d) 1 in
  (0 <= sp c d /\ sp c d <= 1)%Q
  /\ (sp c 0%Z == 1)%Q
  /\ (sp c d' <= sp c d)%Q
  /\ (sp c' d <= sp c d)%Q.
Proof.
  intros HP HL Hc0 Hcc Hc' Hd sp. subst sp. cbv beta.
  assert (Hc : (c <= 3 * P * L)%Q) by (eapply Qle_trans; eassumption).
  assert (Hc0' : (0 <= c')%Q) by (eapply Qle_trans; eassumption).
  destruct (StopProbability_base c P L HP HL Hc0 Hc) as [Hb0 Hb1].
  destruct (StopProbability_base c' P L HP HL Hc0' Hc') as [Hb0' Hb1'].
  rewrite <- (Z2Nat.id d), <- (Z2Nat.id d') by lia.
  split; [split|split; [|split]].
  - apply Q.min_glb; [by apply Qpower_0_le | done].
  - apply Q.le_min_r.
  - simpl. apply Q.min_l. apply Qle_refl.
  - apply Q.min_le_compat_r. apply Qpower_exp_le; (done || lia).
  - apply Q.min_le_compat_r. apply Qpower_base_le; [done|].
    unfold Qminus. apply Qplus_le_r, Qopp_le_compat.
    unfold Qdiv. apply Qmult_le_compat_r; [done|].
    apply Qinv_le_0_compat, Qlt_le_weak.
    apply Qmult_lt_0_compat; [by apply Qmult_lt_0_compat | done].
Qed.

(** X13.  For [P > 0] available points, an octree depth [L > 0] and candidate
    sizes [0 <= c <= c' <= 3 P L], and [0 <= d <= d'] candidates drawn:
    [StopProbability] is a probability, it is 1 when no candidate has been
    drawn, it does not grow when more candidates are drawn, and it does not
    grow with the size of the candidate. *)
Theorem StopProbability_monotone (c c' P L : Q) (d d' : Z) :
  (0 < P)%Q -> (0 < L)%Q -> (0 <= c)%Q -> (c <= c')%Q -> (c' <= 3 * P * L)%Q ->
  0 <= d <= d' ->
  let sp := fun (c : Q) (d : Z) =>
    StopProbability (FT_of_Q c) (FT_of_Q P) d (FT_of_Q L) in
  (FT_le (FT_of_Q 0) (sp c d) /\ FT_le (sp c d) (FT_of_Q 1))
  /\ FT_eq (sp c 0) (FT_of_Q 1)
  /\ FT_le (sp c d') (sp c d)
  /\ FT_le (sp c' d) (sp c d).
Proof.
  intros HP HL Hc0 Hcc Hc' Hd sp.
  assert (HPL : ~ (P * L == 0)%Q).
  { intros H. apply (Qlt_irrefl 0). rewrite <- H at 2.
    by apply Qmult_lt_0_compat. }
  destruct (power_min_monotone c c' P L d d' HP HL Hc0 Hcc Hc' Hd)
    as ((G1 & G2) & G3 & G4 & G5).
  destruct (StopProbability_finite c P d L HPL ltac:(lia)) as (q & Hq & Hv).
  destruct (StopProbability_finite c P 0 L HPL ltac:(lia)) as (q0 & Hq0 & Hv0).
  destruct (StopProbability_finite c P d' L HPL ltac:(lia))
    as (q' & Hq' & Hv').
  destruct (StopProbability_finite c' P d L HPL ltac:(lia))
    as (r & Hr & Hw).
  subst sp. cbv beta. rewrite Hq, Hq0, Hq', Hr. unfold FT_le.
  rewrite !FT_leb_of_Q, !Qle_bool_iff, Hv, Hv', Hw.
  split; [by split|]. split; [|by split].
  apply FT_eq_of_Q. by rewrite Hv0.
Qed.


(** ** The view of unassigned points *)

(** X14.  In any state of the engine, the indices met from
    [unassigned_points_begin()] up to [unassigned_points_end()] are, in
    increasing order, the positions of the assignment map that hold -1: an
    index is in the view exactly when it is a position of the map and the
    map holds -1 there. *)
Theorem unassigned_view_lists_free_positions e :
  unassigned_points e
  = filter (fun x => vec_at (m_shapeIndex e) x = -1)
      (seqZ 0 (Z.of_nat (length (m_shapeIndex e))))
  /\ forall i, i ∈ unassigned_points e <->
       0 <= i < Z.of_nat (length (m_shapeIndex e))
       /\ m_shapeIndex e !! Z.to_nat i = Some (-1).
Proof.
  split; [apply unassigned_points_spec|].
  intros i. rewrite unassigned_points_spec, list_elem_of_filter, elem_of_seqZ.
  unfold vec_at. split.
  - intros [Hv Hi]. split; [lia|].
    destruct (m_shapeIndex e !! Z.to_nat i) as [v|] eqn:Hl;
      simpl in Hv; [by subst v|].
    apply lookup_ge_None in Hl. lia.
  - intros [Hi Hl]. rewrite Hl. split; [done | lia].
Qed.

(** ** What [detect] adds and what it leaves alone *)

Lemma mark_assigned_values pts : forall id e numInv (j : nat) v,
  m_shapeIndex (mark_assigned pts id e numInv).1 !! j = Some v ->
  (v = id /\ exists idx, idx ∈ pts /\ Z.to_nat idx = j)
  \/ m_shapeIndex e !! j = Some v.
Proof.
  induction pts as [|a rest IH]; intros id e numInv j v; simpl; [by right|].
  intros Hv. apply IH in Hv as [(-> & idx & Hin & Hj)|Hv].
  - left. split; [done|]. exists idx. split; [|done].
    apply elem_of_cons. by right.
  - simpl in Hv. destruct (decide (Z.to_nat a = j)) as [Ha|Hne].
    + left. subst j. pose proof (lookup_lt_Some _ _ _ Hv) as Hlt.
      rewrite length_insert in Hlt.
      rewrite list_lookup_insert_eq in Hv by done. injection Hv as <-.
      split; [done|]. exists a. split; [|done]. apply elem_of_cons. by left.
    + right. by rewrite list_lookup_insert_ne in Hv.
Qed.

Lemma claimed_app (l1 l2 : list (@Shape Fit)) :
  claimed (l1 ++ l2) = claimed l1 + claimed l2.
Proof.
  unfold claimed. rewrite fmap_app, concat_app, length_app. lia.
Qed.

(** A decision adds at most the best candidate, and only with at least
    [min_points] points; the count of taken points grows by its claim. *)
Lemma decide_commit_shapes e opts loc best e' loc' :
  decide_commit e opts loc best = (e', loc') ->
  frame e' = frame e
  /\ length (m_shapeIndex e') = length (m_shapeIndex e)
  /\ exists new,
       m_extractedShapes e' = m_extractedShapes e ++ new
       /\ Forall (fun S => min_points opts
                           <= Z.of_nat (length (assigned_points S))) new
       /\ numInvalid loc' = numInvalid loc + claimed new
       /\ (forall (j : nat) v, m_shapeIndex e' !! j = Some v ->
             m_shapeIndex e !! j = Some v
             \/ v = Z.of_nat (length (m_extractedShapes e))
                /\ new = [best]
                /\ exists idx, idx ∈ assigned_points best
                               /\ Z.to_nat idx = j).
Proof.
  unfold decide_commit.
  assert (Hnone : forall loc0, numInvalid loc0 = numInvalid loc ->
            frame e = frame e
            /\ length (m_shapeIndex e) = length (m_shapeIndex e)
            /\ exists new,
                 m_extractedShapes e = m_extractedShapes e ++ new
                 /\ Forall (fun S => min_points opts
                              <= Z.of_nat (length (assigned_points S))) new
                 /\ numInvalid loc0 = numInvalid loc + claimed new
                 /\ (forall (j : nat) v, m_shapeIndex e !! j = Some v ->
                       m_shapeIndex e !! j = Some v
                       \/ v = Z.of_nat (length (m_extractedShapes e))
                          /\ new = [best]
                          /\ exists idx, idx ∈ assigned_points best
                                         /\ Z.to_nat idx = j)).
  { intros loc0 Hloc0. split; [done|]. split; [done|]. exists [].
    rewrite app_nil_r. split; [done|]. split; [constructor|].
    split; [unfold claimed; simpl; lia|]. intros j v Hv. by left. }
  destruct (FT_leb _ _); [|intros [= <- <-]; by apply Hnone].
  destruct (Z.leb_spec (min_points opts)
              (Z.of_nat (length (assigned_points best)))) as [Hm|Hm];
    [|intros [= <- <-]; by apply Hnone].
  unfold commit.
  set (e1 := set_extractedShapes e (m_extractedShapes e ++ [best])).
  set (id := Z.of_nat (length (m_extractedShapes e1)) - 1).
  assert (Hid : id = Z.of_nat (length (m_extractedShapes e))).
  { unfold id, e1. simpl. rewrite length_app. simpl. lia. }
  destruct (mark_assigned_frame (assigned_points best) id e1 (numInvalid loc))
    as (Hfix & Hex & Hlen & Hnum).
  pose proof (mark_assigned_values (assigned_points best) id e1
                (numInvalid loc)) as Hval.
  destruct (mark_assigned (assigned_points best) id e1 (numInvalid loc))
    as [e2 numInv].
  simpl in *. intros [= <- <-]. simpl.
  split; [unfold frame, fixed_members in *; simpl in *; congruence|].
  split; [done|]. exists [best]. split; [done|].
  split; [by repeat constructor|].
  split; [unfold claimed; simpl; rewrite app_nil_r; lia|].
  intros j v Hv. apply Hval in Hv as [[-> Hidx]|Hv]; [right | by left].
  done.
Qed.

Lemma members_frame e e' : members e' = members e -> frame e' = frame e.
Proof. unfold members, frame. intros [= ]. congruence. Qed.

Lemma iteration_shapes fuel e opts loc brk e' loc' :
  iteration fuel e opts loc = Some (brk, e', loc') ->
  frame e' = frame e
  /\ length (m_shapeIndex e') = length (m_shapeIndex e)
  /\ (map_in_range e -> map_in_range e')
  /\ exists new,
       m_extractedShapes e' = m_extractedShapes e ++ new
       /\ Forall (fun S => min_points opts
                           <= Z.of_nat (length (assigned_points S))) new
       /\ numInvalid loc' = numInvalid loc + claimed new.
Proof.
  unfold iteration. intros Hit.
  destruct (generate_candidates fuel e opts (set_bestExp loc 0))
    as [[e1 loc1]|] eqn:Hg; [|done].
  simpl in Hit.
  pose proof (generate_candidates_numInvalid _ _ _ _ _ _ Hg) as Hni.
  apply generate_candidates_members in Hg. simpl in Hni.
  pose proof (members_frame _ _ Hg) as Hfr.
  unfold members in Hg. injection Hg as _ _ _ _ Hsi _ Hex _ _.
  assert (Hsame : frame e1 = frame e
            /\ length (m_shapeIndex e1) = length (m_shapeIndex e)
            /\ (map_in_range e -> map_in_range e1)
            /\ exists new,
                 m_extractedShapes e1 = m_extractedShapes e ++ new
                 /\ Forall (fun S => min_points opts
                              <= Z.of_nat (length (assigned_points S))) new
                 /\ numInvalid loc1 = numInvalid loc + claimed new).
  { split; [done|]. split; [by rewrite Hsi|].
    split; [unfold map_in_range; by rewrite Hsi, Hex|].
    exists []. rewrite app_nil_r. split; [done|]. split; [constructor|].
    unfold claimed. simpl. lia. }
  destruct (forceExit loc1); [by injection Hit as _ <- <-|].
  destruct (bool_decide _); [by injection Hit as _ <- <-|].
  destruct (getBestCandidate fuel e1 opts (candidates loc1) _)
    as [cands|]; [|done].
  simpl in Hit. destruct (last cands) as [b|]; [|done]. simpl in Hit.
  destruct (decide_commit e1 opts _ (verify_best e1 opts b))
    as [e2 loc2] eqn:Hd.
  injection Hit as _ <- <-.
  destruct (decide_commit_shapes _ _ _ _ _ _ Hd)
    as (Hfr2 & Hlen2 & new & Hnew & Hmin & Hnum & Hval).
  split; [congruence|]. split; [congruence|]. split.
  - unfold map_in_range. rewrite <- Hsi, <- Hex, Hnew.
    rewrite !Forall_lookup. intros Hr j v Hv.
    apply Hval in Hv as [Hv|(-> & -> & _)].
    + apply Hr in Hv as [->|Hv]; [by left|]. right.
      rewrite length_app. lia.
    + right. rewrite length_app. simpl. lia.
  - exists new. rewrite <- Hex. split; [done|]. split; [done|].
    simpl in Hnum. lia.
Qed.

Lemma run_shapes opts s s' :
  run opts s s' ->
  frame s'.1 = frame s.1
  /\ length (m_shapeIndex s'.1) = length (m_shapeIndex s.1)
  /\ (map_in_range s.1 -> map_in_range s'.1)
  /\ exists new,
       m_extractedShapes s'.1 = m_extractedShapes s.1 ++ new
       /\ Forall (fun S => min_points opts
                           <= Z.of_nat (length (assigned_points S))) new
       /\ numInvalid s'.2 = numInvalid s.2 + claimed new.
Proof.
  induction 1 as [s|s fuel brk e' loc' s'' Hit Hrun IH].
  - split; [done|]. split; [done|]. split; [done|].
    exists []. rewrite app_nil_r. split; [done|]. split; [constructor|].
    unfold claimed. simpl. lia.
  - destruct (iteration_shapes _ _ _ _ _ _ _ Hit)
      as (F1 & L1 & R1 & new1 & N1 & M1 & C1).
    destruct IH as (F2 & L2 & R2 & new2 & N2 & M2 & C2). simpl in *.
    split; [congruence|]. split; [congruence|]. split; [tauto|].
    exists (new1 ++ new2). rewrite N2, N1, app_assoc. split; [done|].
    split; [by apply Forall_app|]. rewrite claimed_app. lia.
Qed.

(** X4.  A [detect] that returns has only appended shapes to the extracted
    ones, each with at least [min_points] assigned points, and has brought
    [number_of_unassigned_points()] down by the number of points that the
    new shapes claim. *)
Theorem detect_appends_shapes fuel e opts e' :
  detect fuel e opts = Some e' ->
  exists new,
    m_extractedShapes e' = m_extractedShapes e ++ new
    /\ Forall (fun S => min_points opts
                        <= Z.of_nat (length (assigned_points S))) new
    /\ number_of_shapes e' = number_of_shapes e + Z.of_nat (length new)
    /\ number_of_unassigned_points e'
       = number_of_unassigned_points e
         - Z.of_nat (length (concat (assigned_points <$> new))).
Proof.
  intros Hd.
  apply detect_run in Hd as [[_ ->]|(e1 & loc1 & Hrun & _ & _ & ->)].
  - exists []. rewrite app_nil_r. split; [done|]. split; [constructor|].
    simpl. lia.
  - apply run_shapes in Hrun as (Hfr & _ & _ & new & Hnew & Hmin & Hnum).
    simpl in *. exists new. split; [done|]. split; [done|].
    unfold number_of_shapes, number_of_unassigned_points. simpl.
    rewrite Hnew, length_app. split; [lia|].
    unfold frame in Hfr. simpl in Hfr. injection Hfr as _ _ _ HN _ _.
    unfold claimed in Hnum. lia.
Qed.

(** X3.  A [detect] that finds a registered factory stores its options,
    gives the assignment map one entry for each of the points that were
    unassigned at the call, and leaves the point array, the subsets and
    their octrees and the factories as they were; when the map held only -1
    or positions of extracted shapes before, it does so afterwards. *)
Theorem detect_frame fuel e opts e' :
  m_shapeFactories e <> [] ->
  detect fuel e opts = Some e' ->
  m_options e' = Some opts
  /\ length (m_shapeIndex e') = Z.to_nat (m_numAvailablePoints e)
  /\ m_input e' = m_input e
  /\ m_direct_octrees e' = m_direct_octrees e
  /\ m_num_subsets e' = m_num_subsets e
  /\ m_shapeFactories e' = m_shapeFactories e
  /\ (Forall (fun v => v = -1
                       \/ 0 <= v < Z.of_nat (length (m_extractedShapes e)))
        (m_shapeIndex e) ->
      Forall (fun v => v = -1
                       \/ 0 <= v < Z.of_nat (length (m_extractedShapes e')))
        (m_shapeIndex e')).
Proof.
  intros Hf Hd.
  apply detect_run in Hd as [[Hnil _]|(e1 & loc1 & Hrun & _ & _ & ->)];
    [done|].
  apply run_shapes in Hrun as (Hfr & Hlen & Hrange & _).
  simpl in *. unfold frame in Hfr. simpl in Hfr.
  injection Hfr as -> -> -> _ -> ->.
  rewrite length_resize in Hlen.
  repeat (split; [done|]).
  intros Hr. apply Hrange. unfold map_in_range. simpl.
  rewrite resize_spec.
  apply Forall_app. split.
  - by apply Forall_take.
  - apply Forall_replicate. by left.
Qed.


(** ** [improveBound] *)

Lemma sum_sizes_below_succ (sizes : list Z) u :
  0 <= u ->
  sum_sizes_below sizes (u + 1) = sum_sizes_below sizes u + vec_at sizes u.
Proof.
  intros Hu. unfold sum_sizes_below.
  rewrite seqZ_app by lia. rewrite foldl_app. simpl. done.
Qed.

(** The loop of lines 598-606 takes subsets until they hold [min_pts]
    points or none is left, and no more than that. *)
Lemma improve_loop_spec n : forall e opts c npe nsp mp,
  let K := m_num_subsets e in
  let u := m_nb_subset_used c in
  let sizes := m_availableOctreeSizes e in
  0 <= u < K -> Z.to_nat (K - u) = n ->
  let r := improve_loop n e opts c npe nsp mp in
  let u' := m_nb_subset_used r.1 in
  u < u' <= K
  /\ m_fit r.1 = m_fit c
  /\ r.2 = npe + (sum_sizes_below sizes u' - sum_sizes_below sizes u)
  /\ (u' = K
      \/ mp <= nsp + (sum_sizes_below sizes u' - sum_sizes_below sizes u))
  /\ (forall u'', u < u'' < u' ->
        nsp + (sum_sizes_below sizes u'' - sum_sizes_below sizes u) < mp).
Proof.
  induction n as [|n IH]; intros e opts c npe nsp mp K u sizes Hu Hn;
    [lia|].
  cbn [improve_loop]. fold u. fold sizes. fold K.
  set (sc := match m_direct_octrees e !! Z.to_nat u with
             | Some (Some o) =>
                 direct_score o (m_input e) c (m_shapeIndex e)
                   (epsilon opts) (normal_threshold opts)
             | _ => (c, 0)
             end).
  assert (Hsc : m_nb_subset_used sc.1 = u /\ m_fit sc.1 = m_fit c).
  { unfold sc. destruct (m_direct_octrees e !! Z.to_nat u) as [[o|]|]; done. }
  destruct sc as [c1 newScore]. simpl in Hsc. destruct Hsc as [Hu1 Hf1].
  set (c3 := set_nb_subset_used (set_score c1 (m_score c1 + newScore))
               (u + 1)).
  assert (Hstop :
    let u' := m_nb_subset_used c3 in
    (nsp + vec_at sizes u <? mp) && (u + 1 <? K) = false ->
    u < u' <= K
    /\ m_fit c3 = m_fit c
    /\ npe + vec_at sizes u
       = npe + (sum_sizes_below sizes u' - sum_sizes_below sizes u)
    /\ (u' = K
        \/ mp <= nsp + (sum_sizes_below sizes u' - sum_sizes_below sizes u))
    /\ (forall u'', u < u'' < u' ->
          nsp + (sum_sizes_below sizes u'' - sum_sizes_below sizes u) < mp)).
  { intros u' Hc. subst u'. simpl.
    rewrite sum_sizes_below_succ by lia.
    split; [lia|]. split; [done|]. split; [lia|]. split; [|intros; lia].
    apply andb_false_iff in Hc as [Hc|Hc].
    - apply Z.ltb_ge in Hc. right. lia.
    - apply Z.ltb_ge in Hc. left. lia. }
  destruct ((nsp + vec_at sizes u <? mp) && (u + 1 <? K)) eqn:Hc;
    [|by apply Hstop].
  apply andb_true_iff in Hc as [Hc1 Hc2].
  apply Z.ltb_lt in Hc1, Hc2.
  destruct n as [|n]; [lia|].
  specialize (IH e opts c3 (npe + vec_at sizes u) (nsp + vec_at sizes u) mp).
  cbv zeta in IH. change (m_nb_subset_used c3) with (u + 1) in IH.
  change (m_fit c3) with (m_fit c1) in IH. fold K sizes in IH.
  destruct IH as (H1 & H2 & H3 & H4 & H5); [lia | lia |].
  set (r := improve_loop (S n) e opts c3 _ _ mp) in *. clearbody r.
  rewrite sum_sizes_below_succ in H3, H4, H5 by lia.
  split; [lia|]. split; [congruence|]. split; [lia|]. split.
  - destruct H4 as [H4|H4]; [by left | right; lia].
  - intros u'' Hu''. destruct (decide (u'' = u + 1)) as [->|Hne].
    + rewrite sum_sizes_below_succ by lia. lia.
    + specialize (H5 u'' ltac:(lia)). lia.
Qed.

(** X10.  [improveBound] on a candidate that has used [u >= 0] subsets.  It
    returns [false] and leaves the candidate as it is exactly when
    [u >= max_subset] or all [m_num_subsets] subsets are used.  Otherwise it
    returns [true], the candidate has used [u' > u] subsets, at most all of
    them: the fewest further subsets that hold [min_points] points by their
    counters, or all that are left; its score is the number of its indices
    and its bounds are those of the bound engine for the points of the
    [u'] subsets used. *)
Theorem improveBound_progress e opts c P max_subset mp :
  0 <= m_nb_subset_used c ->
  let K := m_num_subsets e in
  let u := m_nb_subset_used c in
  let sizes := m_availableOctreeSizes e in
  let r := improveBound e opts c P max_subset mp in
  let u' := m_nb_subset_used r.2 in
  (r.1 = false <-> max_subset <= u \/ K <= u)
  /\ (r.1 = false -> r.2 = c)
  /\ (r.1 = true ->
      u < u' <= K
      /\ (u' = K
          \/ mp <= sum_sizes_below sizes u' - sum_sizes_below sizes u)
      /\ (forall u'', u < u'' < u' ->
            sum_sizes_below sizes u'' - sum_sizes_below sizes u < mp)
      /\ m_fit r.2 = m_fit c
      /\ m_score r.2 = Z.of_nat (length (m_indices r.2))
      /\ (min_bound r.2, max_bound r.2, expected_value r.2)
         = bound_engine (Z.of_nat (length (m_indices r.2)))
             (sum_sizes_below sizes u') P).
Proof.
  intros Hu K u sizes r u'. subst r u'. unfold improveBound. fold K u.
  destruct (Z.leb_spec max_subset u) as [Hm|Hm].
  { simpl. split; [split; [by left | done]|]. split; done. }
  destruct (Z.leb_spec K u) as [HK|HK].
  { simpl. split; [split; [by right | done]|]. split; done. }
  set (c0 := set_nb_subset_used c u).
  pose proof (improve_loop_spec (Z.to_nat (K - u)) e opts c0
                (sum_sizes_below sizes u) 0 mp) as Hl.
  cbv zeta in Hl. change (m_nb_subset_used c0) with u in Hl.
  change (m_fit c0) with (m_fit c) in Hl. fold K sizes in Hl.
  destruct Hl as (H1 & H2 & H3 & H4 & H5); [lia | done |].
  change (m_nb_subset_used c0) with u. fold sizes.
  destruct (improve_loop (Z.to_nat (K - u)) e opts c0
              (sum_sizes_below sizes u) 0 mp) as [c1 npe].
  cbn [fst snd] in *.
  cbn [compute_bound set_bounds set_score m_nb_subset_used m_fit m_score
       m_indices min_bound max_bound expected_value].
  split; [split; [done | lia]|]. split; [done|]. intros _.
  split; [done|]. split; [destruct H4; [by left | right; lia]|].
  split; [intros u'' Hu''; specialize (H5 u'' Hu''); lia|].
  split; [done|]. split; [done|].
  subst npe. replace (sum_sizes_below sizes u
                      + (sum_sizes_below sizes (m_nb_subset_used c1)
                         - sum_sizes_below sizes u))
    with (sum_sizes_below sizes (m_nb_subset_used c1)) by lia.
  by destruct (bound_engine _ _ _) as [[a b] d].
Qed.


(** ** Candidate generation *)

(** What the loop over the factories adds to the locals. *)
Lemma add_candidates_accounts (fs : list Factory) : forall e opts indices loc,
  let loc' := add_candidates fs e opts indices loc in
  exists new,
    candidates loc' = candidates loc ++ new
    /\ Z.of_nat (length new)
       + (nbFailedCandidates loc' - nbFailedCandidates loc)
       = Z.of_nat (length fs)
    /\ Forall (fun p => (inject_Z (min_points opts) <= max_bound p)%Q
                        /\ (expected_value p <= bestExp loc')%Q) new
    /\ (bestExp loc <= bestExp loc')%Q
    /\ nbNewCandidates loc' = nbNewCandidates loc.
Proof.
  induction fs as [|f fs IH]; intros e opts indices loc; simpl.
  - exists []. rewrite app_nil_r. split; [done|]. split; [simpl; lia|].
    split; [constructor|]. split; [apply Qle_refl | done].
  - match goal with
    | |- context [add_candidates fs e opts indices ?l] =>
        destruct (IH e opts indices l) as (new & H1 & H2 & H3 & H4 & H5);
        set (loc1 := l) in *
    end.
    assert (Hone : exists new1,
              candidates loc1 = candidates loc ++ new1
              /\ Z.of_nat (length new1)
                 + (nbFailedCandidates loc1 - nbFailedCandidates loc) = 1
              /\ Forall (fun p => (inject_Z (min_points opts) <= max_bound p)%Q
                                  /\ (expected_value p <= bestExp loc1)%Q) new1
              /\ (bestExp loc <= bestExp loc1)%Q
              /\ nbNewCandidates loc1 = nbNewCandidates loc).
    { subst loc1.
      destruct (compute _ _ _ _ _) as [fit|].
      2:{ exists []. simpl. rewrite app_nil_r. split; [done|]. split; [lia|].
          split; [constructor|]. split; [apply Qle_refl | done]. }
      destruct (improveBound _ _ _ _ _ _) as [b p].
      destruct (Qle_bool (inject_Z (min_points opts)) (max_bound p)) eqn:Hq.
      2:{ exists []. simpl. rewrite app_nil_r. split; [done|]. split; [lia|].
          split; [constructor|]. split; [apply Qle_refl | done]. }
      apply Qle_bool_iff in Hq. exists [p]. simpl.
      split; [done|]. split; [lia|].
      destruct (Qle_bool (expected_value p) (bestExp loc)) eqn:Hb; simpl.
      - apply Qle_bool_iff in Hb.
        split; [by repeat constructor|]. split; [apply Qle_refl | done].
      - split; [repeat constructor; [done | apply Qle_refl]|].
        split; [|done]. apply Qlt_le_weak, Qnot_le_lt. intros Hle.
        apply Qle_bool_iff in Hle. congruence. }
    destruct Hone as (new1 & G1 & G2 & G3 & G4 & G5).
    exists (new1 ++ new). rewrite H1, G1, app_assoc. split; [done|].
    rewrite length_app. split; [lia|]. split.
    + apply Forall_app. split; [|done].
      eapply Forall_impl; [exact G3|]. simpl. intros p [Hp1 Hp2].
      split; [done|]. eapply Qle_trans; eassumption.
    + split; [eapply Qle_trans; eassumption | congruence].
Qed.

(** One round of the candidate generation (lines 298-339) that returns:
    the count of drawn candidates grows by one, every registered factory
    yields one candidate, which joins the pool at its end with an upper bound
    of at least [min_points] or else counts as failed; [bestExp] does not
    shrink and is not below the expected value of a candidate that joined;
    no point is taken and nothing of the engine but the generator and the
    global octree is written. *)
Lemma generate_round_spec fuel e opts loc e' loc' :
  generate_round fuel e opts loc = Some (e', loc') ->
  nbNewCandidates loc' = nbNewCandidates loc + 1
  /\ numInvalid loc' = numInvalid loc
  /\ members e' = members e
  /\ (bestExp loc <= bestExp loc')%Q
  /\ exists new,
       candidates loc' = candidates loc ++ new
       /\ Z.of_nat (length new)
          + (nbFailedCandidates loc' - nbFailedCandidates loc)
          = Z.of_nat (length (m_shapeFactories e))
       /\ Forall (fun p => (inject_Z (min_points opts) <= max_bound p)%Q
                           /\ (expected_value p <= bestExp loc')%Q) new.
Proof.
  intros Hg.
  pose proof (generate_round_members _ _ _ _ _ _ Hg) as Hmem.
  destruct (generate_round_locals _ _ _ _ _ _ Hg) as (Hni & _ & _).
  unfold generate_round in Hg.
  destruct (draw_sample fuel e []) as [[indices e1]|] eqn:Hd; [|done].
  simpl in Hg.
  match type of Hg with
  | context [add_candidates ?fs e1 opts indices ?l] =>
      destruct (add_candidates_accounts fs e1 opts indices l)
        as (new & H1 & H2 & H3 & H4 & H5);
      set (loc1 := add_candidates fs e1 opts indices l) in *
  end.
  simpl in H1, H2, H4, H5.
  assert (Hfs : m_shapeFactories e1 = m_shapeFactories e).
  { apply draw_sample_members in Hd. unfold members in Hd. congruence. }
  rewrite Hfs in H2.
  injection Hg as <- <-.
  destruct (10000 <=? nbFailedCandidates loc1); simpl;
    (split; [done|]; split; [done|]; split; [done|]; split; [done|];
     exists new; done).
Qed.

(** ** Sampling *)

(** X6.  The first sample of a candidate (lines 303-305), when one is
    returned on an engine with [m_numAvailablePoints > 0]: it is an index
    below [m_numAvailablePoints] at which the assignment map holds -1, and
    nothing but the generator has changed. *)
Theorem first_sample_is_unassigned fuel e firstSample e' :
  0 < m_numAvailablePoints e ->
  draw_first_sample fuel e = Some (firstSample, e') ->
  0 <= firstSample < m_numAvailablePoints e
  /\ vec_at (m_shapeIndex e) firstSample = -1
  /\ members e' = members e
  /\ m_global_octree e' = m_global_octree e
  /\ rng_draws (m_rng e') = rng_draws (m_rng e)
  /\ (rng_pos (m_rng e) < rng_pos (m_rng e'))%nat.
Proof.
  revert e. induction fuel as [|fuel IH]; intros e HN; simpl; [done|].
  destruct (Z.eqb_spec (vec_at (m_shapeIndex e)
                          (rng_draws (m_rng e) (rng_pos (m_rng e))
                           `mod` m_numAvailablePoints e)) (-1)) as [Heq|Hne];
    simpl.
  - intros [= <- <-]. simpl.
    split; [by apply Z.mod_pos_bound|]. repeat split; (done || lia).
  - intros Hd. apply IH in Hd; [|done]. simpl in Hd.
    destruct Hd as (H1 & H2 & H3 & H4 & H5 & H6).
    repeat split; (done || lia).
Qed.

(** Without an unassigned point below [m_numAvailablePoints] the loop of
    lines 303-305 does not end. *)
Lemma draw_first_sample_never fuel : forall e,
  0 < m_numAvailablePoints e ->
  (forall i, 0 <= i < m_numAvailablePoints e ->
     vec_at (m_shapeIndex e) i <> -1) ->
  draw_first_sample fuel e = None.
Proof.
  induction fuel as [|fuel IH]; intros e HN Hall; simpl; [done|].
  pose proof (Z.mod_pos_bound (rng_draws (m_rng e) (rng_pos (m_rng e)))
                (m_numAvailablePoints e) HN) as Hr.
  apply Hall in Hr. apply Z.eqb_neq in Hr. rewrite Hr. simpl.
  by apply IH.
Qed.

Lemma main_loop_never fuel e opts loc :
  0 < m_numAvailablePoints e ->
  (forall i, 0 <= i < m_numAvailablePoints e ->
     vec_at (m_shapeIndex e) i <> -1) ->
  main_loop fuel e opts loc = None.
Proof.
  intros HN Hall. destruct fuel as [|fuel]; [done|]. simpl.
  unfold iteration.
  destruct fuel as [|fuel]; [done|]. simpl.
  unfold generate_round.
  destruct fuel as [|fuel]; [done|]. simpl.
  by rewrite draw_first_sample_never.
Qed.

(** X7.  [detect] on an engine with a registered factory and
    [P = m_numAvailablePoints > 0], whose assignment map holds a shape index
    at each of its first [P] positions, as it can after an earlier [detect]:
    the map is cut to its first [P] entries, every first sample hits an
    assigned point, and [detect] does not return, whatever the fuel. *)
Theorem detect_again_never_returns e opts :
  m_shapeFactories e <> [] ->
  0 < m_numAvailablePoints e ->
  (forall i, 0 <= i < m_numAvailablePoints e ->
     exists v, m_shapeIndex e !! Z.to_nat i = Some v /\ v <> -1) ->
  forall fuel, detect fuel e opts = None.
Proof.
  intros Hf HN Hall fuel. unfold detect.
  destruct (m_shapeFactories e) as [|f fs]; [done|].
  replace (Z.of_nat (length (f :: fs)) =? 0) with false
    by (symmetry; apply Z.eqb_neq; simpl; lia).
  rewrite main_loop_never; [done | done |].
  simpl. intros i Hi. destruct (Hall i Hi) as (v & Hv & Hne).
  unfold vec_at. rewrite resize_spec, lookup_app_l.
  - rewrite lookup_take_lt by lia. by rewrite Hv.
  - rewrite length_take. apply lookup_lt_Some in Hv. lia.
Qed.


(** ** The shapes and the view partition the points *)

(** The connected-component filter keeps matched indices only. *)
Hypothesis component_subset :
  forall (f : Fit) (k : Q) (pts : list Input) (l : list Z) i,
    i ∈ largest_component f k pts l -> i ∈ l.

Lemma iteration_covered fuel e opts loc brk e' loc' :
  iteration fuel e opts loc = Some (brk, e', loc') ->
  covered e -> covered e'.
Proof.
  unfold iteration. intros Hit Hcov.
  destruct (generate_candidates fuel e opts (set_bestExp loc 0))
    as [[e1 loc1]|] eqn:Hg; [|done].
  simpl in Hit. apply generate_candidates_members in Hg.
  unfold members in Hg. injection Hg as _ _ _ _ Hsi _ Hex _ _.
  assert (Hcov1 : covered e1) by (unfold covered; by rewrite Hsi, Hex).
  destruct (forceExit loc1); [by injection Hit as _ <- _|].
  destruct (bool_decide _); [by injection Hit as _ <- _|].
  destruct (getBestCandidate fuel e1 opts (candidates loc1) _)
    as [cands|]; [|done].
  simpl in Hit. destruct (last cands) as [b|]; [|done]. simpl in Hit.
  destruct (decide_commit e1 opts _ (verify_best e1 opts b))
    as [e2 loc2] eqn:Hd.
  injection Hit as _ <- _.
  destruct (decide_commit_shapes _ _ _ _ _ _ Hd)
    as (_ & _ & new & Hnew & _ & _ & Hval).
  intros j v Hv Hne. rewrite Hnew.
  apply Hval in Hv as [Hv|(-> & -> & idx & Hidx & <-)].
  - destruct (Hcov1 j v Hv Hne) as (H0 & S & HS & Hin).
    split; [done|]. exists S. split; [|done].
    by apply lookup_app_l_Some.
  - split; [lia|]. exists (verify_best e1 opts b).
    rewrite Nat2Z.id. split.
    + rewrite lookup_app_r by lia. by rewrite Nat.sub_diag.
    + pose proof (verify_best_claim component_subset _ _ _ _ Hidx) as Hm.
      apply matches_true in Hm as [H0 _]. rewrite Z2Nat.id by done. done.
Qed.

Lemma run_covered opts s s' :
  run opts s s' -> covered s.1 -> covered s'.1.
Proof.
  induction 1 as [s|s fuel brk e' loc' s'' Hit Hrun IH]; [done|].
  intros Hcov. apply IH. by apply (iteration_covered _ _ _ _ _ _ _ Hit).
Qed.

(** X16.  After a [detect] that found a registered factory on an engine
    without shapes and with an empty assignment map: each of the points is
    either in the view of unassigned points and in the assigned set of no
    extracted shape, or outside the view and in the assigned set of exactly
    one extracted shape, the one whose position the assignment map holds
    for the point. *)
Theorem points_partition fuel e opts e' :
  m_shapeIndex e = [] -> m_extractedShapes e = [] ->
  m_shapeFactories e <> [] ->
  detect fuel e opts = Some e' ->
  forall i, 0 <= i < m_numAvailablePoints e ->
    (i ∈ unassigned_points e'
     /\ forall S, S ∈ m_extractedShapes e' -> i ∉ assigned_points S)
    \/ ((i ∉ unassigned_points e')
        /\ exists k S,
             m_extractedShapes e' !! k = Some S
             /\ i ∈ assigned_points S
             /\ m_shapeIndex e' !! Z.to_nat i = Some (Z.of_nat k)
             /\ forall k' S', m_extractedShapes e' !! k' = Some S' ->
                  i ∈ assigned_points S' -> k' = k).
Proof.
  intros Hsi Hex Hf Hd i Hi.
  pose proof (detect_claims component_subset _ _ _ _ Hex Hd) as Hok.
  apply detect_run in Hd as [[Hnil _]|(e1 & loc1 & Hrun & _ & _ & ->)];
    [done|].
  pose proof (run_shapes _ _ _ Hrun) as (_ & Hlen & _).
  apply run_covered in Hrun.
  2:{ intros j v Hv Hne. simpl in Hv. rewrite Hsi, resize_nil in Hv.
      apply lookup_replicate in Hv as [-> _]. done. }
  simpl in Hlen, Hrun, Hok. rewrite length_resize in Hlen.
  set (e2 := set_numAvailablePoints e1 _) in *.
  assert (Hmap : m_shapeIndex e2 = m_shapeIndex e1) by done.
  assert (Hsh : m_extractedShapes e2 = m_extractedShapes e1) by done.
  destruct (lookup_lt_is_Some_2 (m_shapeIndex e1) (Z.to_nat i)) as [v Hv];
    [lia|].
  assert (Hview : i ∈ unassigned_points e2 <-> v = -1).
  { rewrite unassigned_points_spec, list_elem_of_filter, elem_of_seqZ.
    unfold vec_at. rewrite Hmap, Hv. simpl. split; [tauto|].
    intros ->. split; [done | lia]. }
  assert (Huniq : forall k S, m_extractedShapes e2 !! k = Some S ->
            i ∈ assigned_points S -> v = Z.of_nat k).
  { intros k S Hk Hin. destruct (Hok k S i Hk Hin) as (_ & Hm & _).
    rewrite Hmap, Hv in Hm. congruence. }
  destruct (decide (v = -1)) as [->|Hne].
  - left. split; [by apply Hview|].
    intros S HS Hin. apply list_elem_of_lookup in HS as [k Hk].
    specialize (Huniq k S Hk Hin). lia.
  - right. split; [by rewrite Hview|].
    destruct (Hrun _ _ Hv Hne) as (H0 & S & HS & Hin).
    rewrite Z2Nat.id in Hin by lia.
    exists (Z.to_nat v), S. rewrite Hsh, Hmap, Hv, Z2Nat.id by done.
    split; [done|]. split; [done|]. split; [done|].
    intros k' S' Hk' Hin'. specialize (Huniq k' S' Hk' Hin'). lia.
Qed.


(** ** The counters of the subsets *)

Lemma foldl_id {A B} (f : A -> B -> A) (l : list B) (a : A) :
  (forall x a', x ∈ l -> f a' x = a') -> foldl f a l = a.
Proof.
  revert a. induction l as [|x l IH]; intros a Hf; simpl; [done|].
  rewrite Hf by (apply elem_of_cons; by left).
  apply IH. intros y a' Hy. apply Hf, elem_of_cons. by right.
Qed.

(** In a tiling every index of the range lies in the slice of exactly one
    octree. *)
Lemma tiling_owner os : forall lo hi idx,
  tiling lo os hi -> lo <= idx < hi ->
  exists (j : nat) o,
    os !! j = Some o
    /\ oct_offset o <= idx /\ idx - oct_offset o < oct_size o
    /\ forall (j' : nat) o', os !! j' = Some o' ->
         oct_offset o' <= idx -> idx - oct_offset o' < oct_size o' -> j' = j.
Proof.
  induction os as [|o os IH]; intros lo hi idx; cbn [tiling]; [lia|].
  intros (Hb & Hoff & Hle & Ht) Hidx.
  pose proof (tiling_bounds _ _ _ Ht) as Hhi.
  assert (Hrest : forall (j' : nat) o', os !! j' = Some o' ->
            oct_end o <= oct_offset o').
  { clear -Ht. revert Ht. generalize (oct_end o). clear o.
    induction os as [|o os IH]; intros lo' Ht j' o' Hj'; [done|].
    cbn [tiling] in Ht. destruct Ht as (Hb & Hoff & Hle & Ht).
    destruct j' as [|j']; simpl in Hj'.
    - injection Hj' as <-. lia.
    - specialize (IH _ Ht _ _ Hj'). lia. }
  destruct (Z.lt_ge_cases idx (oct_end o)) as [Hin|Hout].
  - exists 0%nat, o. unfold oct_size. split; [done|]. split; [lia|].
    split; [lia|]. intros [|j'] o' Hj' H1 H2; [done|]. simpl in Hj'.
    specialize (Hrest _ _ Hj'). lia.
  - destruct (IH (oct_end o) hi idx Ht ltac:(lia)) as (j & o1 & Hj & H1 & H2 & Hu).
    exists (S j), o1. split; [done|]. split; [done|]. split; [done|].
    intros [|j'] o' Hj' G1 G2; simpl in Hj'.
    + injection Hj' as <-. unfold oct_size in G2. lia.
    + f_equal. by apply (Hu j' o').
Qed.

(** For octrees that tile [0, N) and have a root wherever they hold a point,
    the loop of lines 398-409 takes one from exactly one counter, that of the
    subset whose slice holds the index. *)
Lemma adjust_sizes_spec e os (sizes : list Z) idx :
  m_direct_octrees e = Some <$> os ->
  m_num_subsets e = Z.of_nat (length os) ->
  tiling 0 os (m_numAvailablePoints e) ->
  (forall o, o ∈ os -> 0 < oct_size o -> has_root o = true) ->
  0 <= idx < m_numAvailablePoints e ->
  exists (j : nat) o,
    os !! j = Some o
    /\ oct_offset o <= idx /\ idx - oct_offset o < oct_size o
    /\ adjust_sizes e sizes idx
       = <[j := vec_at sizes (Z.of_nat j) - 1]> sizes
    /\ forall (j' : nat) o', os !! j' = Some o' ->
         oct_offset o' <= idx -> idx - oct_offset o' < oct_size o' -> j' = j.
Proof.
  intros Hoc HK Ht Hroot Hidx.
  destruct (tiling_owner os 0 _ idx Ht Hidx) as (j & o & Hj & H1 & H2 & Hu).
  exists j, o. split; [done|]. split; [done|]. split; [done|].
  split; [|done].
  unfold adjust_sizes. rewrite HK, Hoc.
  pose proof (lookup_lt_Some _ _ _ Hj) as Hlt.
  set (f := fun (sizes : list Z) (j0 : Z) =>
              match (Some <$> os) !! Z.to_nat j0 with
              | Some (Some o0) =>
                  if has_root o0 && (oct_offset o0 <=? idx)
                     && (idx - oct_offset o0 <? oct_size o0)
                  then <[Z.to_nat j0 := vec_at sizes j0 - 1]> sizes
                  else sizes
              | _ => sizes
              end).
  assert (Hmiss : forall x a, 0 <= x -> x <> Z.of_nat j -> f a x = a).
  { intros x a Hx Hne. unfold f. rewrite list_lookup_fmap.
    destruct (os !! Z.to_nat x) as [o'|] eqn:Ho'; [|done]. simpl.
    destruct (has_root o'); [|done]. simpl.
    destruct (Z.leb_spec (oct_offset o') idx); [|done]. simpl.
    destruct (Z.ltb_spec (idx - oct_offset o') (oct_size o')); [|done].
    specialize (Hu _ _ Ho' ltac:(done) ltac:(done)). lia. }
  replace (Z.of_nat (length os))
    with (Z.of_nat j + (1 + (Z.of_nat (length os) - Z.of_nat j - 1))) by lia.
  rewrite !seqZ_app by lia. rewrite !foldl_app.
  rewrite (foldl_id f (seqZ 0 (Z.of_nat j))).
  2:{ intros x a Hx. apply elem_of_seqZ in Hx. apply Hmiss; lia. }
  change (seqZ (0 + Z.of_nat j) 1) with [0 + Z.of_nat j].
  rewrite Z.add_0_l. cbn [foldl].
  rewrite foldl_id.
  2:{ intros x a Hx. apply elem_of_seqZ in Hx. apply Hmiss; lia. }
  unfold f. rewrite Nat2Z.id, list_lookup_fmap, Hj. simpl.
  rewrite Hroot; [|by apply list_elem_of_lookup_2 in Hj | lia]. simpl.
  destruct (Z.leb_spec (oct_offset o) idx); [|lia]. simpl.
  destruct (Z.ltb_spec (idx - oct_offset o) (oct_size o)); [|lia]. done.
Qed.

(** What the constructor leaves in the engine. *)
Lemma constructor_octrees input g :
  input <> [] ->
  let e := Shape_detection_3 input g in
  m_numAvailablePoints e = Z.of_nat (length input)
  /\ m_shapeIndex e = [] /\ m_extractedShapes e = []
  /\ m_shapeFactories e = []
  /\ exists os,
       m_direct_octrees e = Some <$> os
       /\ m_availableOctreeSizes e = oct_size <$> os
       /\ m_num_subsets e = Z.of_nat (length os)
       /\ tiling 0 os (Z.of_nat (length input)).
Proof.
  intros Hne e. subst e. unfold Shape_detection_3.
  set (N := Z.of_nat (length input)).
  set (K := num_subsets N).
  assert (HK2 : 2 <= K) by (unfold K, num_subsets; lia).
  assert (HN : 0 < N) by (subst N; destruct input; simpl; [done | lia]).
  set (st0 := mkLadder input (N - 1) N (replicate (Z.to_nat K) None)
                (replicate (Z.to_nat K) 0) g).
  cbn [m_numAvailablePoints m_shapeIndex m_extractedShapes m_shapeFactories
       m_direct_octrees m_availableOctreeSizes m_num_subsets].
  do 4 (split; [done|]).
  destruct (subset_loop_tiling (Z.to_nat K) st0 N (Z.to_nat K) [])
    as (os & Ho & Hs & Hlen & Ht & Hp); simpl;
    rewrite ?length_replicate, ?drop_replicate, ?Nat.sub_diag;
    try (done || lia).
  exists os. split; [done|]. split; [done|]. split; [lia | done].
Qed.

Lemma add_shape_factories_frame e (kinds : list Factory) :
  let e' := foldl add_shape_factory e kinds in
  m_shapeFactories e' = m_shapeFactories e ++ kinds
  /\ m_direct_octrees e' = m_direct_octrees e
  /\ m_availableOctreeSizes e' = m_availableOctreeSizes e
  /\ m_num_subsets e' = m_num_subsets e
  /\ m_shapeIndex e' = m_shapeIndex e
  /\ m_numAvailablePoints e' = m_numAvailablePoints e
  /\ m_extractedShapes e' = m_extractedShapes e
  /\ m_input e' = m_input e.
Proof.
  revert e. induction kinds as [|k kinds IH]; intros e; simpl.
  - by rewrite app_nil_r.
  - destruct (IH (add_shape_factory e k))
      as (-> & -> & -> & -> & -> & -> & -> & ->).
    simpl. by rewrite <- app_assoc.
Qed.

(** X2.  On an engine as the constructor builds it on at least one point,
    whose direct octrees have a root wherever they hold a point: adjusting
    the counters of the subsets for a point index (lines 398-409) takes one
    from exactly one counter, that of the one subset whose slice holds the
    index; neither of the two failures that the loop reports can occur. *)
Theorem adjust_sizes_exactly_once input g (sizes : list Z) idx :
  input <> [] ->
  (forall o, 0 < oct_size o -> has_root o = true) ->
  0 <= idx < Z.of_nat (length input) ->
  let e := Shape_detection_3 input g in
  exists (j : nat) o,
    m_direct_octrees e !! j = Some (Some o)
    /\ oct_offset o <= idx < oct_offset o + oct_size o
    /\ adjust_sizes e sizes idx
       = <[j := vec_at sizes (Z.of_nat j) - 1]> sizes
    /\ forall (j' : nat) o', m_direct_octrees e !! j' = Some (Some o') ->
         oct_offset o' <= idx < oct_offset o' + oct_size o' -> j' = j.
Proof.
  intros Hne Hroot Hidx e.
  destruct (constructor_octrees input g Hne)
    as (HN & _ & _ & _ & os & Hoc & _ & HK & Ht).
  fold e in HN, Hoc, HK.
  destruct (adjust_sizes_spec e os sizes idx Hoc HK)
    as (j & o & Hj & H1 & H2 & Had & Hu).
  - by rewrite HN.
  - intros o _ Ho. by apply Hroot.
  - by rewrite HN.
  - exists j, o. rewrite Hoc, list_lookup_fmap, Hj.
    split; [done|]. split; [lia|]. split; [done|].
    intros j' o' Hj' Hin. rewrite list_lookup_fmap in Hj'.
    destruct (os !! j') as [o''|] eqn:Ho''; [|done].
    injection Hj' as ->. apply (Hu j' o'); (done || lia).
Qed.

Lemma free_in_insert_out (si : list Z) idx id lo len :
  0 <= lo -> 0 <= idx -> idx < lo \/ lo + len <= idx ->
  free_in (<[Z.to_nat idx := id]> si) lo len = free_in si lo len.
Proof.
  intros Hlo Hidx Hout. unfold free_in. f_equal. f_equal.
  apply filter_ext_in. intros x Hx. apply elem_of_seqZ in Hx.
  unfold vec_at. rewrite list_lookup_insert_ne by lia. done.
Qed.

Lemma free_in_insert_in (si : list Z) idx id lo len :
  0 <= lo -> lo <= idx < lo + len ->
  si !! Z.to_nat idx = Some (-1) -> id <> -1 ->
  free_in (<[Z.to_nat idx := id]> si) lo len = free_in si lo len - 1.
Proof.
  intros Hlo Hin Hidx Hid. unfold free_in.
  pose proof (lookup_lt_Some _ _ _ Hidx) as Hlt.
  replace len with ((idx - lo) + (1 + (lo + len - idx - 1))) by lia.
  rewrite !seqZ_app by lia. rewrite !filter_app, !length_app.
  assert (Hother : forall x, 0 <= x -> x <> idx ->
            vec_at (<[Z.to_nat idx := id]> si) x = vec_at si x).
  { intros x Hx Hne. unfold vec_at.
    rewrite list_lookup_insert_ne by lia. done. }
  rewrite (filter_ext_in (fun x => vec_at (<[Z.to_nat idx := id]> si) x = -1)
             (fun x => vec_at si x = -1) (seqZ lo (idx - lo))).
  2:{ intros x Hx. apply elem_of_seqZ in Hx. rewrite Hother by lia. done. }
  rewrite (filter_ext_in (fun x => vec_at (<[Z.to_nat idx := id]> si) x = -1)
             (fun x => vec_at si x = -1)
             (seqZ (lo + (idx - lo) + 1) (lo + len - idx - 1))).
  2:{ intros x Hx. apply elem_of_seqZ in Hx. rewrite Hother by lia. done. }
  change (seqZ (lo + (idx - lo)) 1) with [lo + (idx - lo)].
  replace (lo + (idx - lo)) with idx by lia.
  rewrite filter_cons_False, filter_cons_True.
  - simpl. lia.
  - unfold vec_at. by rewrite Hidx.
  - unfold vec_at. rewrite list_lookup_insert_eq by done. done.
Qed.

Lemma tiling_within os : forall lo hi (j : nat) o,
  tiling lo os hi -> os !! j = Some o ->
  lo <= oct_offset o /\ 0 <= oct_size o /\ oct_offset o + oct_size o <= hi.
Proof.
  induction os as [|o1 os IH]; intros lo hi j o; cbn [tiling]; [done|].
  intros (Hb & Hoff & Hle & Ht) Hj.
  pose proof (tiling_bounds _ _ _ Ht) as Hhi.
  destruct j as [|j]; simpl in Hj.
  - injection Hj as <-. unfold oct_size. lia.
  - destruct (IH _ _ _ _ Ht Hj) as (H1 & H2 & H3). lia.
Qed.

Lemma mark_assigned_counters os pts : forall id e numInv,
  m_direct_octrees e = Some <$> os ->
  m_num_subsets e = Z.of_nat (length os) ->
  tiling 0 os (m_numAvailablePoints e) ->
  (forall o, o ∈ os -> 0 < oct_size o -> has_root o = true) ->
  NoDup pts -> id <> -1 ->
  (forall idx, idx ∈ pts ->
     0 <= idx < m_numAvailablePoints e
     /\ m_shapeIndex e !! Z.to_nat idx = Some (-1)) ->
  counters_ok e os ->
  counters_ok (mark_assigned pts id e numInv).1 os.
Proof.
  induction pts as [|a rest IH]; intros id e numInv Hoc HK Ht Hroot Hnd Hid
    Hfree Hok; simpl; [done|].
  apply NoDup_cons in Hnd as [Ha Hnd].
  destruct (Hfree a ltac:(apply elem_of_cons; by left)) as [Ha0 Hai].
  set (e1 := set_shapeIndex e (<[Z.to_nat a := id]> (m_shapeIndex e))).
  apply IH; try done.
  - intros idx Hin.
    destruct (Hfree idx ltac:(apply elem_of_cons; by right)) as [H0 Hi].
    split; [done|]. simpl. rewrite list_lookup_insert_ne; [done|].
    intros Heq. apply Ha. replace a with idx by lia. done.
  - destruct (adjust_sizes_spec e1 os (m_availableOctreeSizes e) a Hoc HK Ht
                Hroot Ha0) as (j0 & o0 & Hj0 & H1 & H2 & Had & Hu).
    intros j o Hj.
    cbn [m_availableOctreeSizes set_availableOctreeSizes m_shapeIndex].
    rewrite Had.
    destruct (tiling_within _ _ _ _ _ Ht Hj) as (T1 & T2 & T3).
    specialize (Hok j o Hj). subst e1.
    cbn [m_availableOctreeSizes set_shapeIndex m_shapeIndex].
    destruct (decide (j = j0)) as [->|Hne].
    + assert (o0 = o) as -> by congruence.
      rewrite list_lookup_insert_eq by (by apply lookup_lt_Some in Hok).
      unfold vec_at. rewrite Nat2Z.id, Hok. simpl.
      rewrite free_in_insert_in by (done || lia). done.
    + rewrite list_lookup_insert_ne by done. rewrite Hok.
      rewrite free_in_insert_out; [done | lia | lia |].
      destruct (Z.lt_ge_cases a (oct_offset o)) as [|Hge]; [by left|].
      destruct (Z.lt_ge_cases a (oct_offset o + oct_size o)) as [Hlt|];
        [|by right].
      exfalso. apply Hne. apply (Hu j o); (done || lia).
Qed.


(** The connected-component filter keeps distinct indices distinct. *)
Hypothesis component_NoDup :
  forall (f : Fit) (k : Q) (pts : list Input) (l : list Z),
    NoDup l -> NoDup (largest_component f k pts l).

Lemma decide_commit_counters os e opts loc b e' loc' :
  (forall o, o ∈ os -> 0 < oct_size o -> has_root o = true) ->
  decide_commit e opts loc (verify_best e opts b) = (e', loc') ->
  subsets_ok e os -> subsets_ok e' os.
Proof.
  intros Hroot. unfold decide_commit. set (best := verify_best e opts b).
  destruct (FT_leb _ _); [|by intros [= <- <-]].
  destruct (_ <=? _); [|by intros [= <- <-]].
  unfold commit.
  set (e1 := set_extractedShapes e (m_extractedShapes e ++ [best])).
  set (id := Z.of_nat (length (m_extractedShapes e1)) - 1).
  destruct (mark_assigned_frame (assigned_points best) id e1 (numInvalid loc))
    as (Hfix & _ & Hlen & _).
  pose proof (mark_assigned_counters os (assigned_points best) id e1
                (numInvalid loc)) as Hcount.
  destruct (mark_assigned (assigned_points best) id e1 (numInvalid loc))
    as [e2 numInv].
  simpl in *. intros [= <- <-] (Hoc & HK & Ht & HN & Hok).
  unfold fixed_members in Hfix. simpl in Hfix.
  injection Hfix as _ _ Hoc2 _ HK2 HN2 _ _.
  split; [congruence|]. split; [congruence|]. split; [congruence|].
  split; [congruence|].
  apply Hcount; try done.
  - apply (verify_best_NoDup component_NoDup).
  - unfold id, e1. simpl. rewrite length_app. simpl. lia.
  - intros idx Hidx.
    apply (verify_best_claim component_subset), matches_true in Hidx
      as (H0 & Hfree & _).
    split; [|done]. apply lookup_lt_Some in Hfree. lia.
Qed.

Lemma iteration_counters os fuel e opts loc brk e' loc' :
  (forall o, o ∈ os -> 0 < oct_size o -> has_root o = true) ->
  iteration fuel e opts loc = Some (brk, e', loc') ->
  subsets_ok e os -> subsets_ok e' os.
Proof.
  unfold iteration. intros Hroot Hit Hok.
  destruct (generate_candidates fuel e opts (set_bestExp loc 0))
    as [[e1 loc1]|] eqn:Hg; [|done].
  simpl in Hit. apply generate_candidates_members in Hg.
  assert (Hok1 : subsets_ok e1 os).
  { unfold members in Hg. injection Hg as _ H1 H2 H3 H4 H5 _ _ _.
    unfold subsets_ok, counters_ok. by rewrite H1, H2, H3, H4, H5. }
  destruct (forceExit loc1); [by injection Hit as _ <- _|].
  destruct (bool_decide _); [by injection Hit as _ <- _|].
  destruct (getBestCandidate fuel e1 opts (candidates loc1) _)
    as [cands|]; [|done].
  simpl in Hit. destruct (last cands) as [b|]; [|done]. simpl in Hit.
  destruct (decide_commit e1 opts _ (verify_best e1 opts b))
    as [e2 loc2] eqn:Hd.
  injection Hit as _ <- _.
  by apply (decide_commit_counters os _ _ _ _ _ _ Hroot Hd).
Qed.

Lemma run_counters os opts s s' :
  (forall o, o ∈ os -> 0 < oct_size o -> has_root o = true) ->
  run opts s s' -> subsets_ok s.1 os -> subsets_ok s'.1 os.
Proof.
  intros Hroot.
  induction 1 as [s|s fuel brk e' loc' s'' Hit Hrun IH]; [done|].
  intros Hok. apply IH.
  by apply (iteration_counters os _ _ _ _ _ _ _ Hroot Hit).
Qed.

Lemma free_in_replicate (n : nat) lo len :
  0 <= lo -> lo + len <= Z.of_nat n -> 0 <= len ->
  free_in (replicate n (-1)) lo len = len.
Proof.
  intros Hlo Hhi Hlen. unfold free_in. rewrite filter_all.
  - rewrite length_seqZ. lia.
  - intros x Hx. apply elem_of_seqZ in Hx. unfold vec_at.
    rewrite lookup_replicate_2 by lia. done.
Qed.

(** X17.  After a [detect] with a registered factory on an engine just
    constructed on at least one point, whose direct octrees have a root
    wherever they hold a point: the counter of every subset is the number
    of points of the subset's slice that are unassigned. *)
Theorem subset_counters_after_detect fuel input g (kinds : list Factory)
    opts e' :
  input <> [] -> kinds <> [] ->
  (forall o, 0 < oct_size o -> has_root o = true) ->
  detect fuel (foldl add_shape_factory (Shape_detection_3 input g) kinds) opts
  = Some e' ->
  forall (j : nat) o,
    m_direct_octrees e' !! j = Some (Some o) ->
    m_availableOctreeSizes e' !! j
    = Some (Z.of_nat
              (length (filter (fun i => vec_at (m_shapeIndex e') i = -1)
                         (seqZ (oct_offset o) (oct_size o))))).
Proof.
  intros Hne Hk Hroot Hd.
  destruct (constructor_octrees input g Hne)
    as (HN & Hsi & _ & Hfs & os & Hoc & Hsz & HK & Ht).
  destruct (add_shape_factories_frame (Shape_detection_3 input g) kinds)
    as (F1 & F2 & F3 & F4 & F5 & F6 & _ & _).
  set (e := foldl add_shape_factory (Shape_detection_3 input g) kinds) in *.
  clearbody e.
  apply detect_run in Hd as [[Hnil _]|(e1 & loc1 & Hrun & _ & _ & ->)].
  { rewrite F1 in Hnil. by apply app_eq_nil in Hnil as [_ ?]. }
  apply (run_counters os) in Hrun.
  - destruct Hrun as (Hoc1 & _ & _ & _ & Hok). simpl in *.
    intros j o Hj. rewrite Hoc1, list_lookup_fmap in Hj.
    destruct (os !! j) as [o'|] eqn:Ho'; [|done]. injection Hj as ->.
    by apply Hok.
  - intros o _ Ho. by apply Hroot.
  - unfold subsets_ok, counters_ok. simpl.
    rewrite F2, F3, F4, F5, F6, Hoc, Hsz, HK, HN, Hsi.
    split; [done|]. split; [done|]. split; [done|].
    rewrite resize_nil, length_replicate, Nat2Z.id.
    split; [lia|].
    intros j o Hj. simpl. rewrite list_lookup_fmap, Hj. simpl.
    destruct (tiling_within _ _ _ _ _ Ht Hj) as (T1 & T2 & T3).
    rewrite free_in_replicate by lia. done.
Qed.


(** ** The compaction of the pool *)

Lemma is_null_false (cands : list (option (@Shape Fit))) i :
  is_null cands i = false <-> exists x, cands !! Z.to_nat i = Some (Some x).
Proof.
  unfold is_null. destruct (cands !! Z.to_nat i) as [[x|]|]; split;
    (done || (intros [y Hy]; done) || eauto).
Qed.

Lemma skip_filled_spec n : forall (cands : list (option (@Shape Fit)))
    start end_,
  start <= end_ -> (Z.to_nat (end_ - start) <= n)%nat ->
  let s := skip_filled n cands start end_ in
  start <= s <= end_
  /\ (forall i, start <= i < s -> is_null cands i = false)
  /\ (s < end_ -> is_null cands s = true).
Proof.
  induction n as [|n IH]; intros cands start end_ Hle Hn; simpl.
  - split; [lia|]. split; intros; lia.
  - destruct (is_null cands start) eqn:Hnull; simpl.
    { split; [lia|]. split; [intros; lia | done]. }
    destruct (Z.ltb_spec start end_) as [Hlt|Hge].
    + destruct (IH cands (start + 1) end_) as (H1 & H2 & H3); [lia | lia |].
      split; [lia|]. split; [|done].
      intros i Hi. destruct (decide (i = start)) as [->|]; [done|].
      apply H2. lia.
    + split; [lia|]. split; intros; lia.
Qed.

Lemma skip_null_spec n : forall (cands : list (option (@Shape Fit)))
    start end_,
  start <= end_ -> (Z.to_nat (end_ - start) <= n)%nat ->
  let t := skip_null n cands start end_ in
  start <= t <= end_
  /\ (forall i, t < i <= end_ -> is_null cands i = true)
  /\ (start < t -> is_null cands t = false).
Proof.
  induction n as [|n IH]; intros cands start end_ Hle Hn; simpl.
  - split; [lia|]. split; intros; lia.
  - destruct (is_null cands end_) eqn:Hnull; simpl.
    2:{ split; [lia|]. split; [intros; lia | done]. }
    destruct (Z.ltb_spec start end_) as [Hlt|Hge].
    + destruct (IH cands start (end_ - 1)) as (H1 & H2 & H3); [lia | lia |].
      split; [lia|]. split; [|done].
      intros i Hi. destruct (decide (i = end_)) as [->|]; [done|].
      apply H2. lia.
    + split; [lia|]. split; intros; lia.
Qed.

Lemma compact_done n (cands : list (option (@Shape Fit))) start end_ :
  end_ <= start -> compact n cands start end_ = (cands, end_).
Proof.
  intros Hle. destruct n as [|n]; simpl; [done|].
  destruct (Z.ltb_spec start end_); [lia | done].
Qed.

(** The loop of lines 444-454 ends with the cursors met or crossed by one;
    it has only exchanged entries. *)
Lemma compact_spec n : forall (cands : list (option (@Shape Fit)))
    start end_,
  compact_inv cands start end_ ->
  end_ - start <= 2 * Z.of_nat n - 1 ->
  let r := compact n cands start end_ in
  r.1 ≡ₚ cands
  /\ exists start', compact_inv r.1 start' r.2 /\ r.2 <= start'.
Proof.
  induction n as [|n IH]; intros cands start end_ Hinv Hgap.
  { simpl. split; [done|]. exists start. split; [done | lia]. }
  cbn [compact].
  destruct (Z.ltb_spec start end_) as [Hlt|Hge].
  2:{ simpl. split; [done|]. exists start. split; [done | lia]. }
  destruct Hinv as (Hs & He & Hfill & Hnull).
  destruct (skip_filled_spec (Z.to_nat (end_ - start)) cands start end_)
    as (S1 & S2 & S3); [lia | lia |].
  set (s := skip_filled _ cands start end_) in *. clearbody s.
  destruct (skip_null_spec (Z.to_nat (end_ - s)) cands s end_)
    as (T1 & T2 & T3); [lia | lia |].
  set (t := skip_null _ cands s end_) in *. clearbody t.
  assert (Hinv1 : compact_inv cands s t).
  { split; [lia|]. split; [lia|]. split.
    - intros i Hi. destruct (Z.lt_ge_cases i start);
        [apply Hfill | apply S2]; lia.
    - intros i Hi. destruct (Z.le_gt_cases i end_);
        [apply T2 | apply Hnull]; lia. }
  destruct (is_null cands s && negb (is_null cands t) && (s <? t)) eqn:Hc.
  - apply andb_true_iff in Hc as [Hc Hst].
    apply andb_true_iff in Hc as [Hns Hnt].
    apply Z.ltb_lt in Hst. apply negb_true_iff in Hnt.
    apply is_null_false in Hnt as [x Hx].
    assert (Hsn : cands !! Z.to_nat s = Some None).
    { unfold is_null in Hns.
      destruct (cands !! Z.to_nat s) as [[y|]|] eqn:Hl; [done | done |].
      apply lookup_ge_None in Hl. lia. }
    rewrite Hx. change (default None (Some (Some x))) with (Some x).
    set (cands' := <[Z.to_nat t := None]> (<[Z.to_nat s := Some x]> cands)).
    assert (Hperm : cands' ≡ₚ cands)
      by (by apply (Permutation_insert_swap cands _ _ None (Some x))).
    assert (Hlen : length cands' = length cands)
      by (unfold cands'; by rewrite !length_insert).
    assert (Hat : forall i, 0 <= i -> i <> s -> i <> t ->
              is_null cands' i = is_null cands i).
    { intros i H0 H1 H2. unfold is_null, cands'.
      rewrite !list_lookup_insert_ne by lia. done. }
    destruct (IH cands' (s + 1) (t - 1)) as (P1 & start' & P2 & P3).
    + split; [lia|]. rewrite Hlen. split; [lia|]. split.
      * intros i Hi. destruct (decide (i = s)) as [->|Hne].
        -- apply is_null_false. exists x. unfold cands'.
           rewrite list_lookup_insert_ne by lia.
           apply list_lookup_insert_eq. lia.
        -- rewrite Hat by lia. apply Hinv1. lia.
      * intros i Hi. destruct (decide (i = t)) as [->|Hne].
        -- unfold is_null, cands'. rewrite list_lookup_insert_eq; [done|].
           rewrite length_insert. lia.
        -- rewrite Hat by lia. apply Hinv1. lia.
    + lia.
    + split; [by rewrite P1|]. by exists start'.
  - assert (t <= s).
    { destruct (Z.le_gt_cases t s) as [|Hgt]; [done|]. exfalso.
      rewrite S3, T3 in Hc by lia. simpl in Hc.
      apply Z.ltb_ge in Hc. lia. }
    rewrite compact_done by done. simpl. split; [done|].
    exists s. split; [done | lia].
Qed.

Lemma pool_entries_filled (l : list (option (@Shape Fit))) :
  Forall is_Some l -> length (pool_entries l) = length l.
Proof.
  induction 1 as [|o l [x ->] _ IH]; simpl; [done|]. by rewrite IH.
Qed.

Lemma pool_entries_null (l : list (option (@Shape Fit))) :
  Forall (fun o => o = None) l -> pool_entries l = [].
Proof. induction 1 as [|o l -> _ IH]; simpl; done. Qed.

(** The compaction of lines 444-456 leaves no null entry, keeps every
    candidate that it keeps once, and drops at most one candidate. *)
Lemma compact_pool_spec (cands : list (option (@Shape Fit))) :
  let r := compact_pool cands in
  Forall is_Some r
  /\ pool_entries r ⊆+ pool_entries cands
  /\ (length (pool_entries cands) <= length r + 1)%nat.
Proof.
  unfold compact_pool.
  destruct (compact_spec (length cands) cands 0 (Z.of_nat (length cands) - 1))
    as (Hperm & start' & (Hs & He & Hfill & Hnull) & Hend).
  { split; [lia|]. split; [lia|]. split; intros; lia. }
  { lia. }
  destruct (compact (length cands) cands 0 (Z.of_nat (length cands) - 1))
    as [c' e']. simpl in *.
  assert (Hfilled : Forall is_Some (take (Z.to_nat e') c')).
  { apply Forall_lookup. intros i o Hi.
    apply lookup_take_Some in Hi as [Hi Hlt].
    destruct (proj1 (is_null_false c' (Z.of_nat i))) as [x Hx];
      [apply Hfill; lia|].
    rewrite Nat2Z.id in Hx. exists x. congruence. }
  assert (Hsplit : pool_entries c'
                   = pool_entries (take (Z.to_nat e') c')
                     ++ pool_entries (drop (Z.to_nat e') c')).
  { unfold pool_entries. by rewrite <- omap_app, take_drop. }
  assert (Hpe : pool_entries c' ≡ₚ pool_entries cands)
    by (unfold pool_entries; by rewrite Hperm).
  split; [done|]. split.
  - rewrite <- Hpe, Hsplit. by apply submseteq_inserts_r.
  - rewrite <- (Permutation_length Hpe), Hsplit, length_app.
    rewrite pool_entries_filled by done.
    assert (length (pool_entries (drop (Z.to_nat e') c')) <= 1)%nat; [|lia].
    destruct (drop (Z.to_nat e') c') as [|o rest] eqn:Hd; [simpl; lia|].
    assert (Hrest : pool_entries rest = []).
    { apply pool_entries_null, Forall_lookup. intros i o' Hi.
      assert (Hl : c' !! (Z.to_nat e' + S i)%nat = Some o').
      { rewrite <- lookup_drop, Hd. done. }
      pose proof (lookup_lt_Some _ _ _ Hl) as Hlt.
      specialize (Hnull (Z.of_nat (Z.to_nat e' + S i)) ltac:(lia)).
      unfold is_null in Hnull. rewrite Nat2Z.id, Hl in Hnull.
      by destruct o'. }
    change (pool_entries (o :: rest))
      with (match o with
            | Some y => y :: pool_entries rest
            | None => pool_entries rest
            end).
    rewrite Hrest. destruct o; simpl; lia.
Qed.

(** X12.  The compaction of the pool after a decision (lines 444-456), on a
    pool with at least one entry: the pool it leaves holds no null entry,
    holds no candidate more often than the pool before, and misses at most
    one of the candidates that were in the pool before. *)
Theorem compaction_drops_at_most_one (cands : list (option (@Shape Fit))) :
  cands <> [] ->
  Forall is_Some (compact_pool cands)
  /\ pool_entries (compact_pool cands) ⊆+ pool_entries cands
  /\ (length (pool_entries cands)
      <= length (pool_entries (compact_pool cands)) + 1)%nat.
Proof.
  intros _. destruct (compact_pool_spec cands) as (H1 & H2 & H3).
  split; [done|]. split; [done|]. by rewrite (pool_entries_filled (compact_pool cands)).
Qed.

(** ** The commit decision within an iteration *)





(** ** The selection of the best candidate *)

Lemma total_slack_perm K (l1 l2 : list (@Shape Fit)) :
  l1 ≡ₚ l2 -> total_slack K l1 = total_slack K l2.
Proof.
  unfold total_slack.
  induction 1 as [|x l1 l2 _ IH|x y l|l1 l2 l3 _ IH1 _ IH2]; csimpl; lia.
Qed.

Lemma total_slack_app K (l1 l2 : list (@Shape Fit)) :
  total_slack K (l1 ++ l2) = (total_slack K l1 + total_slack K l2)%nat.
Proof.
  unfold total_slack. induction l1 as [|x l1 IH]; csimpl; lia.
Qed.

Lemma total_slack_insert K (l : list (@Shape Fit)) i c c' :
  l !! i = Some c ->
  (total_slack K (<[i := c']> l) + slack K c
   = total_slack K l + slack K c')%nat.
Proof.
  intros Hi. pose proof (lookup_lt_Some _ _ _ Hi) as Hlt.
  rewrite insert_take_drop by done.
  assert (Hl : total_slack K l
               = total_slack K (take i l ++ c :: drop (S i) l))
    by (by rewrite take_drop_middle).
  rewrite Hl, !total_slack_app. unfold total_slack. csimpl. lia.
Qed.

(** What a call of [improveBound] does to the measure. *)
Lemma improveBound_step e opts c P max_subset mp :
  0 <= m_nb_subset_used c ->
  let K := m_num_subsets e in
  let r := improveBound e opts c P max_subset mp in
  m_fit r.2 = m_fit c
  /\ 0 <= m_nb_subset_used r.2
  /\ (slack K r.2 <= slack K c)%nat
  /\ (r.1 = true -> (slack K r.2 < slack K c)%nat).
Proof.
  intros Hu K r. subst r. unfold improveBound. fold K.
  destruct (Z.leb_spec max_subset (m_nb_subset_used c)) as [Hm|Hm].
  { simpl. repeat split; (done || lia). }
  destruct (Z.leb_spec K (m_nb_subset_used c)) as [HK|HK].
  { simpl. repeat split; (done || lia). }
  set (u := m_nb_subset_used c) in *.
  set (c0 := set_nb_subset_used c u).
  pose proof (improve_loop_spec (Z.to_nat (K - u)) e opts c0
                (sum_sizes_below (m_availableOctreeSizes e) u) 0 mp) as Hl.
  cbv zeta in Hl. change (m_nb_subset_used c0) with u in Hl.
  change (m_fit c0) with (m_fit c) in Hl. fold K in Hl.
  destruct Hl as (H1 & H2 & _); [lia | done |].
  change (m_nb_subset_used c0) with u.
  destruct (improve_loop (Z.to_nat (K - u)) e opts c0 _ 0 mp) as [c1 npe].
  cbn [fst snd] in *. unfold slack.
  cbn [compute_bound set_bounds set_score m_nb_subset_used m_fit].
  fold u. repeat split; (done || lia).
Qed.

(** The loop of lines 548-561 refines candidates in place. *)
Lemma refine_overlapping_spec n : forall e opts P
    (cands : list (@Shape Fit)) ps iwc improved,
  let K := m_num_subsets e in
  cands <> [] -> Forall (fun c => 0 <= m_nb_subset_used c) cands ->
  0 <= iwc -> -1 <= ps <= Z.of_nat (length cands) - 2 ->
  exists cands' ps' improved',
    refine_overlapping n e opts P cands ps iwc improved
    = Some (cands', ps', improved')
    /\ m_fit <$> cands' = m_fit <$> cands
    /\ Forall (fun c => 0 <= m_nb_subset_used c) cands'
    /\ (total_slack K cands' <= total_slack K cands)%nat
    /\ (improved' = true ->
        improved = true \/ (total_slack K cands' < total_slack K cands)%nat)
    /\ -1 <= ps'.
Proof.
  induction n as [|n IH]; intros e opts P cands ps iwc improved K Hne Hnn
    Hiwc Hps.
  { simpl. exists cands, ps, improved. repeat split; (done || lia || auto). }
  assert (Hdone : exists cands' ps' improved',
            Some (cands, ps, improved) = Some (cands', ps', improved')
            /\ m_fit <$> cands' = m_fit <$> cands
            /\ Forall (fun c => 0 <= m_nb_subset_used c) cands'
            /\ (total_slack K cands' <= total_slack K cands)%nat
            /\ (improved' = true ->
                improved = true
                \/ (total_slack K cands' < total_slack K cands)%nat)
            /\ -1 <= ps').
  { exists cands, ps, improved. repeat split; (done || lia || auto). }
  cbn [refine_overlapping].
  destruct (Z.ltb_spec ps iwc) as [|Hge]; [done|].
  destruct (last cands) as [back|] eqn:Hlast.
  2:{ apply last_None in Hlast. done. }
  destruct (lookup_lt_is_Some_2 cands (Z.to_nat ps)) as [cur Hcur]; [lia|].
  rewrite Hcur. cbn [mbind option_bind].
  destruct (negb (Qle_bool (min_bound back) (max_bound cur))); [done|].
  destruct (Qle_bool (max_bound cur) (inject_Z (min_points opts))); [done|].
  assert (Hcur0 : 0 <= m_nb_subset_used cur)
    by (by apply (Forall_lookup_1 _ _ _ _ Hnn Hcur)).
  destruct (improveBound_step e opts cur P (m_num_subsets e) (min_points opts)
              Hcur0) as (Hfit & Hnn' & Hle & Hlt).
  destruct (improveBound e opts cur P (m_num_subsets e) (min_points opts))
    as [b cur'].
  cbn [fst snd] in *. fold K in Hle, Hlt.
  set (cands1 := <[Z.to_nat ps := cur']> cands).
  pose proof (total_slack_insert K cands _ _ cur' Hcur) as Hsum.
  fold cands1 in Hsum.
  assert (Hfit1 : m_fit <$> cands1 = m_fit <$> cands).
  { unfold cands1. rewrite list_fmap_insert, Hfit.
    apply list_insert_id. by rewrite list_lookup_fmap, Hcur. }
  assert (Hnn1 : Forall (fun c => 0 <= m_nb_subset_used c) cands1).
  { apply Forall_insert; done. }
  assert (Hlen1 : length cands1 = length cands)
    by (unfold cands1; by rewrite length_insert).
  assert (Hnow : exists cands' ps' improved',
            Some (cands1, ps, improved || b) = Some (cands', ps', improved')
            /\ m_fit <$> cands' = m_fit <$> cands
            /\ Forall (fun c => 0 <= m_nb_subset_used c) cands'
            /\ (total_slack K cands' <= total_slack K cands)%nat
            /\ (improved' = true ->
                improved = true
                \/ (total_slack K cands' < total_slack K cands)%nat)
            /\ -1 <= ps').
  { exists cands1, ps, (improved || b). split; [done|]. split; [done|].
    split; [done|]. split; [lia|]. split; [|lia].
    intros Hb. apply orb_true_iff in Hb as [Hb|Hb]; [by left|].
    right. specialize (Hlt Hb). lia. }
  destruct (negb (Qle_bool (min_bound back) (max_bound cur'))); [done|].
  destruct (IH e opts P cands1 (ps - 1) iwc (improved || b))
    as (cands' & ps' & improved' & Hr & G1 & G2 & G3 & G4 & G5).
  - intros Heq. apply (f_equal length) in Heq. rewrite Hlen1 in Heq.
    destruct cands; simpl in *; [done | lia].
  - done.
  - done.
  - rewrite Hlen1. lia.
  - exists cands', ps', improved'. split; [done|].
    split; [congruence|]. split; [done|]. fold K in G3, G4.
    split; [lia|]. split; [|done].
    intros Hi. destruct (G4 Hi) as [Hb|Hb]; [|right; lia].
    apply orb_true_iff in Hb as [Hb|Hb]; [by left|].
    right. specialize (Hlt Hb). lia.
Qed.

(** The loop of lines 535-564 ends: each round that reports an improvement
    has taken a subset from the ones some candidate had left. *)
Lemma best_loop_spec fuel : forall e opts P (cands : list (@Shape Fit))
    iwc improved,
  let K := m_num_subsets e in
  cands <> [] -> Forall (fun c => 0 <= m_nb_subset_used c) cands ->
  -1 <= iwc ->
  (improved = true -> (total_slack K cands < fuel)%nat) ->
  exists cands',
    best_loop fuel e opts P cands iwc improved = Some cands'
    /\ m_fit <$> cands' ≡ₚ m_fit <$> cands
    /\ Forall (fun c => 0 <= m_nb_subset_used c) cands'
    /\ (total_slack K cands' <= total_slack K cands)%nat.
Proof.
  induction fuel as [|fuel IH]; intros e opts P cands iwc improved K Hne Hnn
    Hiwc Hfuel.
  { simpl. destruct improved; [specialize (Hfuel eq_refl); lia|].
    rewrite andb_false_r. exists cands. repeat split; done. }
  cbn [best_loop].
  set (size := Z.of_nat (length cands)).
  destruct ((to_size_t iwc <? to_size_t (size - 1)) && improved) eqn:Hc.
  2:{ exists cands. repeat split; done. }
  apply andb_true_iff in Hc as [Hlt ->]. apply Z.ltb_lt in Hlt.
  specialize (Hfuel eq_refl).
  assert (Hiwc0 : 0 <= iwc).
  { destruct (Z.lt_ge_cases iwc 0) as [Hneg|]; [|done]. exfalso.
    assert (iwc = -1) as -> by lia.
    unfold to_size_t in Hlt.
    pose proof (Z.mod_pos_bound (size - 1) (2 ^ 64) ltac:(lia)).
    change ((-1) `mod` 2 ^ 64) with (2 ^ 64 - 1) in Hlt. lia. }
  set (k := Z.to_nat iwc).
  set (cands1 := take k cands ++ sort_by_max_bound (drop k cands)).
  assert (Hp1 : cands1 ≡ₚ cands).
  { unfold cands1. rewrite sort_by_max_bound_perm. by rewrite take_drop. }
  assert (Hlen1 : length cands1 = length cands)
    by (by apply Permutation_length).
  assert (Hne1 : cands1 <> []).
  { intros Heq. rewrite Heq in Hlen1. by destruct cands. }
  assert (Hnn1 : Forall (fun c => 0 <= m_nb_subset_used c) cands1)
    by (by rewrite Hp1).
  destruct (last cands1) as [back|] eqn:Hlast.
  2:{ apply last_None in Hlast. done. }
  cbn [mbind option_bind].
  rewrite last_lookup in Hlast.
  assert (Hback0 : 0 <= m_nb_subset_used back)
    by (by apply (Forall_lookup_1 _ _ _ _ Hnn1 Hlast)).
  destruct (improveBound_step e opts back P (m_num_subsets e)
              (min_points opts) Hback0) as (Hfit & Hnn' & Hle & _).
  destruct (improveBound e opts back P (m_num_subsets e) (min_points opts))
    as [b back'].
  cbn [fst snd] in *. fold K in Hle.
  set (cands2 := <[Nat.pred (length cands1) := back']> cands1).
  pose proof (total_slack_insert K cands1 _ _ back' Hlast) as Hsum.
  fold cands2 in Hsum.
  assert (Hfit2 : m_fit <$> cands2 = m_fit <$> cands1).
  { unfold cands2. rewrite list_fmap_insert, Hfit.
    apply list_insert_id. by rewrite list_lookup_fmap, Hlast. }
  assert (Hnn2 : Forall (fun c => 0 <= m_nb_subset_used c) cands2)
    by (by apply Forall_insert).
  assert (Hlen2 : length cands2 = length cands)
    by (unfold cands2; by rewrite length_insert).
  assert (Hne2 : cands2 <> []).
  { intros Heq. rewrite Heq in Hlen2. by destruct cands. }
  destruct (refine_overlapping_spec (Z.to_nat (size - 1 - iwc)) e opts P
              cands2 (size - 2) iwc false Hne2 Hnn2 Hiwc0)
    as (cands3 & ps' & improved' & Hr & G1 & G2 & G3 & G4 & G5).
  { rewrite Hlen2. unfold size. destruct cands; simpl in *; [done | lia]. }
  rewrite Hr. cbn [mbind option_bind]. fold K in G3, G4.
  rewrite (total_slack_perm K _ _ Hp1) in Hsum.
  destruct (IH e opts P cands3 ps' improved')
    as (cands' & Hb & F1 & F2 & F3).
  - intros Heq. rewrite Heq in G1. apply (f_equal length) in G1.
    rewrite !length_fmap, Hlen2 in G1. by destruct cands.
  - done.
  - done.
  - intros Hi. destruct (G4 Hi) as [|Hlt3]; [done|]. fold K. lia.
  - exists cands'. split; [done|]. fold K in F3.
    split; [|split; [done | lia]].
    rewrite F1, G1, Hfit2. by rewrite Hp1.
Qed.

(** X9.  [getBestCandidate] on a vector of at least one candidate, none with
    a negative count of used subsets: the loop of lines 535-564 ends within
    one round more than the candidates have subsets left to use; the vector
    returned holds the candidates of the vector given, reordered and refined
    in place (the same fits, no count of used subsets negative, no more
    subsets left to use), and it has a last element, the best candidate. *)
Theorem getBestCandidate_returns fuel e opts (cands : list (@Shape Fit)) P :
  cands <> [] ->
  Forall (fun c => 0 <= m_nb_subset_used c) cands ->
  (total_slack (m_num_subsets e) cands < fuel)%nat ->
  exists cands',
    getBestCandidate fuel e opts cands P = Some cands'
    /\ m_fit <$> cands' ≡ₚ m_fit <$> cands
    /\ Forall (fun c => 0 <= m_nb_subset_used c) cands'
    /\ (total_slack (m_num_subsets e) cands'
        <= total_slack (m_num_subsets e) cands)%nat
    /\ is_Some (last cands').
Proof.
  intros Hne Hnn Hfuel. unfold getBestCandidate.
  assert (Hlast : forall cands' : list (@Shape Fit),
            m_fit <$> cands' ≡ₚ m_fit <$> cands -> is_Some (last cands')).
  { intros cands' Hp. apply Permutation_length in Hp.
    rewrite !length_fmap in Hp.
    destruct (last cands') eqn:Hl; [done|].
    apply last_None in Hl. subst cands'. by destruct cands. }
  destruct (Z.of_nat (length cands) =? 1).
  - exists cands. repeat split; (done || by apply Hlast).
  - destruct (best_loop_spec fuel e opts P cands 0 true Hne Hnn)
      as (cands' & Hb & H1 & H2 & H3); [lia | done |].
    exists cands'. repeat split; (done || by apply Hlast).
Qed.


(** ** The largest sampled subset *)

(** X1.  The constructor on [N >= 1] points, with [K] subsets: subset
    [K - 1] is built on the last [N / 2] positions of the point array, and
    these hold, in order, one point of each pair [(2k, 2k+1)] of the input,
    the one chosen by the parity of the [k]-th value of the generator. *)
Theorem top_subset_is_stratified input g :
  input <> [] ->
  let e := Shape_detection_3 input g in
  let N := Z.of_nat (length input) in
  let size := N `div` 2 in
  m_direct_octrees e !! Z.to_nat (m_num_subsets e - 1)
  = Some (Some (mkDirect (N - size) N (N - size)))
  /\ forall k : nat, Z.of_nat k < size ->
       m_input e !! Z.to_nat (N - size + Z.of_nat k)
       = input !! Z.to_nat (2 * Z.of_nat k
                            + rng_draws g (rng_pos g + k) `mod` 2).
Proof.
  intros Hne e N size. subst e. unfold Shape_detection_3. fold N.
  set (K := num_subsets N).
  assert (HK2 : 2 <= K) by (unfold K, num_subsets; lia).
  assert (HN : 0 < N) by (subst N; destruct input; simpl; [done | lia]).
  set (st0 := mkLadder input (N - 1) N (replicate (Z.to_nat K) None)
                (replicate (Z.to_nat K) 0) g).
  cbn [m_direct_octrees m_num_subsets m_input].
  assert (Hstep : subset_loop (Z.to_nat K) st0
                  = subset_loop (Z.to_nat (K - 1)) (subset_step (K - 1) st0)).
  { replace (Z.to_nat K) with (S (Z.to_nat (K - 1))) by lia.
    cbn [subset_loop]. by rewrite Z2Nat.id by lia. }
  rewrite Hstep. clear Hstep.
  destruct (subset_step_pick (K - 1) st0 ltac:(lia) ltac:(simpl; lia))
    as (_ & Hl & Hla & Hrem & Hoc & _).
  destruct (subset_step_picks (K - 1) st0 ltac:(lia) ltac:(simpl; lia)
              eq_refl ltac:(simpl; lia)) as (Hpick & _ & _).
  cbn [l_remainingPoints l_last l_points l_rng l_octrees st0] in *.
  fold size in Hla, Hrem, Hoc, Hpick.
  set (st1 := subset_step (K - 1) st0) in *. clearbody st1.
  assert (Hsize : 0 <= size <= N).
  { subst size. split; [apply Z.div_pos; lia|].
    apply Z.div_le_upper_bound; lia. }
  destruct (subset_loop_frame (Z.to_nat (K - 1)) st1) as [F1 F2];
    [lia | lia | lia |].
  split.
  - rewrite F2 by lia. rewrite Hoc.
    rewrite list_lookup_insert_eq by (rewrite length_replicate; lia).
    do 3 f_equal; lia.
  - intros k Hk. rewrite F1 by lia. by apply Hpick.
Qed.


(** ** The loop of the candidate generation *)

(** X5.  The loop of the candidate generation (lines 298-343), when it
    ends: it has made at least one round and counted one drawn candidate for
    each; the pool has grown at its end by candidates with an upper bound of
    at least [min_points] and an expected value of at most [bestExp]; each
    round has made one candidate for every registered factory, which joined
    the pool or was counted as failed; and the loop has ended because of the
    force exit or because one of the two overlook probabilities, that of
    [bestExp] or that of [min_points], is not above [probability]. *)
Theorem generate_candidates_accounts fuel e opts loc e' loc' :
  generate_candidates fuel e opts loc = Some (e', loc') ->
  members e' = members e
  /\ numInvalid loc' = numInvalid loc
  /\ (forceExit loc' = true
      \/ ~ FT_lt (FT_of_Q (probability opts)) (overlook e' loc' (bestExp loc'))
      \/ ~ FT_lt (FT_of_Q (probability opts))
             (overlook e' loc' (inject_Z (min_points opts))))
  /\ exists (rounds : nat) new,
       (1 <= rounds)%nat
       /\ nbNewCandidates loc' = nbNewCandidates loc + Z.of_nat rounds
       /\ candidates loc' = candidates loc ++ new
       /\ Z.of_nat (length new)
          + (nbFailedCandidates loc' - nbFailedCandidates loc)
          = Z.of_nat rounds * Z.of_nat (length (m_shapeFactories e))
       /\ Forall (fun p => (inject_Z (min_points opts) <= max_bound p)%Q
                           /\ (expected_value p <= bestExp loc')%Q) new.
Proof.
  revert e loc. induction fuel as [|fuel IH]; intros e loc; simpl; [done|].
  destruct (generate_round fuel e opts loc) as [[e1 loc1]|] eqn:Hg; [|done].
  simpl.
  destruct (generate_round_spec _ _ _ _ _ _ Hg)
    as (R1 & R2 & R3 & R4 & new1 & R5 & R6 & R7).
  destruct (generate_again e1 opts loc1) eqn:Hga.
  - intros Hr. destruct (IH _ _ Hr)
      as (I1 & I2 & I3 & rounds & new & I4 & I5 & I6 & I7 & I8).
    split; [congruence|]. split; [congruence|]. split; [done|].
    exists (S rounds), (new1 ++ new).
    split; [lia|]. split; [lia|].
    split; [by rewrite I6, R5, app_assoc|].
    assert (Hfs : m_shapeFactories e1 = m_shapeFactories e)
      by (unfold members in R3; congruence).
    rewrite Hfs in I7. rewrite length_app. split; [lia|].
    apply Forall_app. split; [|done].
    assert (Hmono : (bestExp loc1 <= bestExp loc')%Q).
    { clear -Hr. revert e1 loc1 Hr.
      induction fuel as [|fuel IH]; intros e1 loc1; simpl; [done|].
      destruct (generate_round fuel e1 opts loc1) as [[e2 loc2]|] eqn:Hg;
        [|done].
      simpl. destruct (generate_round_spec _ _ _ _ _ _ Hg)
        as (_ & _ & _ & R4 & _).
      destruct (generate_again e2 opts loc2).
      - intros Hr. eapply Qle_trans; [exact R4|]. by apply (IH e2).
      - by intros [= _ <-]. }
    eapply Forall_impl; [exact R7|]. simpl. intros p [Hp1 Hp2].
    split; [done|]. eapply Qle_trans; eassumption.
  - intros [= <- <-].
    split; [done|]. split; [done|]. split.
    { unfold generate_again in Hga.
      apply andb_false_iff in Hga as [Hga|Hga];
        [apply andb_false_iff in Hga as [Hga|Hga]|].
      - left. by apply negb_false_iff in Hga.
      - right. left. unfold FT_lt. by rewrite Hga.
      - right. right. unfold FT_lt. by rewrite Hga. }
    exists 1%nat, new1. split; [lia|]. split; [lia|]. split; [done|].
    split; [lia | done].
Qed.


(** ** The candidates of the pool *)

Lemma improveBound_range e opts c P max_subset mp :
  0 <= m_nb_subset_used c ->
  let K := m_num_subsets e in
  let r := improveBound e opts c P max_subset mp in
  m_nb_subset_used c <= m_nb_subset_used r.2
  /\ (m_nb_subset_used c <= K -> m_nb_subset_used r.2 <= K)
  /\ (m_nb_subset_used c < max_subset -> m_nb_subset_used c < K ->
      m_nb_subset_used c < m_nb_subset_used r.2).
Proof.
  intros Hu K r. subst r. unfold improveBound. fold K.
  destruct (Z.leb_spec max_subset (m_nb_subset_used c)) as [Hm|Hm].
  { simpl. repeat split; (done || lia). }
  destruct (Z.leb_spec K (m_nb_subset_used c)) as [HK|HK].
  { simpl. repeat split; (done || lia). }
  set (u := m_nb_subset_used c) in *.
  set (c0 := set_nb_subset_used c u).
  pose proof (improve_loop_spec (Z.to_nat (K - u)) e opts c0
                (sum_sizes_below (m_availableOctreeSizes e) u) 0 mp) as Hl.
  cbv zeta in Hl. change (m_nb_subset_used c0) with u in Hl.
  fold K in Hl.
  destruct Hl as (H1 & _); [lia | done |].
  change (m_nb_subset_used c0) with u.
  destruct (improve_loop (Z.to_nat (K - u)) e opts c0 _ 0 mp) as [c1 npe].
  cbn [fst snd] in *.
  cbn [compute_bound set_bounds set_score m_nb_subset_used].
  repeat split; lia.
Qed.

Lemma improveBound_in_range e opts c P max_subset mp :
  used_in_range (m_num_subsets e) c ->
  used_in_range (m_num_subsets e) (improveBound e opts c P max_subset mp).2.
Proof.
  intros [H1 H2].
  destruct (improveBound_range e opts c P max_subset mp ltac:(lia))
    as (G1 & G2 & _).
  split; [lia | by apply G2].
Qed.

Lemma refine_overlapping_in_range n : forall e opts P
    (cands : list (@Shape Fit)) ps iwc improved cands' ps' improved',
  Forall (used_in_range (m_num_subsets e)) cands ->
  refine_overlapping n e opts P cands ps iwc improved
  = Some (cands', ps', improved') ->
  Forall (used_in_range (m_num_subsets e)) cands'.
Proof.
  induction n as [|n IH]; intros e opts P cands ps iwc improved cands' ps'
    improved' Hok; simpl; [by intros [= <- _ _]|].
  destruct (ps <? iwc); [by intros [= <- _ _]|].
  destruct (last cands) as [back|]; [|done]. simpl.
  destruct (cands !! Z.to_nat ps) as [cur|] eqn:Hcur; [|done]. simpl.
  destruct (negb _); [by intros [= <- _ _]|].
  destruct (Qle_bool _ _); [by intros [= <- _ _]|].
  pose proof (improveBound_in_range e opts cur P (m_num_subsets e)
                (min_points opts)
                (Forall_lookup_1 _ _ _ _ Hok Hcur)) as Hcur'.
  destruct (improveBound e opts cur P (m_num_subsets e) (min_points opts))
    as [b cur'].
  cbn [snd] in Hcur'.
  assert (Hok1 : Forall (used_in_range (m_num_subsets e))
                   (<[Z.to_nat ps := cur']> cands))
    by (by apply Forall_insert).
  destruct (negb _); [by intros [= <- _ _]|].
  by apply IH.
Qed.

Lemma best_loop_in_range fuel : forall e opts P (cands : list (@Shape Fit))
    iwc improved cands',
  Forall (used_in_range (m_num_subsets e)) cands ->
  best_loop fuel e opts P cands iwc improved = Some cands' ->
  Forall (used_in_range (m_num_subsets e)) cands'.
Proof.
  induction fuel as [|fuel IH]; intros e opts P cands iwc improved cands' Hok;
    simpl.
  { destruct (_ && _); [done | by intros [= <-]]. }
  destruct (_ && _); [|by intros [= <-]].
  set (cands1 := take (Z.to_nat iwc) cands
                 ++ sort_by_max_bound (drop (Z.to_nat iwc) cands)).
  assert (Hp1 : cands1 ≡ₚ cands).
  { unfold cands1. rewrite sort_by_max_bound_perm. by rewrite take_drop. }
  assert (Hok1 : Forall (used_in_range (m_num_subsets e)) cands1)
    by (by rewrite Hp1).
  destruct (last cands1) as [back|] eqn:Hlast; [|done]. simpl.
  rewrite last_lookup in Hlast.
  pose proof (improveBound_in_range e opts back P (m_num_subsets e)
                (min_points opts)
                (Forall_lookup_1 _ _ _ _ Hok1 Hlast)) as Hback'.
  destruct (improveBound e opts back P (m_num_subsets e) (min_points opts))
    as [b back'].
  cbn [snd] in Hback'.
  assert (Hok2 : Forall (used_in_range (m_num_subsets e))
                   (<[Nat.pred (length cands1) := back']> cands1))
    by (by apply Forall_insert).
  destruct (refine_overlapping _ e opts P _ _ iwc false)
    as [[[cands3 ps'] improved']|] eqn:Hr; [|done].
  simpl. apply refine_overlapping_in_range in Hr; [|done].
  by apply IH.
Qed.

Lemma add_candidates_in_range (fs : list Factory) : forall e opts indices loc,
  0 < m_num_subsets e ->
  Forall (used_in_range (m_num_subsets e)) (candidates loc) ->
  Forall (used_in_range (m_num_subsets e))
    (candidates (add_candidates fs e opts indices loc)).
Proof.
  induction fs as [|f fs IH]; intros e opts indices loc HK Hok; simpl;
    [done|].
  apply IH; [done|].
  destruct (compute _ _ _ _ _) as [fit|]; [|done].
  destruct (improveBound_range e opts (new_shape fit) (available e loc) 1 500
              ltac:(simpl; lia)) as (_ & G2 & G3).
  simpl in G2, G3.
  destruct (improveBound e opts (new_shape fit) (available e loc) 1 500)
    as [b p].
  cbn [snd] in G2, G3.
  destruct (Qle_bool _ _); [|done]. simpl.
  apply Forall_app. split; [done|]. repeat constructor; lia.
Qed.

Lemma generate_candidates_in_range fuel : forall e opts loc e' loc',
  0 < m_num_subsets e ->
  Forall (used_in_range (m_num_subsets e)) (candidates loc) ->
  generate_candidates fuel e opts loc = Some (e', loc') ->
  Forall (used_in_range (m_num_subsets e)) (candidates loc')
  /\ nbNewCandidates loc < nbNewCandidates loc'.
Proof.
  induction fuel as [|fuel IH]; intros e opts loc e' loc' HK Hok; simpl;
    [done|].
  destruct (generate_round fuel e opts loc) as [[e1 loc1]|] eqn:Hg; [|done].
  simpl.
  destruct (generate_round_spec _ _ _ _ _ _ Hg) as (R1 & _ & R3 & _).
  assert (HK1 : m_num_subsets e1 = m_num_subsets e)
    by (unfold members in R3; congruence).
  assert (Hok1 : Forall (used_in_range (m_num_subsets e)) (candidates loc1)).
  { unfold generate_round in Hg.
    destruct (draw_sample fuel e []) as [[indices e0]|] eqn:Hd; [|done].
    simpl in Hg. apply draw_sample_members in Hd.
    assert (HK0 : m_num_subsets e0 = m_num_subsets e)
      by (unfold members in Hd; congruence).
    injection Hg as _ <-.
    rewrite <- HK0.
    match goal with
    | |- context [add_candidates ?fs e0 opts indices ?l] =>
        pose proof (add_candidates_in_range fs e0 opts indices l) as Ha
    end.
    rewrite HK0 in *.
    destruct (10000 <=? _); simpl; apply Ha; (done || lia). }
  destruct (generate_again e1 opts loc1).
  - intros Hr. rewrite <- HK1 in Hok1.
    destruct (IH e1 opts loc1 e' loc' ltac:(lia) Hok1 Hr) as [I1 I2].
    rewrite HK1 in I1. split; [done | lia].
  - intros [= <- <-]. split; [done | lia].
Qed.

Lemma update_pool_used e opts avail (cands : list (option (@Shape Fit))) x :
  Some x ∈ update_pool e opts avail cands ->
  exists c, Some c ∈ cands /\ m_nb_subset_used x = m_nb_subset_used c.
Proof.
  unfold update_pool. intros Hx. apply elem_of_app in Hx as [Hx|Hx].
  - apply list_elem_of_fmap in Hx as (oc & Hoc & Hin).
    destruct oc as [c|]; [|done]. exists c. split.
    + apply elem_of_take in Hin as (i & Hi & _).
      by apply list_elem_of_lookup_2 in Hi.
    + unfold update_candidate in Hoc.
      destruct (_ <? _); [done|]. by injection Hoc as ->.
  - exists x. split; [|done].
    apply list_elem_of_lookup in Hx as [i Hi]. rewrite lookup_drop in Hi.
    by apply list_elem_of_lookup_2 in Hi.
Qed.

Lemma decide_commit_in_range K e opts loc best e' loc' :
  Forall (used_in_range K) (candidates loc) ->
  decide_commit e opts loc best = (e', loc') ->
  Forall (used_in_range K) (candidates loc')
  /\ nbNewCandidates loc - 1 <= nbNewCandidates loc'.
Proof.
  intros Hok. unfold decide_commit.
  destruct (FT_leb _ _); [|intros [= _ <-]; split; [done | lia]].
  assert (Hpool : forall e0 loc0 cands0,
            (forall c, Some c ∈ cands0 -> c ∈ candidates loc) ->
            Forall (used_in_range K)
              (candidates
                 (set_candidates loc0
                    (pool_entries
                       (compact_pool
                          (update_pool e0 opts (available e0 loc0)
                             cands0)))))).
  { intros e0 loc0 cands0 Hsub. simpl. apply Forall_forall. intros x Hx.
    apply pool_entries_compact, update_pool_used in Hx as (c & Hc & Hu).
    apply Hsub in Hc. rewrite Forall_forall in Hok.
    specialize (Hok c Hc). unfold used_in_range in *. by rewrite Hu. }
  destruct (_ <=? _).
  - destruct (commit e loc best (Some <$> candidates loc))
      as [[e1 loc1] cands1] eqn:Hc.
    intros [= <- <-].
    destruct (commit_spec _ _ _ _ _ _ _ Hc)
      as (_ & _ & _ & _ & _ & _ & Hnb & _ & _ & _ & Hcands).
    split; [|simpl; lia].
    apply Hpool. intros c Hin. rewrite Hcands in Hin.
    apply elem_of_insert_inv in Hin as [|Hin]; [done|].
    apply list_elem_of_fmap in Hin as (c' & [= ->] & Hin). done.
  - intros [= <- <-]. split; [|simpl; lia].
    apply Hpool. intros c Hin.
    apply list_elem_of_fmap in Hin as (c' & [= ->] & Hin). done.
Qed.

Lemma adjust_sizes_length e (sizes : list Z) idx :
  length (adjust_sizes e sizes idx) = length sizes.
Proof.
  unfold adjust_sizes. generalize (seqZ 0 (m_num_subsets e)).
  intros l. revert sizes. induction l as [|j l IH]; intros sizes; simpl;
    [done|].
  rewrite IH. destruct (m_direct_octrees e !! Z.to_nat j) as [[o|]|];
    [|done|done].
  destruct (_ && _); [|done]. by rewrite length_insert.
Qed.

Lemma mark_assigned_sizes pts : forall id e numInv,
  length (m_availableOctreeSizes (mark_assigned pts id e numInv).1)
  = length (m_availableOctreeSizes e).
Proof.
  induction pts as [|a rest IH]; intros id e numInv; simpl; [done|].
  rewrite IH. simpl. apply adjust_sizes_length.
Qed.

Lemma decide_commit_sizes e opts loc best e' loc' :
  decide_commit e opts loc best = (e', loc') ->
  length (m_availableOctreeSizes e') = length (m_availableOctreeSizes e)
  /\ m_num_subsets e' = m_num_subsets e.
Proof.
  unfold decide_commit.
  destruct (FT_leb _ _); [|by intros [= <- _]].
  destruct (_ <=? _); [|by intros [= <- _]].
  unfold commit.
  set (e1 := set_extractedShapes e (m_extractedShapes e ++ [best])).
  set (id := Z.of_nat (length (m_extractedShapes e1)) - 1).
  pose proof (mark_assigned_sizes (assigned_points best) id e1
                (numInvalid loc)) as Hlen.
  destruct (mark_assigned_frame (assigned_points best) id e1 (numInvalid loc))
    as (Hfix & _).
  destruct (mark_assigned (assigned_points best) id e1 (numInvalid loc))
    as [e2 numInv].
  simpl in *. intros [= <- _]. split; [done|].
  unfold fixed_members in Hfix. simpl in Hfix. congruence.
Qed.

Lemma iteration_locals_ok fuel e opts loc brk e' loc' :
  iteration fuel e opts loc = Some (brk, e', loc') ->
  locals_ok e loc -> locals_ok e' loc'.
Proof.
  unfold iteration. intros Hit (HK & Hlen & Hnb & Hok).
  destruct (generate_candidates fuel e opts (set_bestExp loc 0))
    as [[e1 loc1]|] eqn:Hg; [|done].
  simpl in Hit.
  destruct (generate_candidates_in_range fuel e opts (set_bestExp loc 0)
              e1 loc1 HK Hok Hg) as [G1 G2].
  apply generate_candidates_members in Hg. simpl in G2.
  unfold members in Hg. injection Hg as _ _ Hsz HK1 _ _ _ _ _.
  assert (Hok1 : locals_ok e1 loc1).
  { unfold locals_ok. rewrite HK1, Hsz. repeat split; (done || lia). }
  destruct (forceExit loc1); [by injection Hit as _ <- <-|].
  destruct (bool_decide _); [by injection Hit as _ <- <-|].
  destruct (getBestCandidate fuel e1 opts (candidates loc1) _)
    as [cands|] eqn:Hb; [|done].
  simpl in Hit. destruct (last cands) as [b|] eqn:Hl; [|done]. simpl in Hit.
  destruct (decide_commit e1 opts _ (verify_best e1 opts b))
    as [e2 loc2] eqn:Hd.
  injection Hit as _ <- <-.
  assert (Hcands : Forall (used_in_range (m_num_subsets e1)) cands).
  { unfold getBestCandidate in Hb. rewrite <- HK1 in G1.
    destruct (_ =? 1); [by injection Hb as <-|].
    by apply best_loop_in_range in Hb. }
  destruct (decide_commit_sizes _ _ _ _ _ _ Hd) as [S1 S2].
  apply (decide_commit_in_range (m_num_subsets e1)) in Hd as [D1 D2].
  - simpl in D2. unfold locals_ok. rewrite S1, S2, HK1, Hsz.
    rewrite HK1 in D1. repeat split; (done || lia).
  - simpl. apply Forall_insert; [done|].
    rewrite last_lookup in Hl.
    by apply (Forall_lookup_1 _ _ _ _ Hcands Hl).
Qed.

Lemma run_locals_ok opts s s' :
  run opts s s' -> locals_ok s.1 s.2 -> locals_ok s'.1 s'.2.
Proof.
  induction 1 as [s|s fuel brk e' loc' s'' Hit Hrun IH]; [done|].
  intros Hok. apply IH. by apply (iteration_locals_ok _ _ _ _ _ _ _ Hit).
Qed.

Lemma sum_sizes_below_take (sizes : list Z) (u : nat) :
  (u <= length sizes)%nat ->
  sum_sizes_below sizes (Z.of_nat u) = foldr Z.add 0 (take u sizes).
Proof.
  induction u as [|u IH]; intros Hu; [done|].
  rewrite Nat2Z.inj_succ, <- Z.add_1_r, sum_sizes_below_succ by lia.
  rewrite IH by lia.
  destruct (lookup_lt_is_Some_2 sizes u) as [x Hx]; [lia|].
  rewrite (take_S_r _ _ _ Hx). unfold vec_at. rewrite Nat2Z.id, Hx. simpl.
  rewrite foldr_app. simpl.
  generalize (take u sizes). intros l. clear.
  induction l as [|y l IH]; simpl; lia.
Qed.

Lemma running_sums_length (l : list Z) : forall acc,
  length (running_sums acc l) = length l.
Proof.
  induction l as [|x l IH]; intros acc; simpl; [done|]. by rewrite IH.
Qed.

Lemma running_sums_lookup (l : list Z) : forall acc (i : nat),
  (i < length l)%nat ->
  running_sums acc l !! i = Some (acc + foldr Z.add 0 (take (S i) l)).
Proof.
  induction l as [|x l IH]; intros acc i Hi; simpl in *; [lia|].
  destruct i as [|i]; simpl.
  - destruct l; simpl; f_equal; lia.
  - rewrite IH by lia. f_equal. lia.
Qed.

(** X11.  In every state that the main loop of [detect] reaches, on an engine
    with at least one subset and a counter for each: the count of drawn
    candidates is not negative; every candidate of the pool has used at
    least one subset and at most all of them, so that line 440 reads
    [subsetSizes] within its bounds; and the value read is the sum of the
    counters of the subsets that the candidate has used, the number of
    points that [improveBound] passes to the bound engine as well. *)
Theorem pool_stays_in_range opts e s' :
  0 < m_num_subsets e ->
  Z.of_nat (length (m_availableOctreeSizes e)) = m_num_subsets e ->
  run opts (detect_entry e opts) s' ->
  0 <= nbNewCandidates s'.2
  /\ forall c, c ∈ candidates s'.2 ->
       1 <= m_nb_subset_used c <= m_num_subsets s'.1
       /\ (Z.to_nat (m_nb_subset_used c - 1) < length (subsetSizes s'.1))%nat
       /\ vec_at (subsetSizes s'.1) (m_nb_subset_used c - 1)
          = sum_sizes_below (m_availableOctreeSizes s'.1)
              (m_nb_subset_used c).
Proof.
  intros HK Hlen Hrun.
  apply run_locals_ok in Hrun.
  2:{ unfold locals_ok. simpl. repeat split; (done || lia || constructor). }
  destruct s' as [e' loc']. destruct Hrun as (HK' & Hlen' & Hnb & Hok).
  simpl in *. split; [done|]. intros c Hc.
  rewrite Forall_forall in Hok. destruct (Hok c Hc) as [H1 H2].
  split; [done|].
  set (u := m_nb_subset_used c) in *.
  set (sizes := m_availableOctreeSizes e') in *.
  assert (Hss : length (subsetSizes e') = length sizes).
  { unfold subsetSizes. fold sizes.
    rewrite take_ge by lia. apply running_sums_length. }
  split; [lia|].
  unfold subsetSizes, vec_at. fold sizes. rewrite take_ge by lia.
  rewrite running_sums_lookup by lia. simpl.
  replace (S (Z.to_nat (u - 1))) with (Z.to_nat u) by lia.
  rewrite <- sum_sizes_below_take by lia. rewrite Z2Nat.id by lia. lia.
Qed.


(** ** The count of failed candidates *)

Lemma generate_candidates_failed fuel : forall e opts loc e' loc',
  generate_candidates fuel e opts loc = Some (e', loc') ->
  forceExit loc = false -> nbFailedCandidates loc < 10000 ->
  nbFailedCandidates loc'
  < 10000 + Z.of_nat (length (m_shapeFactories e)).
Proof.
  induction fuel as [|fuel IH]; intros e opts loc e' loc'; simpl; [done|].
  destruct (generate_round fuel e opts loc) as [[e1 loc1]|] eqn:Hg; [|done].
  simpl. intros Hr Hf Hlt.
  destruct (generate_round_spec _ _ _ _ _ _ Hg)
    as (_ & _ & R3 & _ & new & _ & R6 & _).
  destruct (generate_round_locals _ _ _ _ _ _ Hg) as (_ & _ & L3).
  rewrite Hf, orb_false_r in L3.
  assert (Hfs : m_shapeFactories e1 = m_shapeFactories e)
    by (unfold members in R3; congruence).
  destruct (generate_again e1 opts loc1) eqn:Hga.
  - unfold generate_again in Hga. rewrite !andb_true_iff in Hga.
    destruct Hga as [[Hfe _] _]. apply negb_true_iff in Hfe.
    rewrite Hfe in L3. symmetry in L3. apply Z.leb_gt in L3.
    rewrite <- Hfs. by apply (IH e1 opts loc1 e' loc').
  - injection Hr as <- <-. lia.
Qed.

(** X8.  When the main loop of [detect] ends, fewer than
    [10000 + m_shapeFactories.size()] candidates have failed since the last
    commit, and fewer than 10000 unless the loop was left by the force exit:
    the force exit is decided once in a round, after every factory has made
    its candidate. *)
Theorem failed_candidates_bound fuel e opts loc e' loc' :
  forceExit loc = false -> 0 <= nbFailedCandidates loc < 10000 ->
  main_loop fuel e opts loc = Some (e', loc') ->
  0 <= nbFailedCandidates loc'
       < 10000 + Z.of_nat (length (m_shapeFactories e))
  /\ (forceExit loc' = false -> nbFailedCandidates loc' < 10000)
  /\ (forceExit loc' = true -> 10000 <= nbFailedCandidates loc').
Proof.
  revert e loc. induction fuel as [|fuel IH]; intros e loc Hf Hlt; simpl;
    [done|].
  destruct (iteration fuel e opts loc) as [[[brk e1] loc1]|] eqn:Hit; [|done].
  simpl. intros Hm.
  destruct (iteration_break _ _ _ _ _ _ _ Hf Hit) as (Hfe & Hbrk & _).
  assert (Hstep : 0 <= nbFailedCandidates loc1
                       < 10000 + Z.of_nat (length (m_shapeFactories e))
                  /\ m_shapeFactories e1 = m_shapeFactories e).
  { unfold iteration in Hit.
    destruct (generate_candidates fuel e opts (set_bestExp loc 0))
      as [[e2 loc2]|] eqn:Hg; [|done].
    simpl in Hit.
    pose proof (generate_candidates_failed _ _ _ _ _ _ Hg Hf
                  ltac:(simpl; lia)) as Hb.
    destruct (generate_candidates_locals _ _ _ _ _ _ Hg Hf) as (_ & G2 & _).
    apply generate_candidates_members in Hg. simpl in G2.
    assert (Hfs : m_shapeFactories e2 = m_shapeFactories e)
      by (unfold members in Hg; congruence).
    destruct (forceExit loc2).
    { injection Hit as _ <- <-. split; [lia | done]. }
    destruct (bool_decide _).
    { injection Hit as _ <- <-. split; [lia | done]. }
    destruct (getBestCandidate fuel e2 opts (candidates loc2) _)
      as [cands|]; [|done].
    simpl in Hit. destruct (last cands) as [b|]; [|done]. simpl in Hit.
    destruct (decide_commit e2 opts _ (verify_best e2 opts b))
      as [e3 loc3] eqn:Hd.
    injection Hit as _ <- <-.
    destruct (decide_commit_locals _ _ _ _ _ _ Hd) as (_ & D2).
    destruct (decide_commit_shapes _ _ _ _ _ _ Hd) as (Hfr & _).
    unfold frame in Hfr. injection Hfr as _ _ _ _ Hfs3 _.
    simpl in D2.
    split; [destruct D2 as [-> | ->]; lia | congruence]. }
  destruct Hstep as (Hb & Hfs).
  assert (Hend : 0 <= nbFailedCandidates loc1
                      < 10000 + Z.of_nat (length (m_shapeFactories e))
                 /\ (forceExit loc1 = false ->
                     nbFailedCandidates loc1 < 10000)
                 /\ (forceExit loc1 = true ->
                     10000 <= nbFailedCandidates loc1)).
  { split; [done|]. rewrite Hfe. split.
    - intros ->. destruct (Z.lt_ge_cases (nbFailedCandidates loc1) 10000)
        as [|Hge]; [done|]. by apply Hbrk in Hge.
    - intros Hb1. by apply Hbrk. }
  destruct brk; [by injection Hm as <- <-|].
  destruct (detect_again e1 opts loc1); [|by injection Hm as <- <-].
  rewrite <- Hfs. destruct Hend as (_ & Hlt1 & _).
  apply (IH e1 loc1); [done | | done]. specialize (Hlt1 Hfe). lia.
Qed.

End Coverage.

(** * The properties on the small instance *)

Lemma toy_component_subset :
  forall (f : Q) (k : Q) (pts : list Q) (l : list Z) i,
    i ∈ largest_component f k pts l -> i ∈ l.
Proof. intros f k pts l i Hi. exact Hi. Defined.

(** C1 on the run that finds both levels. *)
Lemma assignment_invariant_witness :
  let e := Toy.engine [Toy.Level] Toy.counting_rng in
  let e' := Toy.detected Toy.counting_rng in
  m_extractedShapes e = []
  /\ detect 20 e Toy.options = Some e'
  /\ assigned_points <$> m_extractedShapes e' = [[1; 3; 4; 5]; [0; 2; 6]]
  /\ m_shapeIndex e' = [1; 0; 1; 0; 0; 0; 1]
  /\ forall (k : nat) S i,
       m_extractedShapes e' !! k = Some S -> i ∈ assigned_points S ->
       0 <= i
       /\ m_shapeIndex e' !! Z.to_nat i = Some (Z.of_nat k)
       /\ forall (k' : nat) S',
            m_extractedShapes e' !! k' = Some S' -> i ∈ assigned_points S' ->
            k' = k.
Proof.
  intros e e'.
  assert (Hex : m_extractedShapes e = []) by reflexivity.
  assert (Hd : detect 20 e Toy.options = Some e') by (vm_compute; reflexivity).
  split; [exact Hex|]. split; [exact Hd|].
  split; [vm_compute; reflexivity|]. split; [vm_compute; reflexivity|].
  exact (proj1 (assignment_invariant toy_component_subset 20 e Toy.options e'
                  Hex Hd)).
Defined.

(** C5 on the same run. *)
Lemma claimed_points_within_tolerance_witness :
  let e := Toy.engine [Toy.Level] Toy.counting_rng in
  let e' := Toy.detected Toy.counting_rng in
  m_extractedShapes e = []
  /\ detect 20 e Toy.options = Some e'
  /\ forall S i,
       S ∈ m_extractedShapes e' -> i ∈ assigned_points S ->
       exists p, m_input e' !! Z.to_nat i = Some p
         /\ (Qabs (signed_distance (m_fit S) p) <= 3 * (1 # 10))%Q
         /\ (normal_deviation (m_fit S) p <= 1)%Q.
Proof.
  intros e e'.
  assert (Hex : m_extractedShapes e = []) by reflexivity.
  assert (Hd : detect 20 e Toy.options = Some e') by (vm_compute; reflexivity).
  split; [exact Hex|]. split; [exact Hd|].
  exact (proj2 (claimed_points_within_tolerance toy_component_subset 20 e
                  Toy.options e' Hex Hd)).
Defined.


(** C3 (as amended) on the run that cannot find anything. *)
Lemma main_loop_exit_witness :
  forceExit Toy.stalled_entry.2 = false
  /\ main_loop 200 Toy.stalled_entry.1 Toy.strict_options Toy.stalled_entry.2
     = Some (Toy.stalled.1, Toy.stalled.2)
  /\ (10000 <= nbFailedCandidates Toy.stalled.2
      \/ ~ FT_lt (FT_of_Q (probability Toy.strict_options))
             (overlook Toy.stalled.1 Toy.stalled.2
                (inject_Z (min_points Toy.strict_options)))
      \/ available Toy.stalled.1 Toy.stalled.2 < min_points Toy.strict_options).
Proof.
  assert (Hf : forceExit Toy.stalled_entry.2 = false) by reflexivity.
  assert (Hm : main_loop 200 Toy.stalled_entry.1 Toy.strict_options
                 Toy.stalled_entry.2
               = Some (Toy.stalled.1, Toy.stalled.2))
    by (vm_compute; reflexivity).
  split; [exact Hf|]. split; [exact Hm|].
  exact (proj1 (main_loop_exit 200 _ _ _ _ _ Hf Hm)).
Defined.

(** C3, as stated, fails on that run: the loop is left with exactly 10000
    failed candidates, which does not exceed 10000, while the overlook
    probability is above [probability] and all 7 points are available. *)
Lemma force_exit_at_10000 :
  main_loop 200 Toy.stalled_entry.1 Toy.strict_options Toy.stalled_entry.2
  = Some (Toy.stalled.1, Toy.stalled.2)
  /\ forceExit Toy.stalled.2 = true
  /\ nbFailedCandidates Toy.stalled.2 = 10000
  /\ ~ (10000 < nbFailedCandidates Toy.stalled.2
        \/ FT_le
             (overlook Toy.stalled.1 Toy.stalled.2
                (inject_Z (min_points Toy.strict_options)))
             (FT_of_Q (probability Toy.strict_options))
        \/ available Toy.stalled.1 Toy.stalled.2
           < min_points Toy.strict_options).
Proof.
  split; [vm_compute; reflexivity|]. split; [vm_compute; reflexivity|].
  assert (Hn : nbFailedCandidates Toy.stalled.2 = 10000)
    by (vm_compute; reflexivity).
  split; [exact Hn|].
  intros [H|[H|H]].
  - rewrite Hn in H. lia.
  - vm_compute in H. discriminate.
  - vm_compute in H. discriminate.
Qed.

(** C3: the loop is also left when the overlook probability is not a
    number.  For shapes of any size ([min_points = 0]) the run on the seven
    points ends with no point available and one candidate drawn: the
    quotient is zero over zero, the test [> probability] fails, and the loop
    ends although the overlook probability is not at most [probability], 0
    available points are not fewer than [min_points], and no candidate has
    failed. *)
Example exit_on_not_a_number :
  let e := Toy.any_size_finished.1 in
  let loc := Toy.any_size_finished.2 in
  main_loop 40 Toy.any_size_entry.1 Toy.any_size_options Toy.any_size_entry.2
  = Some (e, loc)
  /\ overlook e loc (inject_Z (min_points Toy.any_size_options)) = FT_nan
  /\ available e loc = 0
  /\ nbNewCandidates loc = 1
  /\ nbFailedCandidates loc = 0
  /\ forceExit loc = false
  /\ ~ FT_le (overlook e loc (inject_Z (min_points Toy.any_size_options)))
         (FT_of_Q (probability Toy.any_size_options))
  /\ ~ available e loc < min_points Toy.any_size_options.
Proof.
  intros e loc.
  split; [vm_compute; reflexivity|]. split; [vm_compute; reflexivity|].
  split; [vm_compute; reflexivity|]. split; [vm_compute; reflexivity|].
  split; [vm_compute; reflexivity|]. split; [vm_compute; reflexivity|].
  split; intros H; vm_compute in H; discriminate.
Qed.




(** C7 (as amended) on the seven points. *)
Lemma subset_ladder_witness :
  let e := Shape_detection_3 Toy.cloud Toy.counting_rng in
  Toy.cloud <> []
  /\ m_num_subsets e = 2
  /\ m_input e ≡ₚ Toy.cloud
  /\ m_availableOctreeSizes e = [4; 3].
Proof.
  intros e.
  assert (Hne : Toy.cloud <> []) by discriminate.
  split; [exact Hne|].
  destruct (subset_ladder Toy.cloud Toy.counting_rng Hne) as (H1 & H2 & _).
  split; [exact H1|]. split; [exact H2|]. reflexivity.
Defined.

(** C7, as stated, fails on the seven points: with [K = 2] subsets, subset 0
    holds 4 points and subset 1 holds 3, so that subset 0 is not the
    smallest and subset [K - 1] not the largest, and subset 0 is not within
    a point of [N / 2^K]. *)
Lemma subset_0_is_not_the_smallest :
  let e := Shape_detection_3 Toy.cloud Toy.counting_rng in
  let N := Z.of_nat (length Toy.cloud) in
  let K := m_num_subsets e in
  K = 2
  /\ m_availableOctreeSizes e = [4; 3]
  /\ ~ (forall s x0 x,
          m_availableOctreeSizes e !! 0%nat = Some x0 ->
          m_availableOctreeSizes e !! s = Some x -> x0 <= x)
  /\ ~ (forall x0, m_availableOctreeSizes e !! 0%nat = Some x0 ->
          N - 2 ^ K < 2 ^ K * x0 < N + 2 ^ K).
Proof.
  intros e N K. split; [reflexivity|]. split; [reflexivity|]. split.
  - intros H. specialize (H 1%nat 4 3 eq_refl eq_refl). lia.
  - intros H. specialize (H 4 eq_refl). vm_compute in H.
    destruct H as [_ H]. discriminate.
Qed.

(** C8 on an engine without factories. *)
Lemma detect_without_kinds_witness :
  let e := Toy.engine [] Toy.counting_rng in
  m_shapeFactories e = []
  /\ detect 20 e Toy.options = Some e
  /\ m_extractedShapes e = [] /\ m_shapeIndex e = [].
Proof.
  intros e.
  assert (Hf : m_shapeFactories e = []) by reflexivity.
  split; [exact Hf|].
  split; [exact (proj1 (detect_without_kinds 20 e Toy.options Hf))|].
  split; reflexivity.
Defined.

(** C10 on the seven points with a factory registered. *)
Lemma unassigned_view_before_detect_witness :
  let e := Toy.engine [Toy.Level] Toy.counting_rng in
  Toy.cloud <> []
  /\ unassigned_points_begin e = unassigned_points_end e
  /\ unassigned_points e = []
  /\ number_of_unassigned_points e = 7.
Proof.
  intros e.
  assert (Hne : Toy.cloud <> []) by discriminate.
  split; [exact Hne|].
  destruct (unassigned_view_before_detect Toy.cloud Toy.counting_rng
              [Toy.Level] Hne) as (H1 & H2 & H3 & _).
  split; [exact H1|]. split; [exact H2 | exact H3].
Defined.

(** The compaction of lines 444-456 can drop a candidate that survived the
    update: of a hole, a survivor and the hole of the committed best
    candidate, nothing is left. *)
Example compaction_drops_a_survivor :
  pool_entries (compact_pool [None; Some (Toy.candidate 5); None]) = [].
Proof. reflexivity. Qed.

(** ** Further properties on the small instance *)

Lemma toy_component_NoDup :
  forall (f : Q) (k : Q) (pts : list Q) (l : list Z),
    NoDup l -> NoDup (largest_component f k pts l).
Proof. intros f k pts l Hl. exact Hl. Defined.

Lemma toy_has_root : forall o : Direct_octree, 0 < oct_size o -> has_root o = true.
Proof. intros o _. reflexivity. Defined.

(** X1 on the seven points. *)
Lemma top_subset_is_stratified_witness :
  let e := Shape_detection_3 Toy.cloud Toy.counting_rng in
  Toy.cloud <> []
  /\ m_direct_octrees e !! 1%nat = Some (Some (mkDirect 4 7 4))
  /\ m_input e !! 4%nat = Toy.cloud !! 0%nat
  /\ m_input e !! 5%nat = Toy.cloud !! 3%nat
  /\ m_input e !! 6%nat = Toy.cloud !! 4%nat.
Proof.
  intros e.
  assert (Hne : Toy.cloud <> []) by discriminate.
  split; [exact Hne|].
  destruct (top_subset_is_stratified Toy.cloud Toy.counting_rng Hne)
    as [H1 H2].
  split; [exact H1|].
  split; [exact (H2 0%nat eq_refl)|].
  split; [exact (H2 1%nat eq_refl) | exact (H2 2%nat eq_refl)].
Defined.

(** X2 on the seven points. *)
Lemma adjust_sizes_exactly_once_witness :
  let e := Shape_detection_3 Toy.cloud Toy.counting_rng in
  Toy.cloud <> []
  /\ 0 <= 5 < Z.of_nat (length Toy.cloud)
  /\ exists (j : nat) o,
       m_direct_octrees e !! j = Some (Some o)
       /\ oct_offset o <= 5 < oct_offset o + oct_size o
       /\ adjust_sizes e [4; 3] 5 = <[j := vec_at [4; 3] (Z.of_nat j) - 1]> [4; 3].
Proof.
  intros e.
  assert (Hne : Toy.cloud <> []) by discriminate.
  assert (Hidx : 0 <= 5 < Z.of_nat (length Toy.cloud)) by (simpl; lia).
  split; [exact Hne|]. split; [exact Hidx|].
  destruct (adjust_sizes_exactly_once Toy.cloud Toy.counting_rng [4; 3] 5
              Hne toy_has_root Hidx) as (j & o & H1 & H2 & H3 & _).
  exists j, o. split; [exact H1|]. split; [exact H2 | exact H3].
Defined.

(** X3 on the run that finds both levels. *)
Lemma detect_frame_witness :
  let e := Toy.engine [Toy.Level] Toy.counting_rng in
  let e' := Toy.detected Toy.counting_rng in
  m_shapeFactories e <> []
  /\ detect 20 e Toy.options = Some e'
  /\ m_options e' = Some Toy.options
  /\ length (m_shapeIndex e') = 7%nat
  /\ m_input e' = m_input e.
Proof.
  intros e e'.
  assert (Hf : m_shapeFactories e <> []) by discriminate.
  assert (Hd : detect 20 e Toy.options = Some e') by (vm_compute; reflexivity).
  split; [exact Hf|]. split; [exact Hd|].
  destruct (detect_frame 20 e Toy.options e' Hf Hd) as (H1 & H2 & H3 & _).
  split; [exact H1|]. split; [exact H2 | exact H3].
Defined.

(** X4 on the same run. *)
Lemma detect_appends_shapes_witness :
  let e := Toy.engine [Toy.Level] Toy.counting_rng in
  let e' := Toy.detected Toy.counting_rng in
  detect 20 e Toy.options = Some e'
  /\ number_of_shapes e' = 2 /\ number_of_unassigned_points e' = 0
  /\ exists new,
       m_extractedShapes e' = m_extractedShapes e ++ new
       /\ Forall (fun S => min_points Toy.options
                           <= Z.of_nat (length (assigned_points S))) new
       /\ number_of_unassigned_points e'
          = number_of_unassigned_points e
            - Z.of_nat (length (concat (assigned_points <$> new))).
Proof.
  intros e e'.
  assert (Hd : detect 20 e Toy.options = Some e') by (vm_compute; reflexivity).
  split; [exact Hd|].
  split; [vm_compute; reflexivity|]. split; [vm_compute; reflexivity|].
  destruct (detect_appends_shapes 20 e Toy.options e' Hd)
    as (new & H1 & H2 & _ & H4).
  exists new. split; [exact H1|]. split; [exact H2 | exact H4].
Defined.

(** X5 on the first generation of that run. *)
Lemma generate_candidates_accounts_witness :
  let e := Toy.entry.1 in
  let loc := set_bestExp Toy.entry.2 0 in
  let e' := Toy.generated.1 in
  let loc' := Toy.generated.2 in
  generate_candidates 20 e Toy.options loc = Some (e', loc')
  /\ length (candidates loc') = 2%nat
  /\ nbNewCandidates loc' = 2
  /\ (forceExit loc' = true
      \/ ~ FT_lt (FT_of_Q (probability Toy.options))
             (overlook e' loc' (bestExp loc'))
      \/ ~ FT_lt (FT_of_Q (probability Toy.options))
             (overlook e' loc' (inject_Z (min_points Toy.options)))).
Proof.
  intros e loc e' loc'.
  assert (Hg : generate_candidates 20 e Toy.options loc = Some (e', loc'))
    by (vm_compute; reflexivity).
  split; [exact Hg|].
  split; [vm_compute; reflexivity|]. split; [vm_compute; reflexivity|].
  exact (proj1 (proj2 (proj2
           (generate_candidates_accounts 20 e Toy.options loc e' loc' Hg)))).
Defined.

(** X6 on the first sample of that run. *)
Lemma first_sample_is_unassigned_witness :
  let e := Toy.entry.1 in
  0 < m_numAvailablePoints e
  /\ draw_first_sample 5 e = Some (Toy.first.1, Toy.first.2)
  /\ Toy.first.1 = 3
  /\ 0 <= Toy.first.1 < m_numAvailablePoints e
  /\ vec_at (m_shapeIndex e) Toy.first.1 = -1.
Proof.
  intros e.
  assert (HN : 0 < m_numAvailablePoints e) by (vm_compute; reflexivity).
  assert (Hd : draw_first_sample 5 e = Some (Toy.first.1, Toy.first.2))
    by (vm_compute; reflexivity).
  split; [exact HN|]. split; [exact Hd|]. split; [vm_compute; reflexivity|].
  destruct (first_sample_is_unassigned 5 e _ _ HN Hd) as (H1 & H2 & _).
  split; [exact H1 | exact H2].
Defined.

(** X7 on the run that leaves one point: a second [detect] on the engine
    does not return. *)
Lemma detect_again_never_returns_witness :
  detect 40 Toy.lopsided_engine Toy.options = Some Toy.once
  /\ m_shapeIndex Toy.once = [0; 0; 0; -1; 0]
  /\ number_of_unassigned_points Toy.once = 1
  /\ m_shapeFactories Toy.once <> []
  /\ forall fuel, detect fuel Toy.once Toy.options = None.
Proof.
  split; [vm_compute; reflexivity|]. split; [vm_compute; reflexivity|].
  split; [vm_compute; reflexivity|].
  assert (Hf : m_shapeFactories Toy.once <> []) by (vm_compute; discriminate).
  split; [exact Hf|].
  apply (detect_again_never_returns Toy.once Toy.options Hf).
  - vm_compute. reflexivity.
  - intros i Hi.
    assert (HP : m_numAvailablePoints Toy.once = 1)
      by (vm_compute; reflexivity).
    assert (Hi0 : i = 0) by (rewrite HP in Hi; lia).
    subst i. exists 0. split; [vm_compute; reflexivity | discriminate].
Defined.

(** X8 on the run that cannot find anything. *)
Lemma failed_candidates_bound_witness :
  forceExit Toy.stalled_entry.2 = false
  /\ 0 <= nbFailedCandidates Toy.stalled_entry.2 < 10000
  /\ main_loop 200 Toy.stalled_entry.1 Toy.strict_options Toy.stalled_entry.2
     = Some (Toy.stalled.1, Toy.stalled.2)
  /\ 0 <= nbFailedCandidates Toy.stalled.2 < 10000 + 100.
Proof.
  assert (Hf : forceExit Toy.stalled_entry.2 = false) by reflexivity.
  assert (H0 : 0 <= nbFailedCandidates Toy.stalled_entry.2 < 10000)
    by (simpl; lia).
  assert (Hm : main_loop 200 Toy.stalled_entry.1 Toy.strict_options
                 Toy.stalled_entry.2
               = Some (Toy.stalled.1, Toy.stalled.2))
    by (vm_compute; reflexivity).
  split; [exact Hf|]. split; [exact H0|]. split; [exact Hm|].
  exact (proj1 (failed_candidates_bound 200 _ _ _ _ _ Hf H0 Hm)).
Defined.

(** X9 on the pool of the first generation. *)
Lemma getBestCandidate_returns_witness :
  let e := Toy.generated.1 in
  let cands := candidates Toy.generated.2 in
  cands <> []
  /\ Forall (fun c => 0 <= m_nb_subset_used c) cands
  /\ (total_slack (m_num_subsets e) cands < 20)%nat
  /\ exists cands',
       getBestCandidate 20 e Toy.options cands 7 = Some cands'
       /\ m_fit <$> cands' ≡ₚ m_fit <$> cands
       /\ is_Some (last cands').
Proof.
  intros e cands.
  assert (Hne : cands <> []) by (vm_compute; discriminate).
  assert (Hnn : Forall (fun c => 0 <= m_nb_subset_used c) cands).
  { apply Forall_forall. intros c Hc. vm_compute in Hc.
    repeat (apply elem_of_cons in Hc as [->|Hc]; [vm_compute; discriminate|]).
    by apply elem_of_nil in Hc. }
  assert (Hfuel : (total_slack (m_num_subsets e) cands < 20)%nat)
    by (vm_compute; lia).
  split; [exact Hne|]. split; [exact Hnn|]. split; [exact Hfuel|].
  destruct (getBestCandidate_returns 20 e Toy.options cands 7 Hne Hnn Hfuel)
    as (cands' & H1 & H2 & _ & _ & H5).
  exists cands'. split; [exact H1|]. split; [exact H2 | exact H5].
Defined.

(** X10 on a candidate that has not used a subset yet. *)
Lemma improveBound_progress_witness :
  let e := Toy.entry.1 in
  let c := new_shape 0%Q in
  let r := improveBound e Toy.options c 7 1 500 in
  0 <= m_nb_subset_used c
  /\ r.1 = true
  /\ m_nb_subset_used c < m_nb_subset_used r.2 <= m_num_subsets e
  /\ m_score r.2 = Z.of_nat (length (m_indices r.2)).
Proof.
  intros e c r.
  assert (H0 : 0 <= m_nb_subset_used c) by (simpl; lia).
  split; [exact H0|].
  assert (Hr : r.1 = true) by (vm_compute; reflexivity).
  split; [exact Hr|].
  destruct (improveBound_progress e Toy.options c 7 1 500 H0)
    as (_ & _ & Ht).
  destruct (Ht Hr) as (H1 & _ & _ & _ & H5 & _).
  split; [exact H1 | exact H5].
Defined.

(** X11 on the state after the first iteration of the run with the
    generator that returns 0, 3, 6, ... *)
Lemma pool_stays_in_range_witness :
  let e := Toy.engine [Toy.Level] Toy.tripling_rng in
  0 < m_num_subsets e
  /\ Z.of_nat (length (m_availableOctreeSizes e)) = m_num_subsets e
  /\ run Toy.options (detect_entry e Toy.options) Toy.after_first
  /\ length (candidates Toy.after_first.2) = 1%nat
  /\ 0 <= nbNewCandidates Toy.after_first.2
  /\ forall c, c ∈ candidates Toy.after_first.2 ->
       1 <= m_nb_subset_used c <= m_num_subsets Toy.after_first.1.
Proof.
  intros e.
  assert (HK : 0 < m_num_subsets e) by (vm_compute; reflexivity).
  assert (Hlen : Z.of_nat (length (m_availableOctreeSizes e))
                 = m_num_subsets e) by reflexivity.
  assert (Hrun : run Toy.options (detect_entry e Toy.options)
                   Toy.after_first).
  { apply (run_step Toy.options (detect_entry e Toy.options) 20 false
             Toy.after_first.1 Toy.after_first.2 Toy.after_first).
    - vm_compute. reflexivity.
    - destruct Toy.after_first. apply run_refl. }
  split; [exact HK|]. split; [exact Hlen|]. split; [exact Hrun|].
  split; [vm_compute; reflexivity|].
  destruct (pool_stays_in_range Toy.options e Toy.after_first HK Hlen Hrun)
    as [H1 H2].
  split; [exact H1|].
  intros c Hc. exact (proj1 (H2 c Hc)).
Defined.

(** X12 on a hole, a survivor and the hole of the committed candidate. *)
Lemma compaction_drops_at_most_one_witness :
  let cands := [None; Some (Toy.candidate 5); None] in
  cands <> []
  /\ Forall is_Some (compact_pool cands)
  /\ pool_entries (compact_pool cands) ⊆+ pool_entries cands
  /\ (length (pool_entries cands)
      <= length (pool_entries (compact_pool cands)) + 1)%nat.
Proof.
  intros cands.
  assert (Hne : cands <> []) by discriminate.
  split; [exact Hne|].
  exact (compaction_drops_at_most_one cands Hne).
Defined.

(** X13 on a candidate of 2 and of 4 points among 7, at depth 1. *)
Lemma StopProbability_monotone_witness :
  ((0 < 7) /\ (0 < 1) /\ (0 <= 2) /\ (2 <= 4) /\ (4 <= 3 * 7 * 1))%Q
  /\ 0 <= 1 <= 2
  /\ FT_le (StopProbability (FT_of_Q 2) (FT_of_Q 7) 2 (FT_of_Q 1))
        (StopProbability (FT_of_Q 2) (FT_of_Q 7) 1 (FT_of_Q 1))
  /\ FT_le (StopProbability (FT_of_Q 4) (FT_of_Q 7) 1 (FT_of_Q 1))
        (StopProbability (FT_of_Q 2) (FT_of_Q 7) 1 (FT_of_Q 1)).
Proof.
  assert (H1 : (0 < 7)%Q) by reflexivity.
  assert (H2 : (0 < 1)%Q) by reflexivity.
  assert (H3 : (0 <= 2)%Q) by discriminate.
  assert (H4 : (2 <= 4)%Q) by discriminate.
  assert (H5 : (4 <= 3 * 7 * 1)%Q) by discriminate.
  assert (H6 : 0 <= 1 <= 2) by lia.
  split; [repeat split; assumption|]. split; [exact H6|].
  destruct (StopProbability_monotone 2 4 7 1 1 2 H1 H2 H3 H4 H5 H6)
    as (_ & _ & G3 & G4).
  split; [exact G3 | exact G4].
Defined.

(** X15 on the run that finds both levels. *)
Lemma unassigned_view_after_detect_witness :
  let e := Toy.engine [Toy.Level] Toy.counting_rng in
  let e' := Toy.detected Toy.counting_rng in
  m_shapeIndex e = [] /\ m_extractedShapes e = []
  /\ 0 <= m_numAvailablePoints e
  /\ m_shapeFactories e <> []
  /\ detect 20 e Toy.options = Some e'
  /\ number_of_unassigned_points e'
     = Z.of_nat (length (unassigned_points e')).
Proof.
  intros e e'.
  assert (H1 : m_shapeIndex e = []) by reflexivity.
  assert (H2 : m_extractedShapes e = []) by reflexivity.
  assert (H3 : 0 <= m_numAvailablePoints e) by (vm_compute; discriminate).
  assert (H4 : m_shapeFactories e <> []) by discriminate.
  assert (Hd : detect 20 e Toy.options = Some e') by (vm_compute; reflexivity).
  do 5 (split; [assumption|]).
  exact (proj2 (proj2 (unassigned_view_after_detect toy_component_subset
                         toy_component_NoDup 20 e Toy.options e'
                         H1 H2 H3 H4 Hd))).
Defined.

(** X16 on the run that leaves one point. *)
Lemma points_partition_witness :
  let e := Toy.lopsided_engine in
  m_shapeIndex e = [] /\ m_extractedShapes e = []
  /\ m_shapeFactories e <> []
  /\ detect 40 e Toy.options = Some Toy.once
  /\ unassigned_points Toy.once = [3]
  /\ forall i, 0 <= i < 5 ->
       (i ∈ unassigned_points Toy.once
        /\ forall S, S ∈ m_extractedShapes Toy.once ->
             i ∉ assigned_points S)
       \/ ((i ∉ unassigned_points Toy.once)
           /\ exists k S,
                m_extractedShapes Toy.once !! k = Some S
                /\ i ∈ assigned_points S).
Proof.
  intros e.
  assert (H1 : m_shapeIndex e = []) by reflexivity.
  assert (H2 : m_extractedShapes e = []) by reflexivity.
  assert (H4 : m_shapeFactories e <> []) by discriminate.
  assert (Hd : detect 40 e Toy.options = Some Toy.once)
    by (vm_compute; reflexivity).
  do 4 (split; [assumption|]). split; [vm_compute; reflexivity|].
  intros i Hi.
  destruct (points_partition toy_component_subset 40 e Toy.options Toy.once
              H1 H2 H4 Hd i Hi) as [Hl|(Hn & k & S & Hk & Hin & _)].
  - left. exact Hl.
  - right. split; [exact Hn|]. exists k, S. split; [exact Hk | exact Hin].
Defined.

(** X17 on the same run. *)
Lemma subset_counters_after_detect_witness :
  Toy.lopsided <> [] /\ [Toy.Level] <> []
  /\ detect 40 Toy.lopsided_engine Toy.options = Some Toy.once
  /\ m_availableOctreeSizes Toy.once = [0; 1]
  /\ forall (j : nat) o,
       m_direct_octrees Toy.once !! j = Some (Some o) ->
       m_availableOctreeSizes Toy.once !! j
       = Some (Z.of_nat
                 (length (filter (fun i => vec_at (m_shapeIndex Toy.once) i
                                           = -1)
                            (seqZ (oct_offset o) (oct_size o))))).
Proof.
  assert (H1 : Toy.lopsided <> []) by discriminate.
  assert (H2 : [Toy.Level] <> []) by discriminate.
  assert (Hd : detect 40 Toy.lopsided_engine Toy.options = Some Toy.once)
    by (vm_compute; reflexivity).
  do 3 (split; [assumption|]). split; [vm_compute; reflexivity|].
  exact (subset_counters_after_detect toy_component_subset
           toy_component_NoDup 40 Toy.lopsided Toy.counting_rng [Toy.Level]
           Toy.options Toy.once H1 H2 toy_has_root Hd).
Defined.
